(** * SLME: photovoltaic efficiency metrics of [jarvis/tools/slme.py]

    A shallow embedding of the numerical pipeline of [slme.py] -- the
    dielectric model, the radiation spectrum constructor, the
    Shockley-Queisser routine [calculate_SQ] and the standalone [slme]
    function -- together with the properties stated about it.

    Numbers.  The program computes with IEEE binary64 floats; the embedding
    uses the real numbers of the Standard Library, so a statement below is
    about the exact-arithmetic reading of the code unless it says
    otherwise: rounding is not modelled.  The termination of the voltage
    sweep depends on the overflow of [numpy.exp]; for it the module
    [Binary64] adds the infinities and [nan] to the finite values.  Where a
    statement depends on the value of a quotient, its divisor is assumed or
    shown to be non-zero.

    Library routines.  [scipy.integrate.simps], the interior of the cubic
    spline built by [scipy.interpolate.interp1d] and [numpy.linalg.eigvals]
    are not part of this repository: they are section variables.  The
    documented boundary behaviour of [interp1d], [numpy.interp],
    [numpy.searchsorted] and [cmath.sqrt] is written out.  The bundled data
    file [am1.5g.dat] is a parameter as well (two columns: wavelength in nm
    and irradiance). *)

From Stdlib Require Import Reals Lra Lia String Bool Arith List.
From Stdlib Require QArith.
Import ListNotations.
Open Scope R_scope.

(** ** Physical constants ([scipy.constants], CODATA 2018 exact SI values)

    Only their signs are used by the proofs. *)

Module Constants.

Definition c : R := 299792458.          (* speed of light, m/s *)
Definition h : R := 6.62607015e-34.     (* Planck's constant, J s *)
Definition e : R := 1.602176634e-19.    (* elementary charge, C *)
Definition k : R := 1.380649e-23.       (* Boltzmann's constant, J/K *)
Definition hbar : R := h / (2 * PI).
Definition h_e : R := h / e.            (* Planck's constant, eV s *)
Definition k_e : R := k / e.            (* Boltzmann's constant, eV/K *)

End Constants.

Import Constants.

(** ** Python exceptions and fallible computations *)

Inductive exn : Type :=
| ImportError
| TypeError
| ValueError
| NotImplementedError.

Definition result (A : Type) : Type := (exn + A)%type.

Definition ret {A : Type} (a : A) : result A := inr a.
Definition raise {A : Type} (x : exn) : result A := inl x.

Definition bind {A B : Type} (m : result A) (f : A -> result B) : result B :=
  match m with
  | inl x => inl x
  | inr a => f a
  end.

Notation "x <- m ;; f" := (bind m (fun x => f))
  (at level 61, m at next level, right associativity).

Definition raises {A : Type} (m : result A) (x : exn) : Prop := m = inl x.
Definition returns {A : Type} (m : result A) : Prop := exists a, m = inr a.

(** ** The voltage sweep shared by [slme] and [calculate_SQ]

    <<
      test_voltage = 0
      voltage_step = 0.001
      while power(test_voltage + voltage_step) > power(test_voltage):
          test_voltage += voltage_step
      max_power = power(test_voltage)
    >>

    The loop carries no iteration bound.  [sweep] runs it for at most [fuel]
    evaluations of the loop condition: [None] means that the loop is still
    running after that many evaluations. *)

Section Sweep.

Context {V : Type}.
Variable add : V -> V -> V.
Variable gt : V -> V -> bool.
Variable power : V -> V.
Variable voltage_step : V.

Fixpoint sweep (fuel : nat) (test_voltage : V) : option V :=
  match fuel with
  | O => None
  | S fuel' =>
      if gt (power (add test_voltage voltage_step)) (power test_voltage)
      then sweep fuel' (add test_voltage voltage_step)
      else Some test_voltage
  end.

(** The value of [test_voltage] after [n] accepted steps. *)
Fixpoint nth_voltage (n : nat) (test_voltage : V) : V :=
  match n with
  | O => test_voltage
  | S n' => nth_voltage n' (add test_voltage voltage_step)
  end.

(** The loop condition at the voltage reached after [m] accepted steps. *)
Definition accepts (test_voltage : V) (m : nat) : bool :=
  gt (power (add (nth_voltage m test_voltage) voltage_step))
     (power (nth_voltage m test_voltage)).

End Sweep.

(** An executable instance over the rationals: a parabola with its top at
    [V = 0.0035].  The step from [0.003] to [0.004] leaves the power
    unchanged, so it is not taken. *)

Module SweepQ.
Import QArith.
Local Open Scope Q_scope.

Definition gtb (x y : Q) : bool := if Qlt_le_dec y x then true else false.
Definition parabola (v : Q) : Q := v * ((7 # 1000) - v).

End SweepQ.

(** The instance the program runs, on real numbers. *)

Definition Rgtb (x y : R) : bool := if Rgt_dec x y then true else false.

Definition voltage_step : R := 0.001.

(** The grid voltage [n * 0.001]. *)
Definition grid (n : nat) : R := INR n * voltage_step.

(** [n] is the first grid index whose step does not increase [P]. *)
Definition first_stop (P : R -> R) (n : nat) : Prop :=
  (forall m, (m < n)%nat -> P (grid (S m)) > P (grid m)) /\
  P (grid (S n)) <= P (grid n).

(** [J(V)] and [power(V)], the closures of [slme] and [calculate_SQ]. *)
Definition J (J_sc J_0 temperature V : R) : R :=
  J_sc - J_0 * (exp (e * V / (k * temperature)) - 1.0).

Definition power (J_sc J_0 temperature V : R) : R :=
  J J_sc J_0 temperature V * V.

Definition test_voltage_after (fuel : nat) (J_sc J_0 temperature : R) : option R :=
  sweep Rplus Rgtb (power J_sc J_0 temperature) voltage_step fuel 0.

Definition max_power (fuel : nat) (J_sc J_0 temperature : R) : option R :=
  option_map (power J_sc J_0 temperature)
             (test_voltage_after fuel J_sc J_0 temperature).

(** [efficiency = max_power / power_in]. *)
Definition efficiency (fuel : nat) (J_sc J_0 temperature power_in : R) : option R :=
  option_map (fun p => p / power_in) (max_power fuel J_sc J_0 temperature).

(** ** Shape of the power curve

    [rate T] is the exponent's coefficient [e / (k T)], [dpower] the
    derivative of [power] in the voltage, and [unimodal P Vm] says that [P]
    rises strictly up to [Vm] and falls strictly after it, on [V >= 0]. *)

Definition rate (temperature : R) : R := e / (k * temperature).

Definition dpower (J_sc J_0 temperature V : R) : R :=
  J_sc - J_0 * (exp (rate temperature * V) - 1)
  - J_0 * rate temperature * V * exp (rate temperature * V).

Definition unimodal (P : R -> R) (Vm : R) : Prop :=
  0 <= Vm /\
  (forall x y, 0 <= x -> x < y -> y <= Vm -> P x < P y) /\
  (forall x y, Vm <= x -> x < y -> P y < P x).

(** ** numpy arrays

    One-dimensional arrays are lists of reals.  An arithmetic operator on
    two arrays works elementwise when the lengths agree, stretches an array
    of length one, and raises [ValueError] otherwise. *)

Definition array : Type := list R.

Fixpoint map2 {A B C : Type} (f : A -> B -> C) (xs : list A) (ys : list B) : list C :=
  match xs, ys with
  | x :: xs', y :: ys' => f x y :: map2 f xs' ys'
  | _, _ => []
  end.

Definition broadcast (f : R -> R -> R) (xs ys : array) : result array :=
  if Nat.eqb (length xs) (length ys) then ret (map2 f xs ys)
  else match xs, ys with
       | [x], _ => ret (map (f x) ys)
       | _, [y] => ret (map (fun x => f x y) xs)
       | _, _ => raise ValueError
       end.

(** [numpy.flip] on a one-dimensional array. *)
Definition flip (xs : array) : array := rev xs.

(** [numpy.searchsorted(a, v)] (side [left]) on an ascending array: the
    number of leading elements strictly below [v]. *)
Fixpoint searchsorted (a : array) (v : R) : nat :=
  match a with
  | [] => O
  | x :: a' => if Rlt_dec x v then S (searchsorted a' v) else O
  end.

(** [numpy.interp(x, xp, fp)] at one abscissa, for ascending [xp]: the
    first ordinate to the left of the samples, the last one to their right,
    and between two neighbours the chord through them. *)
Fixpoint interp_from (x x0 f0 : R) (rest : list (R * R)) : R :=
  match rest with
  | [] => f0
  | (x1, f1) :: rest' =>
      if Rlt_dec x x1
      then (f1 - f0) / (x1 - x0) * (x - x0) + f0
      else interp_from x x1 f1 rest'
  end.

Definition interp1 (x : R) (xp fp : array) : result R :=
  if negb (Nat.eqb (length xp) (length fp)) then raise ValueError
  else match combine xp fp with
       | [] => raise ValueError
       | (x0, f0) :: rest =>
           if Rlt_dec x x0 then ret f0 else ret (interp_from x x0 f0 rest)
       end.

Fixpoint traverse {A B : Type} (f : A -> result B) (l : list A) : result (list B) :=
  match l with
  | [] => ret []
  | a :: l' => b <- f a ;; bs <- traverse f l' ;; ret (b :: bs)
  end.

(** [numpy.interp] on an array of abscissae. *)
Definition interp (xs xp fp : array) : result array :=
  traverse (fun x => interp1 x xp fp) xs.

(** ** Complex numbers and [cmath.sqrt] *)

Record complex : Type := mkC { Re : R; Im : R }.

Definition Cadd (z w : complex) : complex := mkC (Re z + Re w) (Im z + Im w).
Definition Cmul (z w : complex) : complex :=
  mkC (Re z * Re w - Im z * Im w) (Re z * Im w + Im z * Re w).
Definition Cdiv_real (z : complex) (r : R) : complex := mkC (Re z / r) (Im z / r).
Definition Cmod (z : complex) : R := sqrt (Re z * Re z + Im z * Im z).

(** The principal square root: non-negative real part, and an imaginary part
    with the sign of the argument's imaginary part. *)
Definition cmath_sqrt (z : complex) : complex :=
  let re := sqrt ((Cmod z + Re z) / 2) in
  let im := sqrt ((Cmod z - Re z) / 2) in
  if Rle_dec 0 (Im z) then mkC re im else mkC re (- im).

(** [numpy.mean] of an array of complex numbers. *)
Definition mean (zs : list complex) : complex :=
  Cdiv_real (fold_right Cadd (mkC 0 0) zs) (INR (length zs)).

(** ** Matrices and [to_matrix] *)

Definition matrix (A : Type) : Type := list (list A).

Definition to_matrix {A : Type} (xx yy zz xy yz xz : A) : matrix A :=
  [[xx; xy; xz]; [xy; yy; yz]; [xz; yz; zz]].

(** [real + 1j * imag] on matrices of floats. *)
Definition complex_matrix (real imag : matrix R) : matrix complex :=
  map2 (map2 mkC) real imag.

(** ** [DielTensor] *)

(** What the dielectric data holds: the items of each tuple element are
    floats, component lists or ready-made tensors. *)
Inductive entry : Type :=
| Scalar (x : R)
| Row (xs : list R)
| Matrix (m : matrix complex).

(** The constructor argument: a tuple of sequences, or any object that is
    not a tuple (a list, a dict, [None], an array). *)
Inductive pyobj : Type :=
| PyTuple (items : list (list entry))
| PyOther.

(** [to_matrix] called on the unpacked items of [data]: the call needs
    exactly six positional arguments. *)
Definition to_matrix_star (data : entry) : result (matrix R) :=
  match data with
  | Row [xx; yy; zz; xy; yz; xz] => ret (to_matrix xx yy zz xy yz xz)
  | _ => raise TypeError
  end.

Definition parse_dielectric_data (_dielectric_data : pyobj)
  : result (list entry * list entry) :=
  match _dielectric_data with
  | PyTuple [d0; d1; d2] =>
      let energies := d0 in
      dielectric_tensor <-
        traverse (fun '(real_data, imag_data) =>
                    re <- to_matrix_star real_data ;;
                    im <- to_matrix_star imag_data ;;
                    ret (Matrix (complex_matrix re im)))
                 (combine d1 d2) ;;
      ret (energies, dielectric_tensor)
  | PyTuple [d0; d1] => ret (d0, d1)
  | _ => raise ImportError
  end.

(** [DielTensor.__init__] stores what [parse_dielectric_data] returns. *)
Record RawDielTensor : Type := mkRaw {
  _energies : list entry;
  _dielectric_tensor : list entry
}.

Definition DielTensor_init (dielectric_data : pyobj) : result RawDielTensor :=
  p <- parse_dielectric_data dielectric_data ;;
  ret (mkRaw (fst p) (snd p)).

(** The numeric content of a tensor object: an energy grid and one complex
    3x3 matrix per energy. *)
Record DielTensor : Type := mkDielTensor {
  energies : array;
  dielectric_tensor : list (matrix complex)
}.

Section Dielectric.

(** [numpy.linalg.eigvals]. *)
Variable eigvals : matrix complex -> list complex.

Definition dielectric_function (D : DielTensor) : list complex :=
  map (fun tensor => mean (eigvals tensor)) (dielectric_tensor D).

(** <<
      E = self.energies
      k = np.array([cmath.sqrt(v).imag for v in self.dielectric_function])
      return 2.0 * E * k / (constants.hbar / constants.e * constants.c)
    >> *)
Definition absorption_coefficient (D : DielTensor) : result array :=
  let E := energies D in
  let k := map (fun v => Im (cmath_sqrt v)) (dielectric_function D) in
  Ek <- broadcast (fun E_i k_i => 2.0 * E_i * k_i) E k ;;
  ret (map (fun x => x / (hbar / e * c)) Ek).

End Dielectric.

(** ** [EMRadSpectrum] *)

Record EMRadSpectrum : Type := mkSpectrum {
  _energy : array;
  _photon_flux : array
}.

Open Scope string_scope.

Definition from_data (data : array * array) (variable spectrum_units : string)
  : result EMRadSpectrum :=
  es <-
    (if String.eqb variable "energy" then
       ret (fst data, snd data)
     else if String.eqb variable "wavelength" then
       let energy := flip (map (fun x => h_e * c / x) (fst data)) in
       spectrum <- broadcast (fun s E => s * h_e * c / E ^ 2)
                             (flip (snd data)) energy ;;
       ret (energy, spectrum)
     else raise NotImplementedError) ;;
  let energy := fst es in
  let spectrum := snd es in
  if String.eqb spectrum_units "flux" then
    ret (mkSpectrum energy spectrum)
  else if String.eqb spectrum_units "power" then
    photon_flux <- broadcast (fun s E => s / (e * E)) spectrum energy ;;
    ret (mkSpectrum energy photon_flux)
  else raise NotImplementedError.

(** The defaults of the signature: [variable="energy"],
    [spectrum_units="flux"]. *)
Definition from_data_default (data : array * array) : result EMRadSpectrum :=
  from_data data "energy" "flux".

(** [get_solar_spectrum], on the rows of the data file. *)
Definition get_solar_spectrum (rows : list (R * R)) : result EMRadSpectrum :=
  let wavelength := map (fun r => fst r * 1e-9) rows in
  let irradiance := map (fun r => snd r * 1e9) rows in
  from_data (wavelength, irradiance) "wavelength" "power".

Close Scope string_scope.

(** ** The efficiency engine: [calculate_SQ] and [slme] *)

(** The minimum and the maximum of an array: [self.x[0]] and [self.x[-1]]
    once [interp1d] has sorted its abscissae. *)
Definition list_min (l : array) : R :=
  match l with
  | [] => 0
  | x :: l' => fold_left Rmin l' x
  end.

Definition list_max (l : array) : R :=
  match l with
  | [] => 0
  | x :: l' => fold_left Rmax l' x
  end.

(** Planck's law in wavelength form, as both functions write it, and its
    conversion to a photon flux. *)
Definition blackbody_irradiance_at (temperature wavelength_meters : R) : R :=
  (2.0 * h * c ^ 2 / (wavelength_meters ^ 5))
  * (1.0 / ((exp (h * c / (wavelength_meters * k * temperature))) - 1.0)).

Definition blackbody_photon_flux_at (temperature wavelength_meters : R) : R :=
  blackbody_irradiance_at temperature wavelength_meters
  * (wavelength_meters / (h * c)).

Section Engine.

(** The rows of [am1.5g.dat] below its two header lines: wavelength (nm)
    and irradiance. *)
Variable solar_spectrum_data : list (R * R).

(** [scipy.integrate.simps(y, x)]. *)
Variable simps : array -> array -> R.

(** The cubic spline that [interp1d(x, y, kind='cubic')] evaluates inside
    the range of [x]. *)
Variable cubic_spline : array -> array -> R -> R.

(** *** The part that both functions share *)

Definition solar_spectra_wavelength : array := map fst solar_spectrum_data.
Definition solar_spectra_irradiance : array := map snd solar_spectrum_data.

Definition solar_spectra_wavelength_meters : array :=
  map (fun w => w * 1e-9) solar_spectra_wavelength.

Definition solar_spectra_photon_flux : array :=
  map2 (fun irradiance wavelength_meters =>
          irradiance * (wavelength_meters / (h * c)))
       solar_spectra_irradiance solar_spectra_wavelength_meters.

Definition power_in : R :=
  simps solar_spectra_irradiance solar_spectra_wavelength.

Definition blackbody_photon_flux (temperature : R) : array :=
  map (blackbody_photon_flux_at temperature) solar_spectra_wavelength_meters.

(** *** [calculate_SQ] *)

Definition bandgap_wavelength (bandgap_ev : R) : R := h_e * c / bandgap_ev.

Definition bandgap_index (bandgap_ev : R) : nat :=
  searchsorted solar_spectra_wavelength_meters (bandgap_wavelength bandgap_ev).

Definition bandgap_irradiance (bandgap_ev : R) : result array :=
  interp [bandgap_wavelength bandgap_ev]
         solar_spectra_wavelength_meters solar_spectra_photon_flux.

Definition bandgap_blackbody (bandgap_ev temperature : R) : R :=
  (2.0 * h * c ^ 2 / (bandgap_wavelength bandgap_ev ^ 5))
  * (1.0 / ((exp (h * c / (bandgap_wavelength bandgap_ev * k * temperature))) - 1.0))
  * (bandgap_wavelength bandgap_ev / (h * c)).

Definition integration_wavelength (bandgap_ev : R) : array :=
  firstn (bandgap_index bandgap_ev) solar_spectra_wavelength_meters
  ++ [bandgap_wavelength bandgap_ev].

Definition integration_solar_flux (bandgap_ev : R) : result array :=
  boundary <- bandgap_irradiance bandgap_ev ;;
  ret (firstn (bandgap_index bandgap_ev) solar_spectra_photon_flux ++ boundary).

Definition integration_blackbody (bandgap_ev temperature : R) : array :=
  firstn (bandgap_index bandgap_ev) (blackbody_photon_flux temperature)
  ++ [bandgap_blackbody bandgap_ev temperature].

Definition SQ_J_0_r (bandgap_ev temperature : R) : R :=
  e * PI * simps (integration_blackbody bandgap_ev temperature)
                 (integration_wavelength bandgap_ev).

Definition SQ_J_0 (bandgap_ev temperature fr : R) : R :=
  SQ_J_0_r bandgap_ev temperature / fr.

Definition SQ_J_sc (bandgap_ev : R) : result R :=
  flux <- integration_solar_flux bandgap_ev ;;
  ret (e * simps (map (fun f => f * 1e9) flux) (integration_wavelength bandgap_ev)).

(** [calculate_SQ(bandgap_ev, temperature, fr)] with the sweep run on
    [fuel]: an exception, or the efficiency if the sweep has stopped. *)
Definition calculate_SQ (fuel : nat) (bandgap_ev temperature fr : R)
  : result (option R) :=
  J_sc <- SQ_J_sc bandgap_ev ;;
  ret (efficiency fuel J_sc (SQ_J_0 bandgap_ev temperature fr) temperature power_in).

(** The defaults of the signature: [temperature=300], [fr=1]. *)
Definition calculate_SQ_default (fuel : nat) (bandgap_ev : R) : result (option R) :=
  calculate_SQ fuel bandgap_ev 300 1.

(** *** [slme] *)

Definition slme_fr (material_direct_allowed_gap material_indirect_gap temperature : R) : R :=
  let delta := material_direct_allowed_gap - material_indirect_gap in
  exp (- delta / (k_e * temperature)).

Definition scaled_absorbance (material_absorbance_data : array)
           (absorbance_in_inverse_centimeters : bool) : array :=
  if absorbance_in_inverse_centimeters
  then map (fun a => a * 100) material_absorbance_data
  else material_absorbance_data.

Definition material_wavelength_for_absorbance_data
           (material_energy_for_absorbance_data : array) : array :=
  map (fun E => ((c * h_e) / (E + 0.00000001)) * 10 ^ 9)
      material_energy_for_absorbance_data.

(** [interp1d(x, y, kind='cubic', fill_value=(below, above),
    bounds_error=False)] at a new abscissa: [below] to the left of the
    smallest abscissa, [above] to the right of the largest one, the spline
    in between. *)
Definition interp1d (x y : array) (fill_value : R * R) (x_new : R) : R :=
  if Rlt_dec x_new (list_min x) then fst fill_value
  else if Rgt_dec x_new (list_max x) then snd fill_value
  else cubic_spline x y x_new.

(** [fill_value=(material_absorbance_data[0], material_absorbance_data[-1])]. *)
Definition material_absorbance_data_function
           (material_energy_for_absorbance_data material_absorbance_data : array)
           (x_new : R) : R :=
  interp1d (material_wavelength_for_absorbance_data material_energy_for_absorbance_data)
           material_absorbance_data
           (hd 0 material_absorbance_data, last material_absorbance_data 0)
           x_new.

(** The array starts as zeros; an entry is overwritten by the interpolated
    value when its wavelength is shorter than the wavelength of the direct
    allowed gap or when the cut-off is switched off. *)
Definition material_interpolated_absorbance
           (material_energy_for_absorbance_data material_absorbance_data : array)
           (material_direct_allowed_gap : R)
           (cut_off_absorbance_below_direct_allowed_gap : bool) : array :=
  map (fun wavelength_i =>
         if (if Rlt_dec wavelength_i (1e9 * ((c * h_e) / material_direct_allowed_gap))
             then true else false)
            || Bool.eqb cut_off_absorbance_below_direct_allowed_gap false
         then material_absorbance_data_function
                material_energy_for_absorbance_data material_absorbance_data
                wavelength_i
         else 0)
      solar_spectra_wavelength.

Definition absorbed_by_wavelength (interpolated : array) (thickness : R) : array :=
  map (fun a => 1.0 - exp (-2.0 * a * thickness)) interpolated.

Record query : Type := mkQuery {
  material_energy_for_absorbance_data : array;
  material_absorbance_data : array;
  material_direct_allowed_gap : R;
  material_indirect_gap : R;
  thickness : R;
  temperature : R;
  absorbance_in_inverse_centimeters : bool;
  cut_off_absorbance_below_direct_allowed_gap : bool
}.

Definition slme_absorbance (q : query) : array :=
  material_interpolated_absorbance
    (material_energy_for_absorbance_data q)
    (scaled_absorbance (material_absorbance_data q)
                       (absorbance_in_inverse_centimeters q))
    (material_direct_allowed_gap q)
    (cut_off_absorbance_below_direct_allowed_gap q).

Definition slme_J_0_r (q : query) : R :=
  e * PI * simps (map2 Rmult (blackbody_photon_flux (temperature q))
                             (absorbed_by_wavelength (slme_absorbance q) (thickness q)))
                 solar_spectra_wavelength_meters.

Definition slme_J_0 (q : query) : R :=
  slme_J_0_r q
  / slme_fr (material_direct_allowed_gap q) (material_indirect_gap q) (temperature q).

Definition slme_J_sc (q : query) : R :=
  e * simps (map2 Rmult solar_spectra_photon_flux
                        (absorbed_by_wavelength (slme_absorbance q) (thickness q)))
            solar_spectra_wavelength.

Definition with_indirect_gap (q : query) (gap : R) : query :=
  mkQuery (material_energy_for_absorbance_data q) (material_absorbance_data q)
          (material_direct_allowed_gap q) gap (thickness q) (temperature q)
          (absorbance_in_inverse_centimeters q)
          (cut_off_absorbance_below_direct_allowed_gap q).

(** [slme(...)] with the sweep run on [fuel]. *)
Definition slme (fuel : nat) (q : query) : option R :=
  efficiency fuel (slme_J_sc q) (slme_J_0 q) (temperature q) power_in.

End Engine.

(** ** Sample inputs for the examples below *)

(** The trapezoid rule, which stands in for [simps] in the examples. *)
Fixpoint trapezoid (y x : array) : R :=
  match y, x with
  | y0 :: ((y1 :: _) as y'), x0 :: ((x1 :: _) as x') =>
      (x1 - x0) * (y0 + y1) / 2 + trapezoid y' x'
  | _, _ => 0
  end.

(** A spline that is never consulted in the examples. *)
Definition no_spline : array -> array -> R -> R := fun _ _ _ => 0.

(** Two rows in the format of the data file. *)
Definition two_rows : list (R * R) := [(1000, 1); (4000, 1)].

(** A query whose absorbance is cut off at both wavelengths of [two_rows]
    (the direct gap of 2 eV sits at about 620 nm). *)
Definition dark_query : query :=
  mkQuery [1; 2; 3; 4] [10; 20; 30; 40] 2 1 50e-6 293.15 false true.

(** A query whose data (5 to 8 eV, about 155 to 248 nm) lies to the left of
    both wavelengths of [two_rows], with the cut-off switched off. *)
Definition ultraviolet_query : query :=
  mkQuery [5; 6; 7; 8] [10; 20; 30; 40] 9 9 50e-6 300 false false.

(** ** Vocabulary of the statements about the truncated spectra *)

(** A strictly increasing grid. *)
Fixpoint ascending (l : array) : Prop :=
  match l with
  | x :: ((y :: _) as l') => x < y /\ ascending l'
  | _ => True
  end.

(** [v] is the value at [x] of the chord through two neighbouring samples
    of [(xp, fp)] that enclose [x]. *)
Definition is_linear_interpolation (xp fp : array) (x v : R) : Prop :=
  exists pre post x0 f0 x1 f1,
    combine xp fp = pre ++ (x0, f0) :: (x1, f1) :: post /\
    x0 <= x <= x1 /\ x0 < x1 /\
    v = f0 + (f1 - f0) * ((x - x0) / (x1 - x0)).

(** [x] lies within the range of a grid with at least two points. *)
Definition within_range (grid_points : array) (x : R) : Prop :=
  exists first rest,
    grid_points = first :: rest /\ rest <> [] /\
    first <= x <= last rest first.

(** ** Vocabulary of the statements about the dielectric model *)

(** The two layouts that [parse_dielectric_data] recognises.  A component
    list has the six entries [xx, yy, zz, xy, yz, xz]. *)
Definition six_components (data : entry) : Prop :=
  exists xx yy zz xy yz xz, data = Row [xx; yy; zz; xy; yz; xz].

Definition vasprun_layout (d : pyobj) : Prop :=
  exists energies real imag,
    d = PyTuple [energies; real; imag] /\
    Forall six_components real /\ Forall six_components imag.

Definition outcar_layout (d : pyobj) : Prop :=
  exists energies tensors, d = PyTuple [energies; tensors].

(** The outer shape that the parser tests: a tuple of three or of two. *)
Definition recognised_shape (d : pyobj) : Prop :=
  exists items, d = PyTuple items /\ (length items = 3%nat \/ length items = 2%nat).

(** The diagonal of a matrix: its eigenvalues when the matrix is diagonal.
    It stands in for [eigvals] in the examples. *)
Definition diagonal (m : matrix complex) : list complex :=
  match m with
  | [[xx; _; _]; [_; yy; _]; [_; _; zz]] => [xx; yy; zz]
  | _ => []
  end.

(** One energy sample at 1 eV with the isotropic tensor [(1 + i) I]. *)
Definition sample_tensor : DielTensor :=
  mkDielTensor [1]
    [complex_matrix (to_matrix 1 1 1 0 0 0) (to_matrix 1 1 1 0 0 0)].

(** Dielectric data in the three-tuple layout and in a four-tuple. *)
Definition vasprun_sample : pyobj :=
  PyTuple [[Scalar 1]; [Row [1; 1; 1; 0; 0; 0]]; [Row [1; 1; 1; 0; 0; 0]]].

Definition four_tuple : pyobj :=
  PyTuple [[Scalar 1]; [Row [1; 1; 1; 0; 0; 0]]; [Row [1; 1; 1; 0; 0; 0]]; []].

(** ** The remaining code of the module *)

(** *** [get_dir_indir_gap]

    The function reads the eigenvalues of the spin-up channel from a
    [Vasprun] object and the electron count from the OUTCAR file; both
    readers are outside this repository, so their results are the arguments
    here.  The eigenvalue table has, for every k-point and band, the pair
    (eigenvalue, occupation).  The message printed on the way is left
    out. *)

Module BandGaps.

Inductive error : Type := IndexError.

Definition kpoint : Type := list (R * R).

(** One row of [eigvals = np.zeros((ispin, nkpts, nbands))] after the
    filling loop: the eigenvalues of the k-point, zeros in the bands it
    does not have, and an [IndexError] when it has more than [nbands]. *)
Definition fill_row (nbands : nat) (i : kpoint) : error + array :=
  if (length i <=? nbands)%nat
  then inr (map fst i ++ repeat 0 (nbands - length i)%nat)
  else inl IndexError.

Fixpoint fill_rows (nbands : nat) (eigenvalues : list kpoint)
  : error + list array :=
  match eigenvalues with
  | [] => inr []
  | i :: rest =>
      match fill_row nbands i with
      | inl x => inl x
      | inr row =>
          match fill_rows nbands rest with
          | inl x => inl x
          | inr rows => inr (row :: rows)
          end
      end
  end.

(** [eigvals[0, :, band]]. *)
Definition column (eigvals : list array) (band : nat) : array :=
  map (fun row => nth band row 0) eigvals.

(** [nbands] is the length of the second k-point; the conduction band has
    index [nelec // 2], the valence band [nelec // 2 - 1], which is the
    last band when [nelec // 2] is zero (a negative index counts from the
    end).  Returns [(noso_direct, noso_indir)]. *)
Definition get_dir_indir_gap (eigenvalues : list kpoint) (nelec ispin : nat)
  : error + (R * R) :=
  match eigenvalues with
  | _ :: second :: _ =>
      let nbands := length second in
      if (ispin =? 0)%nat then inl IndexError
      else
        match fill_rows nbands eigenvalues with
        | inl x => inl x
        | inr eigvals =>
            let conduction_band := (nelec / 2)%nat in
            if (nbands <=? conduction_band)%nat then inl IndexError
            else
              let valence_band :=
                if (conduction_band =? 0)%nat then (nbands - 1)%nat
                else (conduction_band - 1)%nat in
              let conduction := column eigvals conduction_band in
              let valence := column eigvals valence_band in
              let noso_indir := list_min conduction - list_max valence in
              let noso_direct := list_min (map2 Rminus conduction valence) in
              inr (noso_direct, noso_indir)
        end
  | _ => inl IndexError
  end.

End BandGaps.

(** *** The module-level [absorption_coefficient] ("old code, kept for
    comparison") *)

(** [physical_constants['Planck constant in eV s'][0]] and
    [eV_to_recip_cm].  Under this key scipy holds the value of CODATA
    2014. *)
Definition Planck_constant_in_eV_s : R := 4.135667662e-15.

Definition eV_to_recip_cm : R := 1.0 / (Planck_constant_in_eV_s * c * 1e2).

(** [numpy.mean] of a row of floats. *)
Definition mean_R (row : array) : R :=
  fold_right Rplus 0 row / INR (length row).

Section OldAbsorption.

(** The eigenvalues that [numpy.linalg.eig] returns for a real matrix. *)
Variable matrix_eigvals : matrix R -> array.

(** The module-level [parse_dielectric_data]: one row of eigenvalues per
    component list. *)
Definition eigenvalue_rows (data : list entry) : result (list array) :=
  traverse (fun e => m <- to_matrix_star e ;; ret (matrix_eigvals m)) data.

(** [np.mean(rows, axis=1)]; without rows the array has no second axis and
    numpy raises an [AxisError], which is a [ValueError]. *)
Definition mean_axis_1 (rows : list array) : result array :=
  match rows with
  | [] => raise ValueError
  | _ => ret (map mean_R rows)
  end.

(** [absorption_coefficient(dielectric)], on the three elements of
    [dielectric]: the energies and the real and imaginary component
    lists. *)
Definition old_absorption_coefficient
           (energies_in_eV : array) (real imag : list entry)
  : result (array * array) :=
  real_dielectric <- eigenvalue_rows real ;;
  imag_dielectric <- eigenvalue_rows imag ;;
  epsilon_1 <- mean_axis_1 real_dielectric ;;
  epsilon_2 <- mean_axis_1 imag_dielectric ;;
  root <- broadcast (fun e1 e2 => sqrt (- e1 + sqrt (e1 ^ 2 + e2 ^ 2)))
                    epsilon_1 epsilon_2 ;;
  alpha <- broadcast (fun E r => 2.0 * sqrt 2.0 * PI * eV_to_recip_cm * E * r)
                     energies_in_eV root ;;
  ret (energies_in_eV, alpha).

End OldAbsorption.

(** *** [EfficiencyCalculator.slme]

    The method stops twice in the debugger and prints the incident power;
    the embedding is the computation that a continued run performs. *)

Module EfficiencyCalculator.

Section Slme.

Variable solar_spectrum_data : list (R * R).
Variable simps : array -> array -> R.
Variable cubic_spline : array -> array -> R -> R.
Variable eigvals : matrix complex -> list complex.

Definition solar_spectrum_wavelength : array :=
  map (fun r => fst r * 1e-9) solar_spectrum_data.

Definition solar_spectrum_irradiance : array :=
  map (fun r => snd r * 1e9) solar_spectrum_data.

Definition solar_spectrum_energy : array :=
  flip (map (fun w => h_e * c / w) solar_spectrum_wavelength).

Definition solar_spectrum_photon_flux : array :=
  map2 (fun s E => s * h_e * c / E ^ 3 / e)
       (flip solar_spectrum_irradiance) solar_spectrum_energy.

Definition power_in : R :=
  simps (map2 (fun f E => f * E * e) solar_spectrum_photon_flux solar_spectrum_energy)
        solar_spectrum_energy.

Definition blackbody_photon_flux_at (temperature energy : R) : R :=
  2 * energy ^ 2 / h_e ^ 3 / c ^ 2 * (1 / (exp (energy / k_e / temperature) - 1)).

Definition blackbody_photon_flux (temperature : R) : array :=
  map (blackbody_photon_flux_at temperature) solar_spectrum_energy.

(** [interp1d(energies, absorption, kind='cubic',
    fill_value=(absorption[0], absorption[-1]), bounds_error=False)]. *)
Definition abs_coeff_function (energies absorption : array) (x_new : R) : R :=
  interp1d cubic_spline energies absorption
           (hd 0 absorption, last absorption 0) x_new.

Definition slme (fuel : nat) (dieltensor : DielTensor) (bandgaps : R * R)
           (temperature thickness : R) : result (option R) :=
  absorption <- absorption_coefficient eigvals dieltensor ;;
  let abs_coeff :=
    map (abs_coeff_function (energies dieltensor) absorption) solar_spectrum_energy in
  let absorptivity := map (fun a => 1.0 - exp (-2.0 * a * thickness)) abs_coeff in
  let J_0_r :=
    e * PI * simps (map2 Rmult (blackbody_photon_flux temperature) absorptivity)
                   solar_spectrum_energy in
  let delta := snd bandgaps - fst bandgaps in
  let fr := exp (- delta / (k_e * temperature)) in
  let J_0 := J_0_r / fr in
  let J_sc :=
    e * simps (map2 Rmult solar_spectrum_photon_flux absorptivity)
              solar_spectrum_energy in
  ret (efficiency fuel J_sc J_0 temperature power_in).

End Slme.

End EfficiencyCalculator.

(** ** Vocabulary of the statements about that code *)

(** The six components of a list [[xx, yy, zz, xy, yz, xz]]. *)
Record six : Type := mkSix { xx : R; yy : R; zz : R; xy : R; yz : R; xz : R }.

Definition row_of (s : six) : entry :=
  Row [xx s; yy s; zz s; xy s; yz s; xz s].

Definition real_matrix_of (s : six) : matrix R :=
  to_matrix (xx s) (yy s) (zz s) (xy s) (yz s) (xz s).

(** The tensor that the class builds from a real and an imaginary list. *)
Definition tensor_of (re im : six) : matrix complex :=
  complex_matrix (real_matrix_of re) (real_matrix_of im).

Definition trace_third (s : six) : R := (xx s + yy s + zz s) / 3.

(** The diagonal of a real matrix, standing in for its eigenvalues in the
    examples. *)
Definition diagonal_R (m : matrix R) : array :=
  match m with
  | [[a; _; _]; [_; b; _]; [_; _; d]] => [a; b; d]
  | _ => []
  end.

(** The transpose of a 3x3 matrix given by rows. *)
Definition transpose3 {A : Type} (m : matrix A) : matrix A :=
  match m with
  | [[a; b; d]; [a'; b'; d']; [a''; b''; d'']] =>
      [[a; a'; a'']; [b; b'; b'']; [d; d'; d'']]
  | _ => m
  end.

(** A grid that falls strictly. *)
Fixpoint descending (l : array) : Prop :=
  match l with
  | x :: ((y :: _) as l') => y < x /\ descending l'
  | _ => True
  end.

(** The voltage at which the diode current [J] vanishes. *)
Definition open_circuit_voltage (J_sc J_0 temperature : R) : R :=
  k * temperature / e * ln (1 + J_sc / J_0).

(** ** The sweep with the overflow of binary64

    The currents are [numpy.float64] values and [numpy.exp] overflows to
    [inf]: past the voltage at which [exp(e V / (k T))] leaves the range of
    a double the current is infinite or not a number and the comparison of
    the loop is false.  [float] keeps the infinities and [nan] of IEEE 754
    and treats every finite result as exact: an operation rounds to an
    infinity when its exact result lies beyond the largest double, and not
    otherwise.  Rounding to 53 bits, underflow and the sign of zero are not
    modelled. *)

Module Binary64.

(** The largest finite double, [(2 - 2^-52) * 2^1023]. *)
Definition MAX : R := 179769313486231570814527423731704356798070567525844996598917476803157260780028538760589558632766878171540458953514382464234321326889464182768467546703537516986049910576551282076245490090389328944075868508455133942304583236903222948165808559332123348274797826204144723168738177180919299881250404026184124858368.

Inductive float : Type :=
| Fin (x : R)
| PInf
| NInf
| NaN.

Definition is_finite (a : float) : bool :=
  match a with Fin _ => true | _ => false end.

(** The result of an operation whose exact value is [x]. *)
Definition overflow (x : R) : float :=
  if Rlt_dec MAX x then PInf
  else if Rlt_dec x (- MAX) then NInf
  else Fin x.

(** An infinity times or over the finite number [x]: the sign follows [x],
    and a zero gives [nan]. *)
Definition signed_inf (positive : bool) (x : R) : float :=
  if Rlt_dec 0 x then (if positive then PInf else NInf)
  else if Rlt_dec x 0 then (if positive then NInf else PInf)
  else NaN.

Definition fopp (a : float) : float :=
  match a with
  | Fin x => Fin (- x)
  | PInf => NInf
  | NInf => PInf
  | NaN => NaN
  end.

Definition fadd (a b : float) : float :=
  match a, b with
  | NaN, _ | _, NaN => NaN
  | PInf, NInf | NInf, PInf => NaN
  | PInf, _ | _, PInf => PInf
  | NInf, _ | _, NInf => NInf
  | Fin x, Fin y => overflow (x + y)
  end.

Definition fsub (a b : float) : float := fadd a (fopp b).

Definition fmul (a b : float) : float :=
  match a, b with
  | NaN, _ | _, NaN => NaN
  | Fin x, Fin y => overflow (x * y)
  | Fin x, PInf | PInf, Fin x => signed_inf true x
  | Fin x, NInf | NInf, Fin x => signed_inf false x
  | PInf, PInf | NInf, NInf => PInf
  | PInf, NInf | NInf, PInf => NInf
  end.

(** Division as numpy performs it; on two Python floats a zero divisor
    raises [ZeroDivisionError] instead, which a positive temperature rules
    out in [J]. *)
Definition fdiv (a b : float) : float :=
  match a, b with
  | NaN, _ | _, NaN => NaN
  | Fin x, Fin y =>
      if Req_dec_T y 0 then signed_inf true x else overflow (x / y)
  | Fin _, PInf | Fin _, NInf => Fin 0
  | PInf, Fin y => if Rlt_dec y 0 then NInf else PInf
  | NInf, Fin y => if Rlt_dec y 0 then PInf else NInf
  | _, _ => NaN
  end.

(** [numpy.exp]. *)
Definition fexp (a : float) : float :=
  match a with
  | NaN => NaN
  | PInf => PInf
  | NInf => Fin 0
  | Fin x => overflow (exp x)
  end.

(** [a > b]: false as soon as one side is [nan]. *)
Definition fgt (a b : float) : bool :=
  match a, b with
  | NaN, _ | _, NaN => false
  | _, PInf => false
  | PInf, _ => true
  | NInf, _ => false
  | Fin _, NInf => true
  | Fin x, Fin y => Rgtb x y
  end.

(** The exponential of the diode current at the voltage [V] leaves the
    range of a double. *)
Definition exp_overflows (temperature V : R) : Prop :=
  MAX < exp (e * V / (k * temperature)).

(** Every intermediate value of the exact [power(V)] stays in range. *)
Definition in_range (J_sc J_0 temperature V : R) : Prop :=
  0 <= V <= MAX /\
  exp (e * V / (k * temperature)) <= MAX /\
  Rabs (J_0 * (exp (e * V / (k * temperature)) - 1.0)) <= MAX /\
  Rabs (J J_sc J_0 temperature V) <= MAX /\
  Rabs (power J_sc J_0 temperature V) <= MAX.

(** [J(V)] and [power(V)] as the closures compute them. *)
Definition J (J_sc J_0 temperature V : float) : float :=
  fsub J_sc
       (fmul J_0
             (fsub (fexp (fdiv (fmul (Fin e) V) (fmul (Fin k) temperature)))
                   (Fin 1.0))).

Definition power (J_sc J_0 temperature V : float) : float :=
  fmul (J J_sc J_0 temperature V) V.

Definition test_voltage_after (fuel : nat) (J_sc J_0 temperature : float)
  : option float :=
  sweep fadd fgt (power J_sc J_0 temperature) (Fin voltage_step) fuel (Fin 0).

Definition max_power (fuel : nat) (J_sc J_0 temperature : float) : option float :=
  option_map (power J_sc J_0 temperature)
             (test_voltage_after fuel J_sc J_0 temperature).

(** The loop condition at the [m]-th test. *)
Definition test (J_sc J_0 temperature : float) (m : nat) : bool :=
  accepts fadd fgt (power J_sc J_0 temperature) (Fin voltage_step) (Fin 0) m.

End Binary64.

(** ** Quadrature rules and the Planck envelope *)





(** * Properties *)

(** ** Constants *)

Lemma c_pos : 0 < c.
Proof. unfold c; lra. Qed.

Lemma h_pos : 0 < h.
Proof. unfold h; lra. Qed.

Lemma e_pos : 0 < e.
Proof. unfold e; lra. Qed.

Lemma k_pos : 0 < k.
Proof. unfold k; lra. Qed.

Lemma hbar_pos : 0 < hbar.
Proof.
  unfold hbar. apply Rdiv_lt_0_compat; [apply h_pos|].
  generalize PI_RGT_0; lra.
Qed.

Lemma h_e_pos : 0 < h_e.
Proof. unfold h_e. apply Rdiv_lt_0_compat; [apply h_pos | apply e_pos]. Qed.

Lemma k_e_pos : 0 < k_e.
Proof. unfold k_e. apply Rdiv_lt_0_compat; [apply k_pos | apply e_pos]. Qed.

Lemma hc_pos : 0 < h * c.
Proof. apply Rmult_lt_0_compat; [apply h_pos | apply c_pos]. Qed.

Lemma h_e_c_pos : 0 < h_e * c.
Proof. apply Rmult_lt_0_compat; [apply h_e_pos | apply c_pos]. Qed.

Create HintDb consts.

#[local] Hint Resolve c_pos h_pos e_pos k_pos hbar_pos h_e_pos k_e_pos
  hc_pos h_e_c_pos : consts.

(** ** The sweep on any carrier *)

Module SweepQFacts.
Import QArith SweepQ.
Local Open Scope Q_scope.

Example sweep_parabola :
  option_map Qred (sweep Qplus gtb parabola (1 # 1000) 10 0) = Some (3 # 1000).
Proof. vm_compute. reflexivity. Qed.

Example sweep_parabola_out_of_fuel :
  sweep Qplus gtb parabola (1 # 1000) 3 0 = None.
Proof. vm_compute. reflexivity. Qed.

End SweepQFacts.

Section SweepFacts.

Context {V : Type}.
Variable add : V -> V -> V.
Variable gt : V -> V -> bool.
Variable power : V -> V.
Variable step : V.

Let volt := nth_voltage add step.
Let run := sweep add gt power step.

Let acc := accepts add gt power step.

Lemma nth_voltage_succ n v : volt (S n) v = add (volt n v) step.
Proof.
  unfold volt. revert v. induction n as [|n IH]; intros v; simpl.
  - reflexivity.
  - rewrite <- IH. reflexivity.
Qed.

Lemma acc_shift v m : acc (add v step) m = acc v (S m).
Proof. unfold acc, accepts, volt. reflexivity. Qed.

(** The loop returns exactly the first voltage whose step is refused. *)
Lemma sweep_Some fuel v r :
  run fuel v = Some r <->
  exists n, (n < fuel)%nat /\ r = volt n v /\
            (forall m, (m < n)%nat -> acc v m = true) /\
            acc v n = false.
Proof.
  unfold run. revert v. induction fuel as [|fuel IH]; intros v; simpl.
  - split; [discriminate | intros (n & Hn & _); lia].
  - destruct (gt (power (add v step)) (power v)) eqn:Hg.
    + rewrite IH. split.
      * intros (n & Hn & Hr & Hacc & Hstop). exists (S n).
        split; [lia|]. split; [exact Hr|]. split.
        -- intros [|m] Hm; [exact Hg|]. rewrite <- acc_shift. apply Hacc; lia.
        -- rewrite <- acc_shift. exact Hstop.
      * intros (n & Hn & Hr & Hacc & Hstop). destruct n as [|n].
        -- unfold acc, accepts in Hstop. simpl in Hstop. congruence.
        -- exists n. split; [lia|]. split; [exact Hr|]. split.
           ++ intros m Hm. rewrite acc_shift. apply Hacc; lia.
           ++ rewrite acc_shift. exact Hstop.
    + split.
      * intros H; injection H as <-. exists O.
        split; [lia|]. split; [reflexivity|]. split; [intros m Hm; lia | exact Hg].
      * intros (n & Hn & Hr & Hacc & Hstop). destruct n as [|n].
        -- simpl in Hr. congruence.
        -- specialize (Hacc O ltac:(lia)). unfold acc, accepts in Hacc. simpl in Hacc.
           congruence.
Qed.

(** It is still running after [fuel] tests exactly when all of them
    succeeded. *)
Lemma sweep_None fuel v :
  run fuel v = None <-> forall m, (m < fuel)%nat -> acc v m = true.
Proof.
  unfold run. revert v. induction fuel as [|fuel IH]; intros v; simpl.
  - split; [intros _ m Hm; lia | reflexivity].
  - destruct (gt (power (add v step)) (power v)) eqn:Hg.
    + rewrite IH. split.
      * intros H [|m] Hm; [exact Hg|]. rewrite <- acc_shift. apply H; lia.
      * intros H m Hm. rewrite acc_shift. apply H; lia.
    + split; [discriminate|]. intros H.
      specialize (H O ltac:(lia)). unfold acc, accepts in H. simpl in H. congruence.
Qed.

Lemma sweep_more_fuel fuel fuel' v r :
  (fuel <= fuel')%nat -> run fuel v = Some r -> run fuel' v = Some r.
Proof.
  intros Hle. rewrite !sweep_Some.
  intros (n & Hn & H). exists n. split; [lia | exact H].
Qed.

End SweepFacts.

(** ** The sweep on the diode power curve *)

Lemma Rgtb_true x y : Rgtb x y = true <-> x > y.
Proof. unfold Rgtb. destruct (Rgt_dec x y); split; intros; try easy. Qed.

Lemma Rgtb_false x y : Rgtb x y = false <-> x <= y.
Proof.
  unfold Rgtb. destruct (Rgt_dec x y); split; intros; try easy; lra.
Qed.

Lemma nth_voltage_R n v :
  nth_voltage Rplus voltage_step n v = v + INR n * voltage_step.
Proof.
  revert v. induction n as [|n IH]; intros v.
  - simpl. lra.
  - change (nth_voltage Rplus voltage_step (S n) v)
      with (nth_voltage Rplus voltage_step n (v + voltage_step)).
    rewrite IH, S_INR. lra.
Qed.

Lemma voltage_step_pos : 0 < voltage_step.
Proof. unfold voltage_step; lra. Qed.

Lemma grid_succ n : grid (S n) = grid n + voltage_step.
Proof. unfold grid. rewrite S_INR. lra. Qed.

Lemma grid_nonneg n : 0 <= grid n.
Proof.
  unfold grid. apply Rmult_le_pos; [apply pos_INR | generalize voltage_step_pos; lra].
Qed.

Section RealSweep.

Variable P : R -> R.

Lemma accepts_R m :
  accepts Rplus Rgtb P voltage_step 0 m = true <-> P (grid (S m)) > P (grid m).
Proof.
  unfold accepts. rewrite nth_voltage_R, Rgtb_true.
  replace (0 + INR m * voltage_step + voltage_step) with (grid (S m))
    by (rewrite grid_succ; unfold grid; lra).
  replace (0 + INR m * voltage_step) with (grid m) by (unfold grid; lra).
  reflexivity.
Qed.

Lemma refuses_R m :
  accepts Rplus Rgtb P voltage_step 0 m = false <-> P (grid (S m)) <= P (grid m).
Proof.
  unfold accepts. rewrite nth_voltage_R, Rgtb_false.
  replace (0 + INR m * voltage_step + voltage_step) with (grid (S m))
    by (rewrite grid_succ; unfold grid; lra).
  replace (0 + INR m * voltage_step) with (grid m) by (unfold grid; lra).
  reflexivity.
Qed.

Lemma sweep_R_Some fuel r :
  sweep Rplus Rgtb P voltage_step fuel 0 = Some r <->
  exists n, (n < fuel)%nat /\ r = grid n /\ first_stop P n.
Proof.
  rewrite sweep_Some. unfold first_stop.
  split; intros (n & Hn & Hr & Hacc & Hstop); exists n.
  - split; [exact Hn|]. split.
    + rewrite Hr, nth_voltage_R. unfold grid. lra.
    + split; [intros m Hm; apply accepts_R, Hacc, Hm | apply refuses_R, Hstop].
  - split; [exact Hn|]. split.
    + rewrite Hr, nth_voltage_R. unfold grid. lra.
    + split; [intros m Hm; apply accepts_R, Hacc, Hm | apply refuses_R, Hstop].
Qed.

Lemma sweep_R_None fuel :
  sweep Rplus Rgtb P voltage_step fuel 0 = None <->
  forall m, (m < fuel)%nat -> P (grid (S m)) > P (grid m).
Proof.
  rewrite sweep_None. split; intros H m Hm.
  - apply accepts_R, H, Hm.
  - apply accepts_R, H, Hm.
Qed.

(** Along the accepted steps the power only grows. *)
Lemma climb_increases n :
  (forall m, (m < n)%nat -> P (grid (S m)) > P (grid m)) ->
  forall m, (m <= n)%nat -> P (grid m) <= P (grid n).
Proof.
  induction n as [|n IH]; intros Hacc m Hm.
  - replace m with O by lia. lra.
  - destruct (Nat.eq_dec m (S n)) as [->|Hne]; [lra|].
    assert (P (grid m) <= P (grid n)) by (apply IH; [intros; apply Hacc|]; lia).
    specialize (Hacc n ltac:(lia)). lra.
Qed.

Lemma climbs_or_stops N :
  (forall m, (m < N)%nat -> P (grid (S m)) > P (grid m)) \/
  (exists n, (n < N)%nat /\ first_stop P n).
Proof.
  induction N as [|N [IH|(n & Hn & Hf)]].
  - left. intros m Hm. lia.
  - destruct (Rle_dec (P (grid (S N))) (P (grid N))) as [Hle|Hgt].
    + right. exists N. split; [lia|]. split; assumption.
    + left. intros m Hm. destruct (Nat.eq_dec m N) as [->|Hne].
      * apply Rnot_le_gt, Hgt.
      * apply IH. lia.
  - right. exists n. split; [lia | exact Hf].
Qed.

(** As soon as some grid voltage refuses its step, the least such voltage
    is where the loop stops. *)
Lemma first_stop_exists N :
  P (grid (S N)) <= P (grid N) -> exists n, (n <= N)%nat /\ first_stop P n.
Proof.
  intros Hstop. destruct (climbs_or_stops N) as [Hall|(n & Hn & Hf)].
  - exists N. split; [lia|]. split; assumption.
  - exists n. split; [lia | exact Hf].
Qed.

End RealSweep.

(** ** Analysis of the diode power curve *)

Lemma lit_1 : 1.0 = 1.
Proof. lra. Qed.

Lemma lit_2 : 2.0 = 2.
Proof. lra. Qed.

Lemma rate_pos T : 0 < T -> 0 < rate T.
Proof.
  intros HT. unfold rate. apply Rdiv_lt_0_compat; [apply e_pos|].
  apply Rmult_lt_0_compat; [apply k_pos | exact HT].
Qed.

Lemma power_rate J_sc J_0 T V :
  power J_sc J_0 T V = (J_sc + J_0 - J_0 * exp (rate T * V)) * V.
Proof.
  unfold power, J, rate. rewrite lit_1.
  replace (e * V / (k * T)) with (e / (k * T) * V) by (unfold Rdiv; ring).
  ring.
Qed.

Lemma power_0 J_sc J_0 T : power J_sc J_0 T 0 = 0.
Proof. unfold power. ring. Qed.

Lemma power_deriv J_sc J_0 T V :
  derivable_pt_lim (power J_sc J_0 T) V (dpower J_sc J_0 T V).
Proof.
  set (u := rate T).
  assert (Hexp : derivable_pt_lim (comp exp (mult_real_fct u id)) V
                                  (exp (u * V) * (u * 1))).
  { apply derivable_pt_lim_comp.
    - apply derivable_pt_lim_scal, derivable_pt_lim_id.
    - apply derivable_pt_lim_exp. }
  assert (HJ : derivable_pt_lim
                 (fct_cte (J_sc + J_0) - mult_real_fct J_0 (comp exp (mult_real_fct u id)))%F
                 V (0 - J_0 * (exp (u * V) * (u * 1)))).
  { apply derivable_pt_lim_minus.
    - apply derivable_pt_lim_const.
    - apply derivable_pt_lim_scal, Hexp. }
  pose proof (derivable_pt_lim_mult _ _ _ _ _ HJ (derivable_pt_lim_id V)) as HP.
  apply derivable_pt_lim_ext
    with (g := power J_sc J_0 T) in HP.
  - replace (dpower J_sc J_0 T V)
      with ((0 - J_0 * (exp (u * V) * (u * 1))) * id V
            + (fct_cte (J_sc + J_0) - mult_real_fct J_0 (comp exp (mult_real_fct u id)))%F V * 1).
    + exact HP.
    + unfold dpower, minus_fct, fct_cte, mult_real_fct, comp, id. fold u. ring.
  - intros z. rewrite power_rate.
    unfold mult_fct, minus_fct, fct_cte, mult_real_fct, comp, id. fold u. ring.
Qed.

Lemma power_derivable J_sc J_0 T : derivable (power J_sc J_0 T).
Proof.
  intros V. exists (dpower J_sc J_0 T V). apply power_deriv.
Qed.

Lemma power_derive_pt J_sc J_0 T V pr :
  derive_pt (power J_sc J_0 T) V pr = dpower J_sc J_0 T V.
Proof. apply derive_pt_eq_0, power_deriv. Qed.

(** The same for the opposite curve, to read off where the power falls. *)
Lemma neg_power_derivable J_sc J_0 T : derivable (- power J_sc J_0 T)%F.
Proof. apply derivable_opp, power_derivable. Qed.

Lemma neg_power_derive_pt J_sc J_0 T V pr :
  derive_pt (- power J_sc J_0 T)%F V pr = - dpower J_sc J_0 T V.
Proof. apply derive_pt_eq_0, derivable_pt_lim_opp, power_deriv. Qed.

(** The slope falls strictly with the voltage. *)
Lemma dpower_decreasing J_sc J_0 T x y :
  0 < J_0 -> 0 < T -> 0 <= x -> x < y ->
  dpower J_sc J_0 T y < dpower J_sc J_0 T x.
Proof.
  intros HJ0 HT Hx Hxy. pose proof (rate_pos T HT) as Hu.
  unfold dpower. set (u := rate T) in *.
  assert (Hexp : exp (u * x) < exp (u * y)) by (apply exp_increasing; nra).
  assert (Hpos : 0 < exp (u * x)) by apply exp_pos.
  assert (Hmul : u * x * exp (u * x) <= u * y * exp (u * y)).
  { apply Rmult_le_compat; nra. }
  nra.
Qed.

Lemma dpower_0 J_sc J_0 T : dpower J_sc J_0 T 0 = J_sc.
Proof. unfold dpower. rewrite Rmult_0_r, exp_0. ring. Qed.

Lemma dpower_continuous J_sc J_0 T : continuity (dpower J_sc J_0 T).
Proof.
  unfold dpower. reg.
Qed.

(** For positive currents and a positive temperature the slope has a zero
    at a positive voltage, and the curve is unimodal around it. *)
Lemma dpower_root J_sc J_0 T :
  0 < J_sc -> 0 < J_0 -> 0 < T ->
  exists Vm, 0 < Vm /\ dpower J_sc J_0 T Vm = 0.
Proof.
  intros HJsc HJ0 HT. pose proof (rate_pos T HT) as Hu.
  set (V1 := J_sc / J_0 / rate T).
  assert (HV1 : 0 < V1).
  { unfold V1. apply Rdiv_lt_0_compat; [apply Rdiv_lt_0_compat|]; assumption. }
  assert (Hneg : dpower J_sc J_0 T V1 < 0).
  { unfold dpower. replace (rate T * V1) with (J_sc / J_0)
      by (unfold V1; field; split; lra).
    assert (Hx : 0 < J_sc / J_0) by (apply Rdiv_lt_0_compat; assumption).
    pose proof (exp_ineq1_le (J_sc / J_0)) as Hexp.
    replace (J_0 * rate T * V1) with J_sc by (unfold V1; field; split; lra).
    assert (HJ : J_0 * (J_sc / J_0) = J_sc) by (field; lra).
    nra. }
  destruct (IVT (fun V => - dpower J_sc J_0 T V) 0 V1) as (z & Hz & Hroot).
  - apply (continuity_opp (dpower J_sc J_0 T)), dpower_continuous.
  - exact HV1.
  - rewrite dpower_0. lra.
  - lra.
  - exists z. split; [|lra].
    destruct (Req_dec z 0) as [->|Hne]; [|lra].
    rewrite dpower_0 in Hroot. lra.
Qed.

Lemma power_rises J_sc J_0 T Vm x y :
  0 < J_0 -> 0 < T -> 0 <= dpower J_sc J_0 T Vm ->
  0 <= x -> x < y -> y <= Vm ->
  power J_sc J_0 T x < power J_sc J_0 T y.
Proof.
  intros HJ0 HT HVm Hx Hxy Hy.
  apply (derive_increasing_interv 0 Vm (power J_sc J_0 T) (power_derivable J_sc J_0 T));
    try lra.
  intros t Ht. rewrite power_derive_pt.
  pose proof (dpower_decreasing J_sc J_0 T t Vm HJ0 HT). lra.
Qed.

Lemma power_falls J_sc J_0 T Vm x y :
  0 < J_0 -> 0 < T -> 0 <= Vm -> dpower J_sc J_0 T Vm <= 0 ->
  Vm <= x -> x < y ->
  power J_sc J_0 T y < power J_sc J_0 T x.
Proof.
  intros HJ0 HT HVm0 HVm Hx Hxy.
  pose proof (derive_increasing_interv Vm y (- power J_sc J_0 T)%F
                (neg_power_derivable J_sc J_0 T)) as H.
  unfold opp_fct in H at 2 3.
  enough (- power J_sc J_0 T x < - power J_sc J_0 T y) by lra.
  apply H; try lra.
  intros t Ht. rewrite neg_power_derive_pt.
  pose proof (dpower_decreasing J_sc J_0 T Vm t HJ0 HT). lra.
Qed.

Lemma diode_unimodal J_sc J_0 T :
  0 < J_sc -> 0 < J_0 -> 0 < T ->
  exists Vm, 0 < Vm /\ dpower J_sc J_0 T Vm = 0 /\ unimodal (power J_sc J_0 T) Vm.
Proof.
  intros HJsc HJ0 HT.
  destruct (dpower_root J_sc J_0 T HJsc HJ0 HT) as (Vm & HVm & Hroot).
  exists Vm. split; [exact HVm|]. split; [exact Hroot|].
  split; [lra|]. split.
  - intros x y Hx Hxy Hy. apply (power_rises J_sc J_0 T Vm); auto; lra.
  - intros x y Hx Hxy. apply (power_falls J_sc J_0 T Vm); auto; lra.
Qed.

(** A curve has at most one top. *)
Lemma unimodal_unique P Vm Vm' : unimodal P Vm -> unimodal P Vm' -> Vm = Vm'.
Proof.
  assert (Hlt : forall a b, unimodal P a -> unimodal P b -> ~ a < b).
  { intros a b (Ha0 & _ & Hdown) (_ & Hup & _) Hab.
    assert (P a < P b) by (apply Hup; lra).
    assert (P b < P a) by (apply Hdown; lra).
    lra. }
  intros H H'. pose proof (Hlt _ _ H H'). pose proof (Hlt _ _ H' H). lra.
Qed.

(** ** The sweep on a unimodal curve *)

Section Unimodal.

Variable P : R -> R.
Variable Vm : R.
Hypothesis HP : unimodal P Vm.

Lemma grid_lt n : grid n < grid (S n).
Proof. rewrite grid_succ. generalize voltage_step_pos. lra. Qed.

Lemma unimodal_stop_exists : exists n, first_stop P n.
Proof.
  destruct HP as (H0 & Hup & Hdown).
  destruct (INR_archimed voltage_step Vm voltage_step_pos) as (N & HN).
  destruct (first_stop_exists P N) as (n & _ & Hn).
  - left. apply Hdown; [fold (grid N); unfold grid in *; lra | apply grid_lt].
  - exists n. exact Hn.
Qed.

Lemma unimodal_stop_near n :
  first_stop P n -> Rabs (grid n - Vm) < voltage_step.
Proof.
  destruct HP as (H0 & Hup & Hdown). intros (Hacc & Hstop).
  pose proof voltage_step_pos as Hs.
  apply Rabs_def1.
  - destruct n as [|n].
    + unfold grid. simpl. lra.
    + destruct (Rlt_dec (grid n) Vm) as [Hlt|Hge].
      * rewrite grid_succ. lra.
      * exfalso. specialize (Hacc n ltac:(lia)).
        assert (P (grid (S n)) < P (grid n))
          by (apply Hdown; [lra | apply grid_lt]).
        lra.
  - destruct (Rle_dec (grid (S n)) Vm) as [Hle|Hgt].
    + exfalso.
      assert (P (grid n) < P (grid (S n)))
        by (apply Hup; [apply grid_nonneg | apply grid_lt | exact Hle]).
      lra.
    + rewrite grid_succ in Hgt. lra.
Qed.

Lemma first_stop_unique n n' : first_stop P n -> first_stop P n' -> n = n'.
Proof.
  intros (Hacc & Hstop) (Hacc' & Hstop').
  destruct (Nat.lt_trichotomy n n') as [Hlt|[Heq|Hgt]]; [|exact Heq|].
  - specialize (Hacc' n Hlt). lra.
  - specialize (Hacc n' Hgt). lra.
Qed.

End Unimodal.

(** ** What the sweep returns *)

Lemma max_power_Some fuel J_sc J_0 T p :
  max_power fuel J_sc J_0 T = Some p <->
  exists n, (n < fuel)%nat /\ p = power J_sc J_0 T (grid n) /\
            first_stop (power J_sc J_0 T) n.
Proof.
  unfold max_power, test_voltage_after.
  destruct (sweep Rplus Rgtb (power J_sc J_0 T) voltage_step fuel 0) as [v|] eqn:Hs;
    simpl.
  - apply sweep_R_Some in Hs. destruct Hs as (n & Hn & Hv & Hf). split.
    + intros H; injection H as <-. exists n. subst v. auto.
    + intros (n' & Hn' & Hp & Hf').
      rewrite (first_stop_unique _ _ _ Hf Hf') in Hv. subst. reflexivity.
  - split; [discriminate|]. intros (n & Hn & Hp & Hf).
    assert (Hsome : sweep Rplus Rgtb (power J_sc J_0 T) voltage_step fuel 0
                    = Some (grid n))
      by (apply sweep_R_Some; exists n; auto).
    congruence.
Qed.

Lemma max_power_None fuel J_sc J_0 T :
  max_power fuel J_sc J_0 T = None <->
  forall m, (m < fuel)%nat ->
            power J_sc J_0 T (grid (S m)) > power J_sc J_0 T (grid m).
Proof.
  unfold max_power, test_voltage_after. rewrite <- sweep_R_None.
  destruct (sweep Rplus Rgtb (power J_sc J_0 T) voltage_step fuel 0); simpl;
    split; congruence.
Qed.

Lemma efficiency_Some fuel J_sc J_0 T power_in eff :
  efficiency fuel J_sc J_0 T power_in = Some eff <->
  exists p, max_power fuel J_sc J_0 T = Some p /\ eff = p / power_in.
Proof.
  unfold efficiency. destruct (max_power fuel J_sc J_0 T) as [p|]; simpl; split.
  - intros H; injection H as <-. exists p. auto.
  - intros (p' & Hp & ->). congruence.
  - discriminate.
  - intros (p' & Hp & _). discriminate.
Qed.

(** The returned power is never below the power at a voltage that the
    sweep has passed; in particular it is never negative. *)
Lemma first_stop_dominates P n m :
  first_stop P n -> (m <= n)%nat -> P (grid m) <= P (grid n).
Proof. intros (Hacc & _) Hm. apply climb_increases; assumption. Qed.

Lemma max_power_nonneg fuel J_sc J_0 T p :
  max_power fuel J_sc J_0 T = Some p -> 0 <= p.
Proof.
  rewrite max_power_Some. intros (n & _ & -> & Hf).
  pose proof (first_stop_dominates _ n O Hf ltac:(lia)) as H.
  unfold grid in H at 1. simpl in H. rewrite Rmult_0_l, power_0 in H. exact H.
Qed.

Lemma max_power_returns J_sc J_0 T :
  0 < J_sc -> 0 < J_0 -> 0 < T ->
  exists fuel p, max_power fuel J_sc J_0 T = Some p.
Proof.
  intros HJsc HJ0 HT.
  destruct (diode_unimodal J_sc J_0 T HJsc HJ0 HT) as (Vm & _ & _ & HU).
  destruct (unimodal_stop_exists _ Vm HU) as (n & Hn).
  exists (S n), (power J_sc J_0 T (grid n)).
  apply max_power_Some. exists n. auto.
Qed.

(** While the slope is still non-negative at the grid voltage [N], the
    sweep climbs past it. *)
Lemma max_power_lower_bound J_sc J_0 T N :
  0 < J_sc -> 0 < J_0 -> 0 < T ->
  0 <= dpower J_sc J_0 T (grid N) ->
  exists fuel p, max_power fuel J_sc J_0 T = Some p /\
                 power J_sc J_0 T (grid N) <= p.
Proof.
  intros HJsc HJ0 HT Hslope.
  destruct (diode_unimodal J_sc J_0 T HJsc HJ0 HT) as (Vm & _ & _ & HU).
  destruct (unimodal_stop_exists _ Vm HU) as (n & Hn).
  exists (S n), (power J_sc J_0 T (grid n)). split.
  - apply max_power_Some. exists n. auto.
  - destruct (le_lt_dec N n) as [Hle|Hlt].
    + apply first_stop_dominates; assumption.
    + exfalso. destruct Hn as (_ & Hstop).
      assert (power J_sc J_0 T (grid n) < power J_sc J_0 T (grid (S n))).
      { apply (power_rises J_sc J_0 T (grid N)); auto.
        - apply grid_nonneg.
        - apply grid_lt.
        - unfold grid. apply Rmult_le_compat_r;
            [generalize voltage_step_pos; lra | apply le_INR; lia]. }
      lra.
Qed.

(** With a saturation current that is not positive the power grows with
    every step. *)
Lemma power_grows J_sc J_0 T x y :
  0 < J_sc -> J_0 <= 0 -> 0 < T -> 0 <= x -> x < y ->
  power J_sc J_0 T x < power J_sc J_0 T y.
Proof.
  intros HJsc HJ0 HT Hx Hxy. pose proof (rate_pos T HT) as Hu.
  rewrite !power_rate. set (u := rate T) in *.
  assert (Hexp : exp (u * x) <= exp (u * y)).
  { destruct (Req_dec x y) as [->|Hne]; [lra|]. left. apply exp_increasing. nra. }
  assert (H1 : 1 <= exp (u * x)).
  { rewrite <- exp_0. destruct (Req_dec (u * x) 0) as [->|Hne]; [lra|].
    left. apply exp_increasing. nra. }
  assert (H2 : (exp (u * x) - 1) * x <= (exp (u * y) - 1) * y)
    by (apply Rmult_le_compat; lra).
  assert (H3 : 0 <= - J_0 * ((exp (u * y) - 1) * y - (exp (u * x) - 1) * x))
    by (apply Rmult_le_pos; lra).
  nra.
Qed.

Lemma max_power_diverges J_sc J_0 T fuel :
  0 < J_sc -> J_0 <= 0 -> 0 < T -> max_power fuel J_sc J_0 T = None.
Proof.
  intros HJsc HJ0 HT. apply max_power_None. intros m _.
  apply power_grows; auto; [apply grid_nonneg | apply grid_lt].
Qed.

(** ** Power maximization *)

(** C1.  For positive [J_sc] and [J_0] that make the power curve unimodal
    with its top at [Vm], the sweep returns the power at the first grid
    voltage [n * 0.001] whose step does not increase the power (after
    exactly [n + 1] tests of the loop condition), and that voltage is less
    than one step away from [Vm], the voltage of maximal power -- at a
    positive temperature, the zero of the derivative of the power. *)
Theorem sweep_reaches_maximum_power (J_sc J_0 T Vm : R) :
  0 < J_sc -> 0 < J_0 -> unimodal (power J_sc J_0 T) Vm ->
  (forall V, 0 <= V -> power J_sc J_0 T V <= power J_sc J_0 T Vm) /\
  (0 < T -> dpower J_sc J_0 T Vm = 0) /\
  exists n,
    first_stop (power J_sc J_0 T) n /\
    (forall fuel, (n < fuel)%nat ->
       test_voltage_after fuel J_sc J_0 T = Some (grid n) /\
       max_power fuel J_sc J_0 T = Some (power J_sc J_0 T (grid n))) /\
    (forall fuel, (fuel <= n)%nat -> max_power fuel J_sc J_0 T = None) /\
    Rabs (grid n - Vm) < voltage_step.
Proof.
  intros HJsc HJ0 HU. split; [|split].
  - destruct HU as (H0 & Hup & Hdown). intros V HV.
    destruct (Rtotal_order V Vm) as [Hlt|[->|Hgt]].
    + left. apply Hup; lra.
    + lra.
    + left. apply Hdown; lra.
  - intros HT.
    destruct (diode_unimodal J_sc J_0 T HJsc HJ0 HT) as (Vm' & _ & Hroot & HU').
    rewrite (unimodal_unique _ _ _ HU HU'). exact Hroot.
  - destruct (unimodal_stop_exists _ Vm HU) as (n & Hn).
    exists n. split; [exact Hn|]. split; [|split].
    + intros fuel Hfuel. split.
      * apply sweep_R_Some. exists n. auto.
      * apply max_power_Some. exists n. auto.
    + intros fuel Hfuel. apply max_power_None. intros m Hm.
      destruct Hn as (Hacc & _). apply Hacc. lia.
    + apply (unimodal_stop_near _ Vm HU), Hn.
Qed.

(** C1 at [J_sc = J_0 = 1] and 300 K, where the curve is unimodal. *)
Lemma sweep_reaches_maximum_power_witness :
  exists Vm,
    unimodal (power 1 1 300) Vm /\
    (forall V, 0 <= V -> power 1 1 300 V <= power 1 1 300 Vm) /\
    (0 < 300 -> dpower 1 1 300 Vm = 0) /\
    exists n,
      first_stop (power 1 1 300) n /\
      (forall fuel, (n < fuel)%nat ->
         test_voltage_after fuel 1 1 300 = Some (grid n) /\
         max_power fuel 1 1 300 = Some (power 1 1 300 (grid n))) /\
      (forall fuel, (fuel <= n)%nat -> max_power fuel 1 1 300 = None) /\
      Rabs (grid n - Vm) < voltage_step.
Proof.
  destruct (diode_unimodal 1 1 300) as (Vm & _ & _ & HU); try lra.
  exists Vm. split; [exact HU|].
  apply (sweep_reaches_maximum_power 1 1 300 Vm); [lra | lra | exact HU].
Defined.


(** ** The efficiency ratio *)

Lemma slme_fr_rate direct indirect T :
  T <> 0 -> slme_fr direct indirect T = exp (rate T * (indirect - direct)).
Proof.
  intros HT. unfold slme_fr, rate, k_e. f_equal.
  field. repeat split; try exact HT;
    apply Rgt_not_eq; unfold Rgt; auto with consts.
Qed.

Lemma slme_fr_pos direct indirect T : 0 < slme_fr direct indirect T.
Proof. unfold slme_fr. apply exp_pos. Qed.

(** The sweep climbs past the grid voltage [N] and the ratio exceeds one
    once the saturation current is small enough there. *)
Lemma efficiency_above_one_if J_sc J_0 T power_in N j :
  0 < J_0 -> 0 < T -> 0 < power_in -> 0 < j -> j < J_sc ->
  J_0 * exp (rate T * grid N) * (1 + rate T * grid N) <= J_sc - j ->
  power_in < j * grid N ->
  exists fuel eff,
    efficiency fuel J_sc J_0 T power_in = Some eff /\ 1 < eff.
Proof.
  intros HJ0 HT Hin Hj HjJ Hsmall Hbig.
  pose proof (rate_pos T HT) as Hu. pose proof (grid_nonneg N) as HN.
  set (u := rate T) in *. set (Vt := grid N) in *.
  assert (HE : 0 < exp (u * Vt)) by apply exp_pos.
  assert (HuV : 0 <= u * Vt) by (apply Rmult_le_pos; lra).
  assert (Hprod : J_0 * exp (u * Vt) <= J_0 * exp (u * Vt) * (1 + u * Vt)).
  { assert (0 <= J_0 * exp (u * Vt) * (u * Vt)).
    { apply Rmult_le_pos; [apply Rmult_le_pos|]; lra. }
    lra. }
  destruct (max_power_lower_bound J_sc J_0 T N) as (fuel & p & Hp & Hle);
    try lra.
  - unfold dpower. fold u Vt.
    replace (J_0 * u * Vt * exp (u * Vt)) with (J_0 * exp (u * Vt) * (u * Vt)) by ring.
    lra.
  - exists fuel, (p / power_in). split.
    + apply efficiency_Some. exists p. auto.
    + apply Rmult_lt_reg_r with power_in; [exact Hin|].
      replace (p / power_in * power_in) with p by (field; lra).
      rewrite power_rate in Hle. fold u Vt in Hle.
      assert (j * Vt <= (J_sc + J_0 - J_0 * exp (u * Vt)) * Vt)
        by (apply Rmult_le_compat_r; lra).
      lra.
Qed.

Lemma grid_3000 : grid 3000 = 3.
Proof.
  unfold grid, voltage_step. rewrite INR_IZR_INZ. simpl. lra.
Qed.

Lemma exp_neg_le_1 x : 0 <= x -> exp (- x) <= 1.
Proof.
  intros Hx. rewrite <- exp_0. destruct (Req_dec x 0) as [->|Hne].
  - rewrite Ropp_0. lra.
  - left. apply exp_increasing. lra.
Qed.

Lemma x_exp_neg_le_1 x : 0 <= x -> x * exp (- x) <= 1.
Proof.
  intros Hx. rewrite exp_Ropp.
  pose proof (exp_ineq1_le x) as H1. pose proof (exp_pos x) as H2.
  apply Rmult_le_reg_r with (exp x); [exact H2|].
  replace (x * / exp x * exp x) with x by (field; lra). lra.
Qed.

(** Nothing in the last stage keeps the ratio below one when the gap pair
    is not a valid one: a short-circuit current of 400 A/m^2, a radiative
    saturation current of 1 A/m^2 divided by the radiative fraction of the
    pair (direct 1 eV, indirect 5 eV) at 300 K, and an incident power of
    1000 W/m^2 give a returned ratio above one. *)
Lemma efficiency_exceeds_one :
  exists fuel eff,
    efficiency fuel 400 (1 / slme_fr 1 5 300) 300 1000 = Some eff /\ 1 < eff.
Proof.
  assert (HT : 0 < 300) by lra. pose proof (rate_pos 300 HT) as Hu.
  assert (HJ0 : 1 / slme_fr 1 5 300 = exp (- (4 * rate 300))).
  { rewrite slme_fr_rate, exp_Ropp by lra. unfold Rdiv. rewrite Rmult_1_l.
    do 2 f_equal. ring. }
  rewrite HJ0.
  apply (efficiency_above_one_if 400 _ 300 1000 3000 396); try lra.
  - apply exp_pos.
  - rewrite grid_3000, <- exp_plus.
    replace (- (4 * rate 300) + rate 300 * 3) with (- rate 300) by ring.
    pose proof (exp_neg_le_1 (rate 300)) as H1.
    pose proof (x_exp_neg_le_1 (rate 300)) as H2.
    lra.
  - rewrite grid_3000. lra.
Qed.

(** Whatever the short-circuit current, the radiative saturation current
    and the incident power are, an indirect gap far enough above the direct
    one drives the returned ratio above one. *)
Lemma efficiency_unbounded J_sc J_0_r T power_in direct :
  0 < J_sc -> 0 < J_0_r -> 0 < T -> 0 < power_in ->
  exists indirect fuel eff,
    efficiency fuel J_sc (J_0_r / slme_fr direct indirect T) T power_in = Some eff
    /\ 1 < eff.
Proof.
  intros HJsc HJ0r HT Hin. pose proof (rate_pos T HT) as Hu.
  destruct (INR_archimed voltage_step (2 * power_in / J_sc) voltage_step_pos)
    as (N & HN).
  fold (grid N) in HN. pose proof (grid_nonneg N) as HV.
  set (u := rate T) in *. set (Vt := grid N) in *.
  set (w := 2 * J_0_r * (1 + u * Vt) / J_sc).
  assert (HuV : 0 <= u * Vt) by (apply Rmult_le_pos; lra).
  assert (Hw : 0 < w).
  { unfold w. apply Rdiv_lt_0_compat; [|exact HJsc].
    apply Rmult_lt_0_compat; lra. }
  exists (direct + (Vt + w / u)).
  assert (HJ0 : J_0_r / slme_fr direct (direct + (Vt + w / u)) T
                = J_0_r * exp (- (u * Vt + w))).
  { rewrite slme_fr_rate by lra. fold u. unfold Rdiv at 1. rewrite <- exp_Ropp.
    do 2 f_equal. field. lra. }
  rewrite HJ0.
  apply (efficiency_above_one_if J_sc _ T power_in N (J_sc / 2)); try lra.
  - apply Rmult_lt_0_compat; [exact HJ0r | apply exp_pos].
  - fold u Vt.
    replace (J_0_r * exp (- (u * Vt + w)) * exp (u * Vt))
      with (J_0_r * exp (- w))
      by (rewrite Rmult_assoc, <- exp_plus; do 2 f_equal; ring).
    pose proof (x_exp_neg_le_1 w ltac:(lra)) as H1.
    replace (J_0_r * exp (- w) * (1 + u * Vt))
      with (J_sc / 2 * (w * exp (- w))) by (unfold w; field; lra).
    assert (J_sc / 2 * (w * exp (- w)) <= J_sc / 2 * 1)
      by (apply Rmult_le_compat_l; lra).
    lra.
  - fold Vt. apply Rmult_lt_reg_r with (2 / J_sc).
    + apply Rdiv_lt_0_compat; lra.
    + replace (power_in * (2 / J_sc)) with (2 * power_in / J_sc) by (field; lra).
      replace (J_sc / 2 * Vt * (2 / J_sc)) with Vt by (field; lra).
      lra.
Qed.

Section EngineFacts.

Variable data : list (R * R).
Variable simps : array -> array -> R.
Variable spline : array -> array -> R -> R.

(** The indirect gap enters [slme] through the radiative fraction only. *)
Lemma slme_with_indirect_gap fuel q gap :
  slme data simps spline fuel (with_indirect_gap q gap)
  = efficiency fuel (slme_J_sc data simps spline q)
      (slme_J_0_r data simps spline q
       / slme_fr (material_direct_allowed_gap q) gap (temperature q))
      (temperature q) (power_in data simps).
Proof. reflexivity. Qed.

(** So every query with positive currents has a sibling, differing in the
    indirect gap alone, whose returned efficiency exceeds one. *)
Lemma slme_exceeds_one q :
  0 < slme_J_sc data simps spline q ->
  0 < slme_J_0_r data simps spline q ->
  0 < temperature q -> 0 < power_in data simps ->
  exists gap fuel eff,
    slme data simps spline fuel (with_indirect_gap q gap) = Some eff /\ 1 < eff.
Proof.
  intros HJsc HJ0r HT Hin.
  destruct (efficiency_unbounded _ _ _ _ (material_direct_allowed_gap q)
              HJsc HJ0r HT Hin) as (gap & fuel & eff & H).
  exists gap, fuel, eff. rewrite slme_with_indirect_gap. exact H.
Qed.

End EngineFacts.

(** With a positive incident power, the efficiency returned by [slme] and
    by [calculate_SQ] is the returned maximum power over the incident power
    and is never negative, whatever the gap pair; it is at most one exactly
    when that power does not exceed the incident power. *)
Lemma efficiency_is_nonnegative
        (data : list (R * R)) (simps : array -> array -> R)
        (spline : array -> array -> R -> R) :
  0 < power_in data simps ->
  (forall fuel q eff,
     slme data simps spline fuel q = Some eff -> 0 <= eff) /\
  (forall fuel bandgap_ev T fr eff,
     calculate_SQ data simps fuel bandgap_ev T fr = inr (Some eff) -> 0 <= eff) /\
  (forall fuel J_sc J_0 T eff,
     efficiency fuel J_sc J_0 T (power_in data simps) = Some eff ->
     exists p, max_power fuel J_sc J_0 T = Some p /\ 0 <= p /\
               eff = p / power_in data simps /\
               (eff <= 1 <-> p <= power_in data simps)).
Proof.
  intros Hin.
  assert (Hcore : forall fuel J_sc J_0 T eff,
             efficiency fuel J_sc J_0 T (power_in data simps) = Some eff ->
             exists p, max_power fuel J_sc J_0 T = Some p /\ 0 <= p /\
                       eff = p / power_in data simps /\
                       (eff <= 1 <-> p <= power_in data simps)).
  { intros fuel J_sc J_0 T eff H. apply efficiency_Some in H.
    destruct H as (p & Hp & ->). exists p. split; [exact Hp|].
    split; [apply (max_power_nonneg _ _ _ _ _ Hp)|]. split; [reflexivity|].
    split; intros H.
    - apply Rmult_le_compat_r with (r := power_in data simps) in H; [|lra].
      replace (p / power_in data simps * power_in data simps) with p in H
        by (field; lra).
      lra.
    - apply Rmult_le_reg_r with (power_in data simps); [exact Hin|].
      replace (p / power_in data simps * power_in data simps) with p
        by (field; lra).
      lra. }
  assert (Hnonneg : forall fuel J_sc J_0 T eff,
             efficiency fuel J_sc J_0 T (power_in data simps) = Some eff ->
             0 <= eff).
  { intros fuel J_sc J_0 T eff H.
    destruct (Hcore _ _ _ _ _ H) as (p & _ & Hp & -> & _).
    apply Rmult_le_pos; [exact Hp|]. left. apply Rinv_0_lt_compat, Hin. }
  split; [|split].
  - intros fuel q eff H. unfold slme in H. eapply Hnonneg, H.
  - intros fuel bandgap_ev T fr eff H. unfold calculate_SQ in H.
    destruct (SQ_J_sc data simps bandgap_ev) as [x|J_sc]; simpl in H;
      [discriminate|].
    injection H as H. eapply Hnonneg, H.
  - exact Hcore.
Qed.

Lemma gap_wavelength_2eV : 619 < 1e9 * ((c * h_e) / 2) < 620.
Proof. unfold c, h_e, h, e. lra. Qed.

Lemma dark_query_absorbance spline :
  slme_absorbance two_rows spline dark_query = [0; 0].
Proof.
  pose proof gap_wavelength_2eV as Hgap.
  unfold slme_absorbance, material_interpolated_absorbance, two_rows,
    solar_spectra_wavelength, dark_query; simpl.
  destruct (Rlt_dec 1000 (1e9 * (c * h_e / 2))) as [H|_]; [lra|].
  destruct (Rlt_dec 4000 (1e9 * (c * h_e / 2))) as [H|_]; [lra|].
  reflexivity.
Qed.

Lemma dark_query_returns_zero :
  slme two_rows trapezoid no_spline 1 dark_query = Some 0.
Proof.
  assert (HJsc : slme_J_sc two_rows trapezoid no_spline dark_query = 0).
  { unfold slme_J_sc. rewrite dark_query_absorbance.
    unfold absorbed_by_wavelength, solar_spectra_photon_flux, two_rows; simpl.
    replace (-2.0 * 0 * 50e-6) with 0 by lra. rewrite exp_0. lra. }
  assert (HJ0 : slme_J_0 two_rows trapezoid no_spline dark_query = 0).
  { unfold slme_J_0, slme_J_0_r. rewrite dark_query_absorbance.
    unfold absorbed_by_wavelength, blackbody_photon_flux, two_rows; simpl.
    replace (-2.0 * 0 * 50e-6) with 0 by lra. rewrite exp_0.
    unfold Rdiv. lra. }
  unfold slme. rewrite HJsc, HJ0.
  unfold efficiency, max_power, test_voltage_after; simpl.
  unfold Rgtb. destruct (Rgt_dec _ _) as [H|_].
  - unfold power, J in H. lra.
  - simpl. unfold power, J. f_equal. unfold Rdiv. ring.
Qed.

(** On the two sample rows with the trapezoid rule the incident power is
    positive and the dark query returns the efficiency zero. *)
Lemma dark_query_is_nonnegative :
  0 < power_in two_rows trapezoid /\
  slme two_rows trapezoid no_spline 1 dark_query = Some 0 /\ 0 <= 0.
Proof.
  assert (Hin : 0 < power_in two_rows trapezoid).
  { unfold power_in, two_rows; simpl. lra. }
  split; [exact Hin|]. split; [apply dark_query_returns_zero|].
  destruct (efficiency_is_nonnegative two_rows trapezoid no_spline Hin)
    as (Hslme & _ & _).
  apply (Hslme 1%nat dark_query 0), dark_query_returns_zero.
Qed.

(** The same on a run of [slme] itself, with the sample rows and the
    trapezoid rule: the ultraviolet query absorbs at both wavelengths, its
    currents are positive, and a larger indirect gap lifts the returned
    efficiency above one. *)
Lemma ultraviolet_query_absorbance spline :
  slme_absorbance two_rows spline ultraviolet_query = [40; 40].
Proof.
  assert (Hmax : list_max (material_wavelength_for_absorbance_data [5; 6; 7; 8])
                 < 1000).
  { unfold material_wavelength_for_absorbance_data, list_max; simpl.
    unfold c, h_e, h, e. repeat apply Rmax_lub_lt; lra. }
  assert (Hmin : list_min (material_wavelength_for_absorbance_data [5; 6; 7; 8])
                 <= list_max (material_wavelength_for_absorbance_data [5; 6; 7; 8])).
  { unfold material_wavelength_for_absorbance_data, list_min, list_max; simpl.
    eapply Rle_trans; [apply Rmin_r | apply Rmax_r]. }
  assert (Hfill : forall w, 1000 <= w ->
            material_absorbance_data_function
              spline [5; 6; 7; 8] [10; 20; 30; 40] w = 40).
  { intros w Hw. unfold material_absorbance_data_function, interp1d.
    destruct (Rlt_dec w _) as [H|_]; [lra|].
    destruct (Rgt_dec w _) as [_|H]; [reflexivity | lra]. }
  unfold slme_absorbance, material_interpolated_absorbance, two_rows,
    solar_spectra_wavelength, ultraviolet_query; simpl.
  rewrite !orb_true_r, !Hfill by lra. reflexivity.
Qed.

Lemma blackbody_photon_flux_pos T lam :
  0 < lam -> 0 < T -> 0 < blackbody_photon_flux_at T lam.
Proof.
  intros Hlam HT. pose proof h_pos. pose proof c_pos. pose proof k_pos.
  assert (Hx : 0 < h * c / (lam * k * T)).
  { apply Rdiv_lt_0_compat; [apply hc_pos|].
    apply Rmult_lt_0_compat; [apply Rmult_lt_0_compat|]; assumption. }
  assert (HE : 1 < exp (h * c / (lam * k * T))).
  { rewrite <- exp_0. apply exp_increasing, Hx. }
  unfold blackbody_photon_flux_at, blackbody_irradiance_at.
  rewrite lit_1, lit_2.
  apply Rmult_lt_0_compat; [apply Rmult_lt_0_compat|].
  - apply Rdiv_lt_0_compat; [|apply pow_lt, Hlam].
    apply Rmult_lt_0_compat; [lra | apply pow_lt; lra].
  - apply Rdiv_lt_0_compat; lra.
  - apply Rdiv_lt_0_compat; [exact Hlam | apply hc_pos].
Qed.

Example slme_run_exceeds_one :
  exists gap fuel eff,
    slme two_rows trapezoid no_spline fuel
         (with_indirect_gap ultraviolet_query gap) = Some eff /\ 1 < eff.
Proof.
  assert (HA : 0 < 1.0 - exp (-2.0 * 40 * 50e-6)).
  { rewrite lit_1. assert (exp (-2.0 * 40 * 50e-6) < exp 0)
      by (apply exp_increasing; lra).
    rewrite exp_0 in *. lra. }
  pose proof (blackbody_photon_flux_pos 300 (1000 * 1e-9)) as Hb1.
  pose proof (blackbody_photon_flux_pos 300 (4000 * 1e-9)) as Hb2.
  pose proof hc_pos as Hhc. pose proof e_pos as He. pose proof PI_RGT_0 as Hpi.
  apply slme_exceeds_one.
  - unfold slme_J_sc. rewrite ultraviolet_query_absorbance.
    unfold absorbed_by_wavelength, solar_spectra_photon_flux, two_rows; simpl.
    set (A := 1.0 - exp (-2.0 * 40 * 50e-6)) in *.
    assert (0 < 1 * (1000 * 1e-9 / (h * c)) * A).
    { apply Rmult_lt_0_compat; [|exact HA]. rewrite Rmult_1_l.
      apply Rdiv_lt_0_compat; lra. }
    assert (0 < 1 * (4000 * 1e-9 / (h * c)) * A).
    { apply Rmult_lt_0_compat; [|exact HA]. rewrite Rmult_1_l.
      apply Rdiv_lt_0_compat; lra. }
    apply Rmult_lt_0_compat; [exact He | lra].
  - unfold slme_J_0_r. rewrite ultraviolet_query_absorbance.
    unfold absorbed_by_wavelength, blackbody_photon_flux, two_rows; simpl.
    set (A := 1.0 - exp (-2.0 * 40 * 50e-6)) in *.
    assert (0 < blackbody_photon_flux_at 300 (1000 * 1e-9) * A)
      by (apply Rmult_lt_0_compat; [apply Hb1; lra | exact HA]).
    assert (0 < blackbody_photon_flux_at 300 (4000 * 1e-9) * A)
      by (apply Rmult_lt_0_compat; [apply Hb2; lra | exact HA]).
    apply Rmult_lt_0_compat; [apply Rmult_lt_0_compat; assumption | lra].
  - simpl. lra.
  - unfold power_in, two_rows; simpl. lra.
Qed.
(** The sweep in exact arithmetic, where the exponential cannot overflow.
    It stops exactly when some grid voltage has a step that does not
    increase the power, and then it returns the power at the first such
    voltage; this is the case whenever [J_sc], [J_0] and the temperature are
    positive.  A curve that every step increases has no such voltage: the
    binary64 run ends on it by overflow, which the module [Binary64]
    models. *)
Lemma sweep_stops_iff_some_step_fails (J_sc J_0 T : R) :
  ((exists fuel p, max_power fuel J_sc J_0 T = Some p) <->
   (exists n, power J_sc J_0 T (grid (S n)) <= power J_sc J_0 T (grid n))) /\
  (forall fuel p,
     max_power fuel J_sc J_0 T = Some p ->
     exists n, (n < fuel)%nat /\ first_stop (power J_sc J_0 T) n /\
               p = power J_sc J_0 T (grid n)) /\
  ((forall n, power J_sc J_0 T (grid (S n)) > power J_sc J_0 T (grid n)) <->
   (forall fuel, max_power fuel J_sc J_0 T = None)) /\
  (0 < J_sc -> 0 < J_0 -> 0 < T ->
   exists fuel p, max_power fuel J_sc J_0 T = Some p).
Proof.
  split; [|split; [|split]]; [| | |apply max_power_returns].
  - split.
    + intros (fuel & p & H). apply max_power_Some in H.
      destruct H as (n & _ & _ & _ & Hstop). exists n. exact Hstop.
    + intros (N & HN). destruct (first_stop_exists _ N HN) as (n & _ & Hn).
      exists (S n), (power J_sc J_0 T (grid n)).
      apply max_power_Some. exists n. auto.
  - intros fuel p H. apply max_power_Some in H.
    destruct H as (n & Hn & Hp & Hf). exists n. auto.
  - split.
    + intros H fuel. apply max_power_None. intros m _. apply H.
    + intros H n. pose proof (H (S n)) as HS.
      rewrite max_power_None in HS. apply HS. lia.
Qed.

Lemma power_without_saturation J_sc T V : power J_sc 0 T V = J_sc * V.
Proof. unfold power, J. ring. Qed.

(** ** [slme]: cut-off and radiative fraction *)

(** C4.  With the cut-off switched on, the interpolated absorbance that
    feeds the [J_0_r] and [J_sc] integrals is exactly zero at every solar
    wavelength that is not strictly shorter than the wavelength of the
    direct allowed gap (and the interpolated value at the shorter ones);
    with the cut-off switched off, every wavelength keeps its interpolated
    value. *)
Theorem cutoff_policy (data : list (R * R)) (spline : array -> array -> R -> R)
        (energies absorbance : array) (E_direct : R) :
  E_direct <> 0 ->
  forall i w,
    nth_error (solar_spectra_wavelength data) i = Some w ->
    (~ w < 1e9 * ((c * h_e) / E_direct) ->
     nth_error (material_interpolated_absorbance
                  data spline energies absorbance E_direct true) i = Some 0) /\
    (w < 1e9 * ((c * h_e) / E_direct) ->
     nth_error (material_interpolated_absorbance
                  data spline energies absorbance E_direct true) i
     = Some (material_absorbance_data_function spline energies absorbance w)) /\
    nth_error (material_interpolated_absorbance
                 data spline energies absorbance E_direct false) i
    = Some (material_absorbance_data_function spline energies absorbance w).
Proof.
  intros _ i w Hw. unfold material_interpolated_absorbance.
  rewrite !nth_error_map, Hw. simpl.
  destruct (Rlt_dec w (1e9 * (c * h_e / E_direct))) as [Hlt|Hge]; simpl.
  - split; [intros H; contradiction|]. split; reflexivity.
  - split; [reflexivity|]. split; [intros H; contradiction | reflexivity].
Qed.

(** C4 at the second sample row (4000 nm) and a direct gap of 2 eV. *)
Lemma cutoff_policy_witness :
  2 <> 0 /\
  nth_error (solar_spectra_wavelength two_rows) 1 = Some 4000 /\
  ~ 4000 < 1e9 * ((c * h_e) / 2) /\
  nth_error (material_interpolated_absorbance
               two_rows no_spline [1; 2; 3; 4] [10; 20; 30; 40] 2 true) 1 = Some 0 /\
  nth_error (material_interpolated_absorbance
               two_rows no_spline [1; 2; 3; 4] [10; 20; 30; 40] 2 false) 1
  = Some (material_absorbance_data_function no_spline [1; 2; 3; 4] [10; 20; 30; 40] 4000).
Proof.
  assert (H2 : 2 <> 0) by lra.
  assert (Hw : nth_error (solar_spectra_wavelength two_rows) 1 = Some 4000)
    by reflexivity.
  assert (Hge : ~ 4000 < 1e9 * ((c * h_e) / 2))
    by (pose proof gap_wavelength_2eV; lra).
  destruct (cutoff_policy two_rows no_spline [1; 2; 3; 4] [10; 20; 30; 40] 2
              H2 1%nat 4000 Hw) as (Hzero & _ & Hkeep).
  repeat split; auto.
Defined.

(** C5.  At a positive temperature the radiative fraction of [slme] is
    [exp (- (E_direct - E_indirect) / (k_e T))]; when both gaps coincide it
    is exactly one, so [J_0] is [J_0_r], the quotient that [calculate_SQ]
    forms with its default [fr = 1]. *)
Theorem radiative_fraction (data : list (R * R)) (simps : array -> array -> R)
        (spline : array -> array -> R -> R) (q : query) :
  0 < temperature q ->
  slme_fr (material_direct_allowed_gap q) (material_indirect_gap q) (temperature q)
  = exp (- (material_direct_allowed_gap q - material_indirect_gap q)
         / (k_e * temperature q)) /\
  (material_direct_allowed_gap q = material_indirect_gap q ->
   slme_fr (material_direct_allowed_gap q) (material_indirect_gap q) (temperature q) = 1 /\
   slme_J_0 data simps spline q = slme_J_0_r data simps spline q /\
   forall bandgap_ev,
     SQ_J_0 data simps bandgap_ev (temperature q)
            (slme_fr (material_direct_allowed_gap q) (material_indirect_gap q)
                     (temperature q))
     = SQ_J_0 data simps bandgap_ev (temperature q) 1
     /\ SQ_J_0 data simps bandgap_ev (temperature q) 1
        = SQ_J_0_r data simps bandgap_ev (temperature q)).
Proof.
  intros _. split; [reflexivity|]. intros Heq.
  assert (Hfr : slme_fr (material_direct_allowed_gap q) (material_indirect_gap q)
                        (temperature q) = 1).
  { unfold slme_fr. rewrite Heq.
    replace (- (material_indirect_gap q - material_indirect_gap q)
             / (k_e * temperature q)) with 0 by (unfold Rdiv; ring).
    apply exp_0. }
  split; [exact Hfr|]. split.
  - unfold slme_J_0. rewrite Hfr. unfold Rdiv. rewrite Rinv_1. ring.
  - intros bandgap_ev. rewrite Hfr. split; [reflexivity|].
    unfold SQ_J_0, Rdiv. rewrite Rinv_1. ring.
Qed.

(** C5 at the dark query with both gaps at 2 eV. *)
Lemma radiative_fraction_witness :
  0 < temperature (with_indirect_gap dark_query 2) /\
  slme_fr 2 2 293.15 = 1 /\
  slme_J_0 two_rows trapezoid no_spline (with_indirect_gap dark_query 2)
  = slme_J_0_r two_rows trapezoid no_spline (with_indirect_gap dark_query 2).
Proof.
  assert (HT : 0 < temperature (with_indirect_gap dark_query 2)) by (simpl; lra).
  destruct (radiative_fraction two_rows trapezoid no_spline
              (with_indirect_gap dark_query 2) HT) as (_ & H).
  destruct (H eq_refl) as (Hfr & HJ & _).
  split; [exact HT|]. split; [exact Hfr | exact HJ].
Defined.


(** ** [calculate_SQ]: the truncated spectra *)

Lemma ascending_tail x l : ascending (x :: l) -> ascending l.
Proof. destruct l as [|y l]; simpl; [trivial | intros [_ H]; exact H]. Qed.

Lemma ascending_head_lt x l y : ascending (x :: l) -> In y l -> x < y.
Proof.
  revert x. induction l as [|z l IH]; intros x Hasc Hin; [contradiction|].
  destruct Hasc as [Hxz Hasc]. destruct Hin as [->|Hin]; [exact Hxz|].
  apply Rlt_trans with z; [exact Hxz | apply IH; assumption].
Qed.

(** On an ascending array [searchsorted] splits the grid into the samples
    strictly below [v] and those not below it. *)
Lemma searchsorted_prefix a v :
  forall x, In x (firstn (searchsorted a v) a) -> x < v.
Proof.
  induction a as [|y a IH]; simpl; intros x Hin; [contradiction|].
  destruct (Rlt_dec y v) as [Hlt|Hge]; simpl in Hin; [|contradiction].
  destruct Hin as [->|Hin]; [exact Hlt | apply IH, Hin].
Qed.

Lemma searchsorted_suffix a v :
  ascending a -> forall x, In x (skipn (searchsorted a v) a) -> v <= x.
Proof.
  induction a as [|y a IH]; simpl; intros Hasc x Hin; [contradiction|].
  destruct (Rlt_dec y v) as [Hlt|Hge]; simpl in Hin.
  - apply IH; [apply (ascending_tail y), Hasc | exact Hin].
  - destruct Hin as [->|Hin]; [lra|].
    pose proof (ascending_head_lt y a x Hasc Hin). lra.
Qed.

Lemma last_default (l : array) d d' : l <> [] -> last l d = last l d'.
Proof.
  induction l as [|x l IH]; intros Hne; [contradiction|].
  destruct l as [|y l]; [reflexivity|].
  change (last (y :: l) d = last (y :: l) d'). apply IH. discriminate.
Qed.

(** [numpy.interp] inside the range of an ascending grid is the chord
    through the two neighbours of the abscissa. *)
Lemma interp_from_chord rest :
  forall x x0 f0,
    ascending (x0 :: map fst rest) -> rest <> [] ->
    x0 <= x <= last (map fst rest) x0 ->
    exists pre post a fa b fb,
      (x0, f0) :: rest = pre ++ (a, fa) :: (b, fb) :: post /\
      a <= x <= b /\ a < b /\
      interp_from x x0 f0 rest = fa + (fb - fa) * ((x - a) / (b - a)).
Proof.
  induction rest as [|[x1 f1] rest IH]; intros x x0 f0 Hasc Hne Hx;
    [contradiction|].
  assert (H01 : x0 < x1) by (apply (ascending_head_lt x0 _ x1 Hasc); left; reflexivity).
  apply ascending_tail in Hasc. simpl interp_from.
  destruct (Rlt_dec x x1) as [Hlt|Hge].
  - exists [], rest, x0, f0, x1, f1. simpl.
    split; [reflexivity|]. split; [lra|]. split; [exact H01|]. field. lra.
  - destruct rest as [|[x2 f2] rest].
    + simpl in Hx. exists [], [], x0, f0, x1, f1. simpl.
      split; [reflexivity|]. split; [lra|]. split; [exact H01|].
      replace x with x1 by lra. field. lra.
    + destruct (IH x x1 f1 Hasc ltac:(discriminate)) as
        (pre & post & a & fa & b & fb & Heq & Hab & Hlt & Hv).
      * split; [lra|]. destruct Hx as [_ Hx].
        rewrite (last_default _ x1 x0) by discriminate. exact Hx.
      * exists ((x0, f0) :: pre), post, a, fa, b, fb.
        split; [simpl; rewrite Heq; reflexivity|]. auto.
Qed.

Lemma interp1_chord xp fp x :
  length xp = length fp -> ascending xp -> within_range xp x ->
  exists v, interp1 x xp fp = inr v /\ is_linear_interpolation xp fp x v.
Proof.
  intros Hlen Hasc (first & rest & -> & Hne & Hx).
  destruct fp as [|f0 fp]; [discriminate|].
  unfold interp1. rewrite Hlen, Nat.eqb_refl. simpl negb. simpl combine.
  cbv iota beta. destruct (Rlt_dec x first) as [Hlt|_]; [lra|].
  assert (Hfst : map fst (combine rest fp) = rest).
  { simpl in Hlen. injection Hlen as Hlen. clear - Hlen.
    revert fp Hlen. induction rest as [|r rest IH]; intros [|f fp] Hlen;
      try discriminate; [reflexivity|].
    simpl. f_equal. apply IH. simpl in Hlen. lia. }
  destruct (interp_from_chord (combine rest fp) x first f0) as
    (pre & post & a & fa & b & fb & Heq & Hab & Hlt & Hv).
  - rewrite Hfst. exact Hasc.
  - destruct rest; [contradiction|]. destruct fp; [discriminate|]. discriminate.
  - rewrite Hfst. exact Hx.
  - exists (interp_from x first f0 (combine rest fp)). split; [reflexivity|].
    exists pre, post, a, fa, b, fb. auto.
Qed.

Lemma map2_length {A B C : Type} (f : A -> B -> C) xs ys :
  length xs = length ys -> length (map2 f xs ys) = length xs.
Proof.
  revert ys. induction xs as [|x xs IH]; intros [|y ys] Hlen;
    try discriminate; [reflexivity|].
  simpl. f_equal. apply IH. simpl in Hlen. lia.
Qed.

Lemma solar_flux_length data :
  length (solar_spectra_wavelength_meters data)
  = length (solar_spectra_photon_flux data).
Proof.
  unfold solar_spectra_photon_flux, solar_spectra_wavelength_meters,
    solar_spectra_irradiance, solar_spectra_wavelength.
  rewrite map2_length; rewrite !length_map; reflexivity.
Qed.

(** C6 (as the code has it).  For a band gap whose wavelength lies within
    an ascending wavelength grid, the first [bandgap_index] grid
    wavelengths are exactly those below the gap wavelength; the integration
    wavelengths, the solar flux and the blackbody flux are the samples at
    those wavelengths followed by one sample at the gap wavelength itself.
    The appended solar sample is the linear interpolation of its two
    neighbours; the appended blackbody sample is Planck's law evaluated at
    the gap wavelength. *)
Theorem truncated_spectra (data : list (R * R)) (bandgap_ev T : R) :
  bandgap_ev <> 0 ->
  ascending (solar_spectra_wavelength_meters data) ->
  within_range (solar_spectra_wavelength_meters data) (bandgap_wavelength bandgap_ev) ->
  (forall x, In x (firstn (bandgap_index data bandgap_ev)
                          (solar_spectra_wavelength_meters data)) ->
             x < bandgap_wavelength bandgap_ev) /\
  (forall x, In x (skipn (bandgap_index data bandgap_ev)
                         (solar_spectra_wavelength_meters data)) ->
             bandgap_wavelength bandgap_ev <= x) /\
  integration_wavelength data bandgap_ev
  = firstn (bandgap_index data bandgap_ev) (solar_spectra_wavelength_meters data)
    ++ [bandgap_wavelength bandgap_ev] /\
  (exists v,
     integration_solar_flux data bandgap_ev
     = inr (firstn (bandgap_index data bandgap_ev) (solar_spectra_photon_flux data)
            ++ [v]) /\
     is_linear_interpolation (solar_spectra_wavelength_meters data)
                             (solar_spectra_photon_flux data)
                             (bandgap_wavelength bandgap_ev) v) /\
  integration_blackbody data bandgap_ev T
  = firstn (bandgap_index data bandgap_ev) (blackbody_photon_flux data T)
    ++ [blackbody_photon_flux_at T (bandgap_wavelength bandgap_ev)].
Proof.
  intros _ Hasc Hrange. split; [|split; [|split; [|split]]].
  - apply searchsorted_prefix.
  - apply searchsorted_suffix, Hasc.
  - reflexivity.
  - destruct (interp1_chord _ _ _ (solar_flux_length data) Hasc Hrange)
      as (v & Hv & Hlin).
    exists v. split; [|exact Hlin].
    unfold integration_solar_flux, bandgap_irradiance, interp. simpl.
    rewrite Hv. reflexivity.
  - reflexivity.
Qed.

Lemma two_rows_wavelengths :
  solar_spectra_wavelength_meters two_rows = [1000 * 1e-9; 4000 * 1e-9].
Proof. reflexivity. Qed.

Lemma gap_wavelength_2um : bandgap_wavelength (h_e * c / 2e-6) = 2e-6.
Proof.
  unfold bandgap_wavelength. pose proof h_e_pos. pose proof c_pos.
  field. repeat split; lra.
Qed.

Lemma two_rows_range :
  ascending (solar_spectra_wavelength_meters two_rows) /\
  within_range (solar_spectra_wavelength_meters two_rows)
               (bandgap_wavelength (h_e * c / 2e-6)).
Proof.
  rewrite gap_wavelength_2um, two_rows_wavelengths. split.
  - simpl. lra.
  - exists (1000 * 1e-9), [4000 * 1e-9].
    split; [reflexivity|]. split; [discriminate|]. simpl. lra.
Qed.

(** C6 on the two sample rows with the gap wavelength at 2000 nm. *)
Lemma truncated_spectra_witness :
  h_e * c / 2e-6 <> 0 /\
  ascending (solar_spectra_wavelength_meters two_rows) /\
  within_range (solar_spectra_wavelength_meters two_rows)
               (bandgap_wavelength (h_e * c / 2e-6)) /\
  integration_wavelength two_rows (h_e * c / 2e-6)
  = firstn (bandgap_index two_rows (h_e * c / 2e-6))
           (solar_spectra_wavelength_meters two_rows)
    ++ [bandgap_wavelength (h_e * c / 2e-6)] /\
  integration_blackbody two_rows (h_e * c / 2e-6) 6000
  = firstn (bandgap_index two_rows (h_e * c / 2e-6))
           (blackbody_photon_flux two_rows 6000)
    ++ [blackbody_photon_flux_at 6000 (bandgap_wavelength (h_e * c / 2e-6))].
Proof.
  assert (HE : h_e * c / 2e-6 <> 0).
  { pose proof h_e_c_pos. apply Rgt_not_eq. apply Rdiv_lt_0_compat; lra. }
  destruct two_rows_range as (Hasc & Hrange).
  destruct (truncated_spectra two_rows (h_e * c / 2e-6) 6000 HE Hasc Hrange)
    as (_ & _ & Hw & _ & Hb).
  exact (conj HE (conj Hasc (conj Hrange (conj Hw Hb)))).
Defined.

(** Planck's photon flux in closed form. *)
Lemma planck_flux T lam :
  0 < lam -> 0 < T ->
  blackbody_photon_flux_at T lam
  = 2 * c / lam ^ 4 / (exp (h * c / (lam * k * T)) - 1)
  /\ 1 < exp (h * c / (lam * k * T)).
Proof.
  intros Hlam HT. pose proof h_pos. pose proof c_pos. pose proof k_pos.
  assert (Hx : 0 < h * c / (lam * k * T)).
  { apply Rdiv_lt_0_compat; [apply hc_pos|].
    apply Rmult_lt_0_compat; [apply Rmult_lt_0_compat|]; assumption. }
  assert (HE : 1 < exp (h * c / (lam * k * T))).
  { rewrite <- exp_0. apply exp_increasing, Hx. }
  split; [|exact HE].
  unfold blackbody_photon_flux_at, blackbody_irradiance_at.
  rewrite lit_1, lit_2. field. repeat split; lra.
Qed.

(** Below [E < 29/3] the chord from the sample at half the wavelength to
    any positive sample passes above Planck's law a third of the way. *)
Lemma chord_above_planck K E B2 :
  0 < K -> 1 < E -> E < 29 / 3 -> 0 < B2 ->
  K / 16 / (E - 1) < K / (E * E - 1) + (B2 - K / (E * E - 1)) * (1 / 3).
Proof.
  intros HK HE1 HE2 HB2.
  assert (HD : 0 < E * E - 1) by nra.
  assert (Hinv : 0 < / (E * E - 1)) by (apply Rinv_0_lt_compat, HD).
  replace (K / 16 / (E - 1)) with (K * (E + 1) / 16 * / (E * E - 1))
    by (field; split; nra).
  assert (Hnum : K * (E + 1) / 16 < 2 / 3 * K) by nra.
  apply Rmult_lt_compat_r with (r := / (E * E - 1)) in Hnum; [|exact Hinv].
  unfold Rdiv at 2 3. nra.
Qed.

Lemma exp_2_le_9 : exp 2 <= 9.
Proof.
  replace 2 with (1 + 1) by ring. rewrite exp_plus.
  pose proof exp_le_3. pose proof (exp_pos 1). nra.
Qed.

(** C6, the statement itself fails for the blackbody array.  On the grid
    of [two_rows] (1000 nm and 4000 nm) at 6000 K, with the gap wavelength
    at 2000 nm, the appended blackbody sample is not the linear
    interpolation of the blackbody samples of the grid: it lies strictly
    below their chord. *)
Lemma blackbody_boundary_sample_is_not_interpolated :
  within_range (solar_spectra_wavelength_meters two_rows)
               (bandgap_wavelength (h_e * c / 2e-6)) /\
  integration_blackbody two_rows (h_e * c / 2e-6) 6000
  = [blackbody_photon_flux_at 6000 (1000 * 1e-9);
     bandgap_blackbody (h_e * c / 2e-6) 6000] /\
  ~ is_linear_interpolation
      (solar_spectra_wavelength_meters two_rows)
      (blackbody_photon_flux two_rows 6000)
      (bandgap_wavelength (h_e * c / 2e-6))
      (bandgap_blackbody (h_e * c / 2e-6) 6000).
Proof.
  destruct two_rows_range as (_ & Hrange). split; [exact Hrange|].
  assert (Hsample : bandgap_blackbody (h_e * c / 2e-6) 6000
                    = blackbody_photon_flux_at 6000 2e-6).
  { unfold bandgap_blackbody. rewrite gap_wavelength_2um. reflexivity. }
  split.
  - unfold integration_blackbody, bandgap_index.
    rewrite gap_wavelength_2um, two_rows_wavelengths. simpl.
    destruct (Rlt_dec (1000 * 1e-9) 2e-6) as [_|H]; [|lra].
    destruct (Rlt_dec (4000 * 1e-9) 2e-6) as [H|_]; [lra|].
    reflexivity.
  - intros (pre & post & x0 & f0 & x1 & f1 & Heq & Hx & Hlt & Hv).
    rewrite gap_wavelength_2um in Hx, Hv. rewrite Hsample in Hv.
    rewrite two_rows_wavelengths in Heq. simpl in Heq.
    assert (Hshape : x0 = 1000 * 1e-9 /\ x1 = 4000 * 1e-9 /\
                     f0 = blackbody_photon_flux_at 6000 (1000 * 1e-9) /\
                     f1 = blackbody_photon_flux_at 6000 (4000 * 1e-9)).
    { destruct pre as [|p [|p' [|p'' pre]]]; simpl in Heq.
      - injection Heq as <- <- <- <- _. auto.
      - injection Heq as _ Heq. discriminate.
      - injection Heq as _ _ Heq. discriminate.
      - injection Heq as _ _ Heq. discriminate. }
    destruct Hshape as (-> & -> & -> & ->). clear Heq Hx Hlt.
    set (y := h * c / (2e-6 * k * 6000)).
    assert (Hy : 0 < y <= 2) by (unfold y, h, c, k; lra).
    destruct (planck_flux 6000 (1000 * 1e-9)) as (H1 & _); try lra.
    destruct (planck_flux 6000 2e-6) as (Hg & HEg); try lra.
    destruct (planck_flux 6000 (4000 * 1e-9)) as (H2 & HE2); try lra.
    fold y in Hg, HEg.
    replace (h * c / (1000 * 1e-9 * k * 6000)) with (y + y) in H1
      by (unfold y, h, c, k; lra).
    rewrite exp_plus in H1.
    assert (HE9 : exp y < 29 / 3).
    { pose proof exp_2_le_9. destruct (Req_dec y 2) as [->|Hne]; [lra|].
      assert (exp y < exp 2) by (apply exp_increasing; lra). lra. }
    assert (HB2 : 0 < blackbody_photon_flux_at 6000 (4000 * 1e-9)).
    { rewrite H2. apply Rdiv_lt_0_compat; [|lra].
      apply Rdiv_lt_0_compat; [pose proof c_pos; lra|].
      apply pow_lt. lra. }
    pose proof (chord_above_planck (2 * c / (1000 * 1e-9) ^ 4) (exp y)
                  (blackbody_photon_flux_at 6000 (4000 * 1e-9))) as Hchord.
    rewrite <- H1 in Hchord.
    replace (2 * c / (1000 * 1e-9) ^ 4 / 16) with (2 * c / 2e-6 ^ 4) in Hchord
      by (unfold c; lra).
    rewrite <- Hg in Hchord.
    replace ((2e-6 - 1000 * 1e-9) / (4000 * 1e-9 - 1000 * 1e-9)) with (1 / 3) in Hv
      by lra.
    assert (0 < 2 * c / (1000 * 1e-9) ^ 4).
    { apply Rdiv_lt_0_compat; [pose proof c_pos; lra | apply pow_lt; lra]. }
    specialize (Hchord ltac:(assumption) HEg HE9 HB2). lra.
Qed.

(** ** [slme]: fill values of the interpolation *)

(** Outside the material wavelengths [interp1d] hands out its fill values:
    the first absorbance entry to the left of the smallest wavelength, the
    last one to the right of the largest. *)
Lemma fill_value_left spline energies absorbance x_new :
  x_new < list_min (material_wavelength_for_absorbance_data energies) ->
  material_absorbance_data_function spline energies absorbance x_new
  = hd 0 absorbance.
Proof.
  intros H. unfold material_absorbance_data_function, interp1d.
  destruct (Rlt_dec x_new _) as [_|Hn]; [reflexivity | contradiction].
Qed.

Lemma fold_left_Rmin_le l x : fold_left Rmin l x <= x.
Proof.
  revert x. induction l as [|y l IH]; intros x; simpl; [lra|].
  eapply Rle_trans; [apply IH | apply Rmin_l].
Qed.

Lemma fold_left_Rmax_ge l x : x <= fold_left Rmax l x.
Proof.
  revert x. induction l as [|y l IH]; intros x; simpl; [lra|].
  eapply Rle_trans; [apply Rmax_l | apply IH].
Qed.

Lemma list_min_le_max l : list_min l <= list_max l.
Proof.
  destruct l as [|x l]; simpl; [lra|].
  eapply Rle_trans; [apply fold_left_Rmin_le | apply fold_left_Rmax_ge].
Qed.

Lemma fill_value_right spline energies absorbance x_new :
  list_max (material_wavelength_for_absorbance_data energies) < x_new ->
  material_absorbance_data_function spline energies absorbance x_new
  = last absorbance 0.
Proof.
  intros H. unfold material_absorbance_data_function, interp1d.
  pose proof (list_min_le_max (material_wavelength_for_absorbance_data energies)).
  destruct (Rlt_dec x_new _) as [Hn|_]; [lra|].
  destruct (Rgt_dec x_new _) as [_|Hn]; [reflexivity | contradiction].
Qed.

Lemma fold_left_Rmin_glb l x b :
  b < x -> (forall y, In y l -> b < y) -> b < fold_left Rmin l x.
Proof.
  revert x. induction l as [|y l IH]; intros x Hx Hl; simpl; [exact Hx|].
  apply IH.
  - apply Rmin_glb_lt; [exact Hx | apply Hl; left; reflexivity].
  - intros z Hz. apply Hl. right. exact Hz.
Qed.

Lemma fold_left_Rmax_lub l x b :
  x < b -> (forall y, In y l -> y < b) -> fold_left Rmax l x < b.
Proof.
  revert x. induction l as [|y l IH]; intros x Hx Hl; simpl; [exact Hx|].
  apply IH.
  - apply Rmax_lub_lt; [exact Hx | apply Hl; left; reflexivity].
  - intros z Hz. apply Hl. right. exact Hz.
Qed.

(** In terms of photon energies: a solar wavelength whose photon energy
    [c h_e 10^9 / x] exceeds every (shifted) energy of the data is given
    the first absorbance entry, and one whose photon energy is below every
    energy of the data is given the last entry.  For data sorted by
    ascending energy these are the absorbance at the lowest and at the
    highest energy. *)
Lemma fill_value_above_energy_range spline energies absorbance x_new :
  energies <> [] -> 0 < x_new ->
  (forall E, In E energies ->
             0 <= E /\ E + 0.00000001 < (c * h_e) * 10 ^ 9 / x_new) ->
  material_absorbance_data_function spline energies absorbance x_new
  = hd 0 absorbance.
Proof.
  intros Hne Hx HE. apply fill_value_left.
  assert (Hall : forall w, In w (material_wavelength_for_absorbance_data energies) ->
                           x_new < w).
  { intros w Hw. apply in_map_iff in Hw. destruct Hw as (E & <- & HinE).
    destruct (HE E HinE) as (HE0 & HElt).
    apply Rmult_lt_reg_r with ((E + 0.00000001) / x_new).
    - apply Rdiv_lt_0_compat; lra.
    - replace (x_new * ((E + 0.00000001) / x_new)) with (E + 0.00000001)
        by (field; lra).
      replace (c * h_e / (E + 0.00000001) * 10 ^ 9 * ((E + 0.00000001) / x_new))
        with (c * h_e * 10 ^ 9 / x_new) by (field; lra).
      exact HElt. }
  unfold material_wavelength_for_absorbance_data in *.
  destruct energies as [|E0 energies]; [contradiction|]. simpl in *.
  apply fold_left_Rmin_glb; [apply Hall; left; reflexivity|].
  intros y Hy. apply Hall. right. exact Hy.
Qed.

Lemma fill_value_below_energy_range spline energies absorbance x_new :
  energies <> [] -> 0 < x_new ->
  (forall E, In E energies ->
             0 <= E /\ (c * h_e) * 10 ^ 9 / x_new < E + 0.00000001) ->
  material_absorbance_data_function spline energies absorbance x_new
  = last absorbance 0.
Proof.
  intros Hne Hx HE. apply fill_value_right.
  assert (Hall : forall w, In w (material_wavelength_for_absorbance_data energies) ->
                           w < x_new).
  { intros w Hw. apply in_map_iff in Hw. destruct Hw as (E & <- & HinE).
    destruct (HE E HinE) as (HE0 & HElt).
    apply Rmult_lt_reg_r with ((E + 0.00000001) / x_new).
    - apply Rdiv_lt_0_compat; lra.
    - replace (x_new * ((E + 0.00000001) / x_new)) with (E + 0.00000001)
        by (field; lra).
      replace (c * h_e / (E + 0.00000001) * 10 ^ 9 * ((E + 0.00000001) / x_new))
        with (c * h_e * 10 ^ 9 / x_new) by (field; lra).
      exact HElt. }
  unfold material_wavelength_for_absorbance_data in *.
  destruct energies as [|E0 energies]; [contradiction|]. simpl in *.
  apply fold_left_Rmax_lub; [apply Hall; left; reflexivity|].
  intros y Hy. apply Hall. right. exact Hy.
Qed.

(** The material wavelengths of the sample energies 1, 2, 3, 4 eV run from
    about 1240 nm down to about 310 nm. *)
Lemma sample_wavelength_range :
  309 < list_min (material_wavelength_for_absorbance_data [1; 2; 3; 4]) /\
  list_max (material_wavelength_for_absorbance_data [1; 2; 3; 4]) < 1240.
Proof.
  unfold material_wavelength_for_absorbance_data, list_min, list_max; simpl.
  unfold c, h_e, h, e. split.
  - repeat apply Rmin_glb_lt; lra.
  - repeat apply Rmax_lub_lt; lra.
Qed.

(** C7, evaluated.  The sample data has absorbance 10 at its lowest energy
    (1 eV) and 40 at its highest (4 eV).  A solar wavelength of 280 nm
    (about 4.43 eV, above the data) gets the value 10 of the lowest-energy
    end, and one of 4000 nm (about 0.31 eV, below the data) gets the value
    40 of the highest-energy end: the two fill values are used at the
    opposite ends. *)
Theorem fill_values_at_opposite_ends (spline : array -> array -> R -> R) :
  material_absorbance_data_function spline [1; 2; 3; 4] [10; 20; 30; 40] 280 = 10 /\
  material_absorbance_data_function spline [1; 2; 3; 4] [10; 20; 30; 40] 4000 = 40.
Proof.
  pose proof sample_wavelength_range as (Hmin & Hmax). split.
  - rewrite fill_value_left by lra. reflexivity.
  - rewrite fill_value_right by lra. reflexivity.
Qed.

(** ** The dielectric model *)

Lemma Rabs_bound x m : Rabs x <= m -> - m <= x <= m.
Proof.
  intros H. pose proof (Rle_abs x). pose proof (Rle_abs (- x)) as H'.
  rewrite Rabs_Ropp in H'. lra.
Qed.

Lemma Cmod_ge_Re z : Rabs (Re z) <= Cmod z.
Proof.
  unfold Cmod. rewrite <- sqrt_Rsqr_abs. apply sqrt_le_1_alt.
  unfold Rsqr. nra.
Qed.

(** [cmath_sqrt] is a square root, with a non-negative real part. *)
Lemma cmath_sqrt_square z : Cmul (cmath_sqrt z) (cmath_sqrt z) = z.
Proof.
  destruct z as [a b]. pose proof (Cmod_ge_Re (mkC a b)) as Hm.
  simpl in Hm. unfold cmath_sqrt, Cmul. simpl Re in *. simpl Im in *.
  set (m := Cmod (mkC a b)) in *.
  assert (Hm2 : m * m = a * a + b * b).
  { unfold m, Cmod. simpl. apply sqrt_sqrt. nra. }
  assert (Hp : 0 <= (m + a) / 2) by (apply Rabs_bound in Hm; lra).
  assert (Hq : 0 <= (m - a) / 2) by (apply Rabs_bound in Hm; lra).
  assert (Hre : sqrt ((m + a) / 2) * sqrt ((m + a) / 2) = (m + a) / 2)
    by (apply sqrt_sqrt, Hp).
  assert (Him : sqrt ((m - a) / 2) * sqrt ((m - a) / 2) = (m - a) / 2)
    by (apply sqrt_sqrt, Hq).
  assert (Hcross : sqrt ((m + a) / 2) * sqrt ((m - a) / 2) = Rabs b / 2).
  { rewrite <- sqrt_mult by assumption.
    replace ((m + a) / 2 * ((m - a) / 2)) with (Rsqr (b / 2))
      by (unfold Rsqr; nra).
    rewrite sqrt_Rsqr_abs. unfold Rdiv. rewrite Rabs_mult.
    rewrite (Rabs_pos_eq (/ 2)) by lra. reflexivity. }
  destruct (Rle_dec 0 b) as [Hb|Hb]; simpl.
  - rewrite Rabs_pos_eq in Hcross by exact Hb. f_equal; nra.
  - rewrite Rabs_left in Hcross by lra. f_equal; nra.
Qed.

Lemma cmath_sqrt_Re_nonneg z : 0 <= Re (cmath_sqrt z).
Proof.
  unfold cmath_sqrt. destruct (Rle_dec 0 (Im z)); simpl; apply sqrt_pos.
Qed.

Lemma cmath_sqrt_Im_nonneg z : 0 <= Im z -> 0 <= Im (cmath_sqrt z).
Proof.
  intros Hz. unfold cmath_sqrt.
  destruct (Rle_dec 0 (Im z)) as [_|H]; [simpl; apply sqrt_pos | contradiction].
Qed.

(** What an arithmetic operator on two arrays puts in its result. *)
Lemma map2_In {A B C : Type} (f : A -> B -> C) xs ys z :
  In z (map2 f xs ys) -> exists x y, In x xs /\ In y ys /\ z = f x y.
Proof.
  revert ys. induction xs as [|x xs IH]; intros [|y ys] Hin; simpl in Hin;
    try contradiction.
  destruct Hin as [<-|Hin].
  - exists x, y. simpl. auto.
  - destruct (IH ys Hin) as (x' & y' & Hx & Hy & Hz).
    exists x', y'. simpl. auto.
Qed.

Lemma map_map2 {A B C D : Type} (g : C -> D) (f : A -> B -> C) xs ys :
  map g (map2 f xs ys) = map2 (fun x y => g (f x y)) xs ys.
Proof.
  revert ys. induction xs as [|x xs IH]; intros [|y ys]; simpl;
    try reflexivity.
  f_equal. apply IH.
Qed.

Lemma map2_map_r {A B B' C : Type} (f : A -> B -> C) (g : B' -> B) xs ys :
  map2 f xs (map g ys) = map2 (fun x y => f x (g y)) xs ys.
Proof.
  revert ys. induction xs as [|x xs IH]; intros [|y ys]; simpl;
    try reflexivity.
  f_equal. apply IH.
Qed.

Lemma broadcast_In f xs ys l z :
  broadcast f xs ys = inr l -> In z l ->
  exists x y, In x xs /\ In y ys /\ z = f x y.
Proof.
  unfold broadcast. destruct (Nat.eqb (length xs) (length ys)).
  - intros H Hin. injection H as <-. apply map2_In, Hin.
  - destruct xs as [|x [|x' xs]].
    + destruct ys as [|y [|y' ys]]; try discriminate.
      intros H Hin. injection H as <-. contradiction.
    + intros H Hin. injection H as <-. apply in_map_iff in Hin.
      destruct Hin as (y & <- & Hy). exists x, y. simpl. auto.
    + destruct ys as [|y [|y' ys]]; try discriminate.
      intros H Hin. injection H as <-.
      change (In z (map (fun x0 => f x0 y) (x :: x' :: xs))) in Hin.
      apply in_map_iff in Hin.
      destruct Hin as (x0 & <- & Hx). exists x0, y. simpl. auto.
Qed.

Lemma broadcast_same_length f xs ys :
  length xs = length ys -> broadcast f xs ys = inr (map2 f xs ys).
Proof. intros H. unfold broadcast. rewrite H, Nat.eqb_refl. reflexivity. Qed.

Lemma hbar_e_c_pos : 0 < hbar / e * c.
Proof.
  apply Rmult_lt_0_compat; [|apply c_pos].
  apply Rdiv_lt_0_compat; [apply hbar_pos | apply e_pos].
Qed.

(** C8.  For a tensor whose energies are non-negative and whose dielectric
    function has a non-negative imaginary part at every sample, every value
    that [absorption_coefficient] returns is non-negative.  With one tensor
    per energy it returns [2 E Im(sqrt(eps(E))) / (hbar / e * c)] at every
    grid point; the square root is the principal one, whose imaginary part
    is non-negative under that precondition. *)
Theorem absorption_coefficient_nonneg
        (eigvals : matrix complex -> list complex) (D : DielTensor) :
  (forall E, In E (energies D) -> 0 <= E) ->
  (forall v, In v (dielectric_function eigvals D) -> 0 <= Im v) ->
  (forall alpha l,
     absorption_coefficient eigvals D = inr l -> In alpha l -> 0 <= alpha) /\
  (length (energies D) = length (dielectric_tensor D) ->
   absorption_coefficient eigvals D
   = inr (map2 (fun E v => 2.0 * E * Im (cmath_sqrt v) / (hbar / e * c))
               (energies D) (dielectric_function eigvals D))) /\
  (forall v, In v (dielectric_function eigvals D) ->
             Cmul (cmath_sqrt v) (cmath_sqrt v) = v /\
             0 <= Re (cmath_sqrt v) /\ 0 <= Im (cmath_sqrt v)).
Proof.
  intros HE Hv. split; [|split].
  - intros alpha l Hl Hin. unfold absorption_coefficient in Hl.
    destruct (broadcast _ (energies D) _) as [x|Ek] eqn:HEk; simpl in Hl;
      [discriminate|].
    injection Hl as <-. apply in_map_iff in Hin.
    destruct Hin as (p & <- & Hp).
    destruct (broadcast_In _ _ _ _ _ HEk Hp) as (E & k & HinE & Hink & ->).
    apply in_map_iff in Hink. destruct Hink as (v & <- & Hinv).
    apply Rmult_le_pos; [|left; apply Rinv_0_lt_compat, hbar_e_c_pos].
    apply Rmult_le_pos; [rewrite lit_2; specialize (HE E HinE); lra|].
    apply cmath_sqrt_Im_nonneg, Hv, Hinv.
  - intros Hlen. unfold absorption_coefficient.
    rewrite broadcast_same_length
      by (unfold dielectric_function; rewrite !length_map; exact Hlen).
    simpl. unfold ret. f_equal. rewrite map_map2, map2_map_r. reflexivity.
  - intros v Hin. split; [apply cmath_sqrt_square|].
    split; [apply cmath_sqrt_Re_nonneg | apply cmath_sqrt_Im_nonneg, Hv, Hin].
Qed.

Lemma sample_dielectric_function :
  dielectric_function diagonal sample_tensor = [mkC ((1 + (1 + (1 + 0))) / INR 3)
                                                    ((1 + (1 + (1 + 0))) / INR 3)].
Proof. reflexivity. Qed.

(** C8 at the isotropic sample tensor. *)
Lemma absorption_coefficient_nonneg_witness :
  (forall E, In E (energies sample_tensor) -> 0 <= E) /\
  (forall v, In v (dielectric_function diagonal sample_tensor) -> 0 <= Im v) /\
  exists l, absorption_coefficient diagonal sample_tensor = inr l /\
            forall alpha, In alpha l -> 0 <= alpha.
Proof.
  assert (HE : forall E, In E (energies sample_tensor) -> 0 <= E).
  { intros E [<-|[]]. lra. }
  assert (Hv : forall v, In v (dielectric_function diagonal sample_tensor) ->
                         0 <= Im v).
  { rewrite sample_dielectric_function. intros v [<-|[]]. simpl. lra. }
  destruct (absorption_coefficient_nonneg diagonal sample_tensor HE Hv)
    as (Hnonneg & Heq & _).
  split; [exact HE|]. split; [exact Hv|].
  eexists. split; [exact (Heq eq_refl)|].
  intros alpha Hin. exact (Hnonneg alpha _ (Heq eq_refl) Hin).
Defined.

(** ** Error handling of the two constructors *)

Lemma to_matrix_star_six data :
  six_components data -> exists m, to_matrix_star data = inr m.
Proof.
  intros (xx & yy & zz & xy & yz & xz & ->). eexists. reflexivity.
Qed.

Lemma traverse_returns {A B : Type} (f : A -> result B) l :
  Forall (fun a => exists b, f a = inr b) l -> exists bs, traverse f l = inr bs.
Proof.
  induction 1 as [|a l (b & Hb) _ (bs & Hbs)]; simpl.
  - eexists. reflexivity.
  - rewrite Hb. simpl. rewrite Hbs. simpl. eexists. reflexivity.
Qed.

Lemma to_matrix_star_error data x :
  to_matrix_star data = inl x -> x = TypeError.
Proof.
  destruct data as [?|xs|?]; simpl;
    try (intros H; injection H as <-; reflexivity).
  destruct xs as [|? [|? [|? [|? [|? [|? [|? ?]]]]]]]; simpl; intros H;
    try discriminate H; injection H as <-; reflexivity.
Qed.

Lemma traverse_error {A B : Type} (f : A -> result B) l x (P : exn -> Prop) :
  (forall a y, f a = inl y -> P y) -> traverse f l = inl x -> P x.
Proof.
  intros Hf. induction l as [|a l IH]; simpl; [discriminate|].
  destruct (f a) as [y|b] eqn:Ha; simpl.
  - intros H. injection H as <-. apply (Hf a), Ha.
  - destruct (traverse f l) as [y|bs]; simpl; [|discriminate].
    intros H. injection H as <-. apply IH. reflexivity.
Qed.

Lemma Forall_combine {A B : Type} (P : A -> Prop) (Q : B -> Prop) xs ys :
  Forall P xs -> Forall Q ys -> Forall (fun p => P (fst p) /\ Q (snd p)) (combine xs ys).
Proof.
  intros HP. revert ys. induction HP as [|x xs Hx _ IH]; intros ys HQ; simpl.
  - constructor.
  - destruct HQ as [|y ys Hy HQ]; constructor; [split; assumption | apply IH, HQ].
Qed.

(** C9.  Constructing a [DielTensor] from data that is neither a tuple of
    three nor a tuple of two (a tuple of four, say, or an object that is no
    tuple) raises the parser's format error, the [ImportError] with the
    message that the format of the dielectric data is not recognized;
    construction from a three-tuple of energies and six-component real and
    imaginary lists, or from any two-tuple, returns. *)
Theorem dielectric_data_format :
  (forall d, ~ recognised_shape d -> raises (DielTensor_init d) ImportError) /\
  raises (DielTensor_init four_tuple) ImportError /\
  (forall d, vasprun_layout d \/ outcar_layout d -> returns (DielTensor_init d)) /\
  (forall d, raises (DielTensor_init d) ImportError -> ~ recognised_shape d).
Proof.
  assert (Hshape : forall d, ~ recognised_shape d ->
                             parse_dielectric_data d = inl ImportError).
  { intros [items|] Hno; [|reflexivity].
    destruct items as [|d0 [|d1 [|d2 [|d3 items]]]]; try reflexivity;
      exfalso; apply Hno; eexists; split; try reflexivity; simpl; auto. }
  split; [|split; [|split]].
  - intros d Hno. unfold raises, DielTensor_init. rewrite (Hshape d Hno).
    reflexivity.
  - reflexivity.
  - intros d [(energies & real & imag & -> & Hre & Him)|(energies & tensors & ->)].
    + unfold returns, DielTensor_init. simpl.
      destruct (traverse_returns
                  (fun '(real_data, imag_data) =>
                     re <- to_matrix_star real_data ;;
                     im <- to_matrix_star imag_data ;;
                     ret (Matrix (complex_matrix re im)))
                  (combine real imag)) as (ts & Hts).
      * eapply Forall_impl; [|apply (Forall_combine _ _ _ _ Hre Him)].
        intros [r i] [Hr Hi]. simpl in Hr, Hi.
        destruct (to_matrix_star_six r Hr) as (mr & Hmr).
        destruct (to_matrix_star_six i Hi) as (mi & Hmi).
        rewrite Hmr, Hmi. simpl. eexists. reflexivity.
      * rewrite Hts. simpl. eexists. reflexivity.
    + unfold returns, DielTensor_init. simpl. eexists. reflexivity.
  - intros d Hraise (items & -> & Hlen). unfold raises, DielTensor_init in Hraise.
    destruct items as [|d0 [|d1 [|d2 [|d3 items]]]]; simpl in Hlen;
      try (destruct Hlen as [Hlen|Hlen]; discriminate Hlen).
    + cbv in Hraise. discriminate Hraise.
    + unfold parse_dielectric_data in Hraise.
      destruct (traverse _ (combine d1 d2)) as [x|ts] eqn:Hts;
        [|cbv in Hraise; discriminate Hraise].
      cbv [bind] in Hraise. injection Hraise as ->.
      apply traverse_error with (P := fun y => y = TypeError) in Hts;
        [discriminate Hts|].
      intros [r i] y. destruct (to_matrix_star r) as [x|mr] eqn:Hr; simpl.
      * intros H. injection H as <-. apply (to_matrix_star_error r), Hr.
      * destruct (to_matrix_star i) as [x|mi] eqn:Hi; simpl;
          [|discriminate].
        intros H. injection H as <-. apply (to_matrix_star_error i), Hi.
Qed.

(** A three-tuple whose component lists are too short is not rejected by
    the format test: the call of [to_matrix] fails with a [TypeError]. *)
Example short_rows_raise_TypeError :
  raises (DielTensor_init
            (PyTuple [[Scalar 1]; [Row [1; 1; 1; 0; 0]]; [Row [1; 1; 1; 0; 0]]]))
         TypeError.
Proof. reflexivity. Qed.

Example vasprun_sample_returns : returns (DielTensor_init vasprun_sample).
Proof. eexists. reflexivity. Qed.

Open Scope string_scope.

Lemma flip_length (xs : array) : length (flip xs) = length xs.
Proof. unfold flip. apply length_rev. Qed.

(** C10.  On co-indexed data (a grid and a spectrum of the same length)
    [from_data] raises [NotImplementedError] exactly when the variable is
    neither energy nor wavelength or the units are neither flux nor power;
    for each of the four remaining combinations it returns a spectrum. *)
Theorem from_data_not_implemented (data : array * array)
        (variable spectrum_units : string) :
  length (fst data) = length (snd data) ->
  (raises (from_data data variable spectrum_units) NotImplementedError <->
   (variable <> "energy" /\ variable <> "wavelength") \/
   (spectrum_units <> "flux" /\ spectrum_units <> "power")) /\
  ((variable = "energy" \/ variable = "wavelength") ->
   (spectrum_units = "flux" \/ spectrum_units = "power") ->
   returns (from_data data variable spectrum_units)).
Proof.
  intros Hlen. destruct data as [xs ys]. simpl in Hlen.
  assert (Hwl : broadcast (fun s E => s * h_e * c / E ^ 2) (flip ys)
                          (flip (map (fun x => h_e * c / x) xs))
                = inr (map2 (fun s E => s * h_e * c / E ^ 2) (flip ys)
                            (flip (map (fun x => h_e * c / x) xs)))).
  { apply broadcast_same_length. rewrite !flip_length, length_map. auto. }
  assert (Hpow : forall spectrum energy,
             length spectrum = length energy ->
             broadcast (fun s E => s / (e * E)) spectrum energy
             = inr (map2 (fun s E => s / (e * E)) spectrum energy)).
  { intros. apply broadcast_same_length. assumption. }
  unfold raises, returns, from_data. simpl fst. simpl snd.
  destruct (String.eqb variable "energy") eqn:Hve;
    [apply String.eqb_eq in Hve | apply String.eqb_neq in Hve];
    [|destruct (String.eqb variable "wavelength") eqn:Hvw;
      [apply String.eqb_eq in Hvw | apply String.eqb_neq in Hvw]];
    try rewrite Hwl; simpl;
    (destruct (String.eqb spectrum_units "flux") eqn:Huf;
     [apply String.eqb_eq in Huf | apply String.eqb_neq in Huf];
     [|destruct (String.eqb spectrum_units "power") eqn:Hup;
       [apply String.eqb_eq in Hup | apply String.eqb_neq in Hup]]);
    try (rewrite Hpow by
            (try rewrite map2_length; rewrite ?flip_length, ?length_map; auto));
    simpl; subst;
    (split;
     [split;
      [intros H; try discriminate H; auto
      |intros [[H1 H2]|[H1 H2]]; try reflexivity; exfalso; congruence]
     |intros [H1|H1] [H2|H2]; try (eexists; reflexivity);
      exfalso; congruence]).
Qed.

(** C10 on two co-indexed samples. *)
Lemma from_data_not_implemented_witness :
  length (fst ([1; 2], [3; 4])) = length (snd ([1; 2], [3; 4])) /\
  raises (from_data ([1; 2], [3; 4]) "frequency" "flux") NotImplementedError /\
  raises (from_data ([1; 2], [3; 4]) "wavelength" "counts") NotImplementedError /\
  returns (from_data ([1; 2], [3; 4]) "wavelength" "power").
Proof.
  assert (Hlen : length (fst ([1; 2], [3; 4])) = length (snd ([1; 2], [3; 4])))
    by reflexivity.
  split; [exact Hlen|]. split; [|split].
  - apply (from_data_not_implemented ([1; 2], [3; 4]) "frequency" "flux" Hlen).
    left. split; discriminate.
  - apply (from_data_not_implemented ([1; 2], [3; 4]) "wavelength" "counts" Hlen).
    right. split; discriminate.
  - apply (from_data_not_implemented ([1; 2], [3; 4]) "wavelength" "power" Hlen);
      [right | right]; reflexivity.
Defined.

Close Scope string_scope.

(** * The remaining code *)

(** ** Minimum and maximum of an array *)

Lemma fold_left_Rmin_lower l x y : In y (x :: l) -> fold_left Rmin l x <= y.
Proof.
  revert x. induction l as [|z l IH]; intros x Hin; simpl.
  - destruct Hin as [->|[]]. lra.
  - destruct Hin as [->|[->|Hin]].
    + eapply Rle_trans; [apply fold_left_Rmin_le | apply Rmin_l].
    + eapply Rle_trans; [apply fold_left_Rmin_le | apply Rmin_r].
    + apply IH. right. exact Hin.
Qed.

Lemma fold_left_Rmax_upper l x y : In y (x :: l) -> y <= fold_left Rmax l x.
Proof.
  revert x. induction l as [|z l IH]; intros x Hin; simpl.
  - destruct Hin as [->|[]]. lra.
  - destruct Hin as [->|[->|Hin]].
    + eapply Rle_trans; [apply Rmax_l | apply fold_left_Rmax_ge].
    + eapply Rle_trans; [apply Rmax_r | apply fold_left_Rmax_ge].
    + apply IH. right. exact Hin.
Qed.

Lemma list_min_lower l y : In y l -> list_min l <= y.
Proof. destruct l as [|x l]; [contradiction | apply fold_left_Rmin_lower]. Qed.

Lemma list_max_upper l y : In y l -> y <= list_max l.
Proof. destruct l as [|x l]; [contradiction | apply fold_left_Rmax_upper]. Qed.

Lemma fold_left_Rmin_In l x : In (fold_left Rmin l x) (x :: l).
Proof.
  revert x. induction l as [|z l IH]; intros x; simpl; [auto|].
  destruct (IH (Rmin x z)) as [H|H].
  - unfold Rmin in H at 1. destruct (Rle_dec x z); rewrite <- H; auto.
  - auto.
Qed.

Lemma list_min_In l : l <> [] -> In (list_min l) l.
Proof. destruct l as [|x l]; [contradiction | intros _; apply fold_left_Rmin_In]. Qed.

(** ** [get_dir_indir_gap] *)

Module BandGapsFacts.
Import BandGaps.

Lemma fill_rows_length nbands eigenvalues rows :
  fill_rows nbands eigenvalues = inr rows -> length rows = length eigenvalues.
Proof.
  revert rows. induction eigenvalues as [|i rest IH]; simpl; intros rows H.
  - injection H as <-. reflexivity.
  - destruct (fill_row nbands i) as [x|row]; [discriminate|].
    destruct (fill_rows nbands rest) as [x|rows']; [discriminate|].
    injection H as <-. simpl. f_equal. apply IH. reflexivity.
Qed.

Lemma fill_rows_returns nbands eigenvalues :
  (forall i, In i eigenvalues -> (length i <= nbands)%nat) ->
  exists rows, fill_rows nbands eigenvalues = inr rows.
Proof.
  induction eigenvalues as [|i rest IH]; simpl; intros Hlen.
  - eexists. reflexivity.
  - unfold fill_row.
    assert (Hi : (length i <=? nbands)%nat = true)
      by (apply Nat.leb_le, Hlen; left; reflexivity).
    rewrite Hi. destruct IH as (rows & ->); [intros; apply Hlen; right; assumption|].
    eexists. reflexivity.
Qed.

Lemma column_length eigvals band : length (column eigvals band) = length eigvals.
Proof. unfold column. apply length_map. Qed.

(** The smallest difference of two co-indexed columns is not below the
    difference of the smallest entry of the first and the largest of the
    second. *)
Lemma min_of_differences conduction valence :
  length conduction = length valence -> conduction <> [] ->
  list_min conduction - list_max valence
  <= list_min (map2 Rminus conduction valence).
Proof.
  intros Hlen Hne.
  assert (Hne' : map2 Rminus conduction valence <> []).
  { destruct conduction as [|x xs]; [contradiction|].
    destruct valence as [|y ys]; [discriminate|]. discriminate. }
  pose proof (list_min_In _ Hne') as Hin.
  apply map2_In in Hin. destruct Hin as (x & y & Hx & Hy & ->).
  pose proof (list_min_lower _ _ Hx). pose proof (list_max_upper _ _ Hy). lra.
Qed.

Lemma gap_order eigenvalues nelec ispin noso_direct noso_indir :
  get_dir_indir_gap eigenvalues nelec ispin = inr (noso_direct, noso_indir) ->
  noso_indir <= noso_direct.
Proof.
  intros H. unfold get_dir_indir_gap in H.
  destruct eigenvalues as [|first [|second rest]]; try discriminate.
  destruct (ispin =? 0)%nat; [discriminate|].
  destruct (fill_rows (length second) (first :: second :: rest))
    as [x|eigvals] eqn:Hrows; [discriminate|].
  destruct (length second <=? nelec / 2)%nat; [discriminate|].
  injection H as <- <-.
  apply fill_rows_length in Hrows.
  apply min_of_differences.
  - rewrite !column_length. reflexivity.
  - destruct eigvals; [discriminate|]. discriminate.
Qed.

Lemma gap_returns eigenvalues nelec ispin :
  (2 <= length eigenvalues)%nat -> ispin <> O ->
  (forall i, In i eigenvalues -> (length i <= length (nth 1 eigenvalues []))%nat) ->
  (nelec / 2 < length (nth 1 eigenvalues []))%nat ->
  exists gaps, get_dir_indir_gap eigenvalues nelec ispin = inr gaps.
Proof.
  intros Hk Hspin Hrect Hband. unfold get_dir_indir_gap.
  destruct eigenvalues as [|first [|second rest]]; simpl in Hk; try lia.
  simpl nth in *.
  destruct (ispin =? 0)%nat eqn:Hs; [apply Nat.eqb_eq in Hs; contradiction|].
  destruct (fill_rows_returns (length second) (first :: second :: rest) Hrect)
    as (rows & ->).
  assert (Hb : (length second <=? nelec / 2)%nat = false)
    by (apply Nat.leb_gt; exact Hband).
  rewrite Hb. eexists. reflexivity.
Qed.

(** X1.  Whenever [get_dir_indir_gap] returns, the direct gap it reports is
    not below the indirect one.  It returns for every table of at least two
    k-points none of which has more bands than the second one, when the
    conduction band [nelec // 2] exists and [ispin] is not zero; with fewer
    than two k-points or [ispin = 0] it raises an [IndexError]. *)
Theorem direct_gap_not_below_indirect
        (eigenvalues : list kpoint) (nelec ispin : nat) :
  (forall noso_direct noso_indir,
     get_dir_indir_gap eigenvalues nelec ispin = inr (noso_direct, noso_indir) ->
     noso_indir <= noso_direct) /\
  ((2 <= length eigenvalues)%nat -> ispin <> O ->
   (forall i, In i eigenvalues -> (length i <= length (nth 1 eigenvalues []))%nat) ->
   (nelec / 2 < length (nth 1 eigenvalues []))%nat ->
   exists gaps, get_dir_indir_gap eigenvalues nelec ispin = inr gaps) /\
  ((length eigenvalues < 2)%nat \/ ispin = O ->
   get_dir_indir_gap eigenvalues nelec ispin = inl IndexError).
Proof.
  split; [|split].
  - intros d i. apply gap_order.
  - apply gap_returns.
  - intros [Hk| ->]; unfold get_dir_indir_gap.
    + destruct eigenvalues as [|first [|second rest]]; simpl in Hk;
        try reflexivity; lia.
    + destruct eigenvalues as [|first [|second rest]]; reflexivity.
Qed.

Lemma map2_same_source {A B C D : Type} (f : B -> C -> D) (g : A -> B) (h : A -> C) l :
  map2 f (map g l) (map h l) = map (fun a => f (g a) (h a)) l.
Proof. induction l as [|a l IH]; simpl; [reflexivity | f_equal; exact IH]. Qed.

Lemma fill_rows_In nbands eigenvalues rows row :
  fill_rows nbands eigenvalues = inr rows -> In row rows ->
  exists i, In i eigenvalues /\ fill_row nbands i = inr row.
Proof.
  revert rows. induction eigenvalues as [|i rest IH]; simpl; intros rows H Hin.
  - injection H as <-. contradiction.
  - destruct (fill_row nbands i) as [x|r] eqn:Hi; [discriminate|].
    destruct (fill_rows nbands rest) as [x|rows']; [discriminate|].
    injection H as <-. destruct Hin as [<-|Hin].
    + exists i. auto.
    + destruct (IH rows' eq_refl Hin) as (i' & Hi' & Hrow). exists i'. auto.
Qed.

(** X2.  An electron count below two is not rejected: the valence index
    [nelec // 2 - 1] is then [-1], the last band.  The reported direct gap
    is the smallest difference, over the k-points, between the first and
    the last band, so it is not positive when every k-point lists all
    [nbands] bands in ascending order, and neither is the indirect one. *)
Theorem electron_count_below_two
        (eigenvalues : list kpoint) (nelec ispin : nat) (gaps : R * R) :
  (nelec < 2)%nat ->
  get_dir_indir_gap eigenvalues nelec ispin = inr gaps ->
  (forall i, In i eigenvalues ->
             length i = length (nth 1 eigenvalues []) /\
             fst (nth 0 i (0, 0))
             <= fst (nth (length (nth 1 eigenvalues []) - 1) i (0, 0))) ->
  fst gaps = list_min (map (fun i => fst (nth 0 i (0, 0))
                                     - fst (nth (length (nth 1 eigenvalues []) - 1) i (0, 0)))
                           eigenvalues) /\
  snd gaps <= fst gaps /\ fst gaps <= 0.
Proof.
  intros Hn H Hrows.
  assert (Hdiv : (nelec / 2 = 0)%nat) by (apply Nat.div_small; exact Hn).
  pose proof (gap_order eigenvalues nelec ispin (fst gaps) (snd gaps)) as Hle.
  rewrite <- surjective_pairing in Hle. specialize (Hle H).
  unfold get_dir_indir_gap in H.
  destruct eigenvalues as [|first [|second rest]]; try discriminate.
  simpl nth in Hrows.
  destruct (ispin =? 0)%nat; [discriminate|].
  destruct (fill_rows (length second) (first :: second :: rest))
    as [x|eigvals] eqn:Hfill; [discriminate|].
  rewrite Hdiv in H.
  destruct (length second <=? 0)%nat; [discriminate|].
  simpl Nat.eqb in H. cbv iota in H. injection H as H. subst gaps.
  simpl fst in *. simpl snd in *.
  set (eigenvalues := first :: second :: rest) in *.
  set (nbands := length second) in *.
  assert (Hrow : forall i, In i eigenvalues -> fill_row nbands i = inr (map fst i)).
  { intros i Hi. destruct (Hrows i Hi) as (Hlen & _). unfold fill_row.
    rewrite Hlen, Nat.leb_refl, Nat.sub_diag. simpl. rewrite app_nil_r. reflexivity. }
  assert (Heig : eigvals = map (map fst) eigenvalues).
  { clear - Hfill Hrow. revert eigvals Hfill.
    induction eigenvalues as [|i l IH]; simpl; intros eigvals Hfill.
    - injection Hfill as <-. reflexivity.
    - rewrite (Hrow i) in Hfill by (left; reflexivity).
      destruct (fill_rows nbands l) as [x|rows] eqn:Hl; [discriminate|].
      injection Hfill as <-. f_equal. apply IH; [|reflexivity].
      intros j Hj. apply Hrow. right. exact Hj. }
  assert (Hnth : forall (i : kpoint) b, nth b (map fst i) 0 = fst (nth b i (0, 0))).
  { intros i b. change 0 with (fst (0, 0)) at 1. apply map_nth. }
  assert (Hdirect :
            map2 Rminus (column eigvals 0) (column eigvals (nbands - 1))
            = map (fun i => fst (nth 0 i (0, 0)) - fst (nth (nbands - 1) i (0, 0)))
                  eigenvalues).
  { unfold column. rewrite map2_same_source, Heig, map_map.
    apply map_ext. intros i. rewrite !Hnth. reflexivity. }
  rewrite Hdirect in *. split; [reflexivity|]. split; [exact Hle|].
  assert (Hin : In (fst (nth 0 first (0, 0)) - fst (nth (nbands - 1) first (0, 0)))
                   (map (fun i => fst (nth 0 i (0, 0)) - fst (nth (nbands - 1) i (0, 0)))
                        eigenvalues)) by (left; reflexivity).
  apply list_min_lower in Hin.
  destruct (Hrows first ltac:(left; reflexivity)) as (_ & Hasc). lra.
Qed.

Example indirect_material :
  get_dir_indir_gap [[(0.5, 1); (2, 0)]; [(0, 1); (1, 0)]] 2 1 = inr (1, 0.5).
Proof.
  unfold get_dir_indir_gap, fill_rows, fill_row, column, list_min, list_max;
    simpl.
  unfold Rmin, Rmax.
  repeat match goal with
         | |- context [Rle_dec ?a ?b] => destruct (Rle_dec a b); try lra
         end.
  f_equal. f_equal; lra.
Qed.

(** X2 on one electron and two k-points of two ascending bands. *)
Lemma electron_count_below_two_witness :
  (1 < 2)%nat /\
  exists gaps,
    get_dir_indir_gap [[(0.5, 1); (2, 0)]; [(0, 1); (1, 0)]] 1 1 = inr gaps /\
    snd gaps <= fst gaps /\ fst gaps <= 0.
Proof.
  assert (Hn : (1 < 2)%nat) by lia. split; [exact Hn|].
  destruct (gap_returns [[(0.5, 1); (2, 0)]; [(0, 1); (1, 0)]] 1 1)
    as (gaps & Hg); simpl; try lia.
  { intros i [<-|[<-|[]]]; simpl; lia. }
  exists gaps. split; [exact Hg|].
  apply (electron_count_below_two _ 1%nat 1%nat gaps Hn Hg).
  intros i [<-|[<-|[]]]; simpl; split; try reflexivity; lra.
Defined.

End BandGapsFacts.

(** ** More on the voltage sweep *)

Lemma J_rate J_sc J_0 T V :
  J J_sc J_0 T V = J_sc + J_0 - J_0 * exp (rate T * V).
Proof.
  unfold J, rate. rewrite lit_1.
  replace (e * V / (k * T)) with (e / (k * T) * V) by (unfold Rdiv; ring).
  ring.
Qed.

Lemma grid_1 : grid 1 = voltage_step.
Proof. unfold grid. simpl. ring. Qed.

Lemma grid_0 : grid 0 = 0.
Proof. unfold grid. simpl. ring. Qed.

Lemma first_step_fails J_sc J_0 T :
  first_stop (power J_sc J_0 T) 0 <-> J J_sc J_0 T voltage_step <= 0.
Proof.
  pose proof voltage_step_pos as Hs. unfold first_stop.
  rewrite grid_1, grid_0, power_0. unfold power. split.
  - intros (_ & H). nra.
  - intros H. split; [intros m Hm; lia | nra].
Qed.

(** X3.  The sweep returns the power zero exactly when the current at the
    first test voltage, 1 mV, is not positive, and it does so after a
    single test; every other returned power is positive.  In particular a
    short-circuit current that is not positive, with a non-negative
    saturation current at a positive temperature, gives zero power and,
    over a non-zero incident power, zero efficiency. *)
Theorem zero_power_iff_no_current_at_first_step (J_sc J_0 T : R) :
  (J J_sc J_0 T voltage_step <= 0 ->
   forall fuel, max_power (S fuel) J_sc J_0 T = Some 0) /\
  (0 < J J_sc J_0 T voltage_step ->
   forall fuel p, max_power fuel J_sc J_0 T = Some p -> 0 < p) /\
  (J_sc <= 0 -> 0 <= J_0 -> 0 < T ->
   forall fuel power_in,
     power_in <> 0 -> efficiency (S fuel) J_sc J_0 T power_in = Some 0).
Proof.
  assert (Hzero : J J_sc J_0 T voltage_step <= 0 ->
                  forall fuel, max_power (S fuel) J_sc J_0 T = Some 0).
  { intros HJ fuel. apply max_power_Some. exists O.
    split; [lia|]. split; [rewrite grid_0, power_0; reflexivity|].
    apply first_step_fails, HJ. }
  split; [exact Hzero|]. split.
  - intros HJ fuel p Hp. apply max_power_Some in Hp.
    destruct Hp as (n & _ & -> & Hn).
    destruct n as [|n].
    + apply first_step_fails in Hn. lra.
    + pose proof (first_stop_dominates _ _ 1%nat Hn ltac:(lia)) as Hle.
      rewrite grid_1 in Hle. unfold power in Hle at 1.
      pose proof voltage_step_pos. 
      assert (0 < J J_sc J_0 T voltage_step * voltage_step)
        by (apply Rmult_lt_0_compat; lra).
      lra.
  - intros HJsc HJ0 HT fuel power_in Hin.
    assert (HJ : J J_sc J_0 T voltage_step <= 0).
    { rewrite J_rate. pose proof (rate_pos T HT). pose proof voltage_step_pos.
      assert (1 < exp (rate T * voltage_step)).
      { rewrite <- exp_0. apply exp_increasing. apply Rmult_lt_0_compat; lra. }
      nra. }
    unfold efficiency. rewrite (Hzero HJ fuel). simpl. f_equal. field. exact Hin.
Qed.

Lemma open_circuit_voltage_rate J_sc J_0 T :
  0 < T -> rate T * open_circuit_voltage J_sc J_0 T = ln (1 + J_sc / J_0).
Proof.
  intros HT. unfold rate, open_circuit_voltage.
  pose proof e_pos. pose proof k_pos. field. repeat split; lra.
Qed.

(** X4.  For positive currents and a positive temperature the current
    vanishes at the open-circuit voltage [(k T / e) ln (1 + J_sc / J_0)];
    the sweep stops at a voltage below it, and the power it returns is
    non-negative and below [J_sc] times that voltage. *)
Theorem max_power_below_open_circuit (J_sc J_0 T : R) :
  0 < J_sc -> 0 < J_0 -> 0 < T ->
  J J_sc J_0 T (open_circuit_voltage J_sc J_0 T) = 0 /\
  (exists fuel p, max_power fuel J_sc J_0 T = Some p) /\
  (forall fuel V, test_voltage_after fuel J_sc J_0 T = Some V ->
                  0 <= V < open_circuit_voltage J_sc J_0 T) /\
  (forall fuel p, max_power fuel J_sc J_0 T = Some p ->
                  0 <= p < J_sc * open_circuit_voltage J_sc J_0 T).
Proof.
  intros HJsc HJ0 HT. pose proof (rate_pos T HT) as Hu.
  assert (Hx : 0 < J_sc / J_0) by (apply Rdiv_lt_0_compat; assumption).
  assert (Hoc : exp (rate T * open_circuit_voltage J_sc J_0 T) = 1 + J_sc / J_0).
  { rewrite open_circuit_voltage_rate by exact HT. apply exp_ln. lra. }
  assert (Hpos : 0 < open_circuit_voltage J_sc J_0 T).
  { apply Rmult_lt_reg_l with (rate T); [exact Hu|].
    rewrite Rmult_0_r, open_circuit_voltage_rate by exact HT.
    rewrite <- ln_1. apply ln_increasing; lra. }
  assert (Hbelow : forall n, first_stop (power J_sc J_0 T) n ->
                             grid n < open_circuit_voltage J_sc J_0 T /\
                             power J_sc J_0 T (grid n)
                             < J_sc * open_circuit_voltage J_sc J_0 T).
  { intros n Hn. destruct n as [|n].
    - rewrite grid_0, power_0. split; [exact Hpos|].
      apply Rmult_lt_0_compat; assumption.
    - pose proof (first_stop_dominates _ _ 1%nat Hn ltac:(lia)) as H1.
      destruct Hn as (Hacc & _). pose proof (Hacc O ltac:(lia)) as H0.
      rewrite grid_0, power_0 in H0.
      assert (HP : 0 < power J_sc J_0 T (grid (S n))) by lra.
      pose proof (grid_lt n) as Hg. pose proof (grid_nonneg n) as Hg0.
      set (V := grid (S n)) in *.
      assert (HJV : 0 < J J_sc J_0 T V).
      { unfold power in HP. destruct (Rle_dec (J J_sc J_0 T V) 0); [nra | lra]. }
      assert (HV : V < open_circuit_voltage J_sc J_0 T).
      { apply Rmult_lt_reg_l with (rate T); [exact Hu|].
        apply exp_lt_inv. rewrite Hoc. rewrite J_rate in HJV.
        apply Rmult_lt_reg_l with J_0; [exact HJ0|].
        replace (J_0 * (1 + J_sc / J_0)) with (J_0 + J_sc) by (field; lra).
        lra. }
      split; [exact HV|].
      assert (HJle : J J_sc J_0 T V <= J_sc).
      { rewrite J_rate.
        assert (1 <= exp (rate T * V)).
        { rewrite <- exp_0. left. apply exp_increasing.
          apply Rmult_lt_0_compat; lra. }
        nra. }
      unfold power. nra. }
  split; [|split; [|split]].
  - rewrite J_rate, Hoc. field. lra.
  - apply max_power_returns; assumption.
  - intros fuel V HVs. apply sweep_R_Some in HVs.
    destruct HVs as (n & _ & -> & Hn). split; [apply grid_nonneg|].
    apply Hbelow, Hn.
  - intros fuel p Hp. split; [apply (max_power_nonneg _ _ _ _ _ Hp)|].
    apply max_power_Some in Hp. destruct Hp as (n & _ & -> & Hn).
    apply Hbelow, Hn.
Qed.

(** X4 at [J_sc = J_0 = 1] and 300 K. *)
Lemma max_power_below_open_circuit_witness :
  J 1 1 300 (open_circuit_voltage 1 1 300) = 0 /\
  exists fuel p, max_power fuel 1 1 300 = Some p /\
                 0 <= p < 1 * open_circuit_voltage 1 1 300.
Proof.
  destruct (max_power_below_open_circuit 1 1 300) as (HJ & (fuel & p & Hp) & _ & Hb);
    try lra.
  split; [exact HJ|]. exists fuel, p. split; [exact Hp | exact (Hb fuel p Hp)].
Defined.

(** ** More on [slme] and [calculate_SQ] *)

(** X5.  At a positive temperature the radiative fraction is positive; it
    is at most one exactly when the direct gap is not below the indirect
    one, and then dividing by it does not lower a non-negative radiative
    saturation current.  A gap pair returned by [get_dir_indir_gap] always
    gives a fraction of at most one. *)
Theorem radiative_fraction_at_most_one (direct indirect T : R) :
  0 < T ->
  0 < slme_fr direct indirect T /\
  (indirect <= direct <-> slme_fr direct indirect T <= 1) /\
  (direct < indirect <-> 1 < slme_fr direct indirect T) /\
  (forall J_0_r, 0 <= J_0_r -> indirect <= direct ->
                 J_0_r <= J_0_r / slme_fr direct indirect T) /\
  (forall eigenvalues nelec ispin noso_direct noso_indir,
     BandGaps.get_dir_indir_gap eigenvalues nelec ispin
     = inr (noso_direct, noso_indir) ->
     slme_fr noso_direct noso_indir T <= 1).
Proof.
  intros HT. pose proof (rate_pos T HT) as Hu.
  assert (Hle : forall d i, i <= d <-> slme_fr d i T <= 1).
  { intros d i. rewrite slme_fr_rate by lra. rewrite <- exp_0. split.
    - intros H. destruct (Req_dec i d) as [->|Hne].
      + replace (rate T * (d - d)) with 0 by ring. lra.
      + left. apply exp_increasing. nra.
    - intros H. destruct (Rle_dec i d) as [Hid|Hid]; [exact Hid|].
      exfalso. assert (exp 0 < exp (rate T * (i - d)))
        by (apply exp_increasing; nra).
      lra. }
  split; [apply slme_fr_pos|]. split; [apply Hle|]. split; [|split].
  - pose proof (Hle direct indirect) as H. split; intros H'.
    + destruct (Rle_dec (slme_fr direct indirect T) 1) as [Hc|Hc]; [|lra].
      apply H in Hc. lra.
    + destruct (Rle_dec indirect direct) as [Hc|Hc]; [|lra].
      apply H in Hc. lra.
  - intros J_0_r HJ Hid. apply (proj1 (Hle direct indirect)) in Hid.
    pose proof (slme_fr_pos direct indirect T) as Hpos.
    apply Rmult_le_reg_r with (slme_fr direct indirect T); [exact Hpos|].
    replace (J_0_r / slme_fr direct indirect T * slme_fr direct indirect T)
      with J_0_r by (field; lra).
    nra.
  - intros eigenvalues nelec ispin d i Hg. apply (proj1 (Hle d i)).
    apply (BandGapsFacts.gap_order _ _ _ _ _ Hg).
Qed.

(** X5 at 300 K with a direct gap of 2 eV over an indirect gap of 1 eV. *)
Lemma radiative_fraction_at_most_one_witness :
  0 < 300 /\ 0 < slme_fr 2 1 300 <= 1.
Proof.
  assert (HT : 0 < 300) by lra.
  destruct (radiative_fraction_at_most_one 2 1 300 HT) as (Hpos & Hle & _).
  split; [exact HT|]. split; [exact Hpos|]. apply (proj1 Hle). lra.
Defined.

Lemma lit_minus_2 : -2.0 = -2.
Proof. lra. Qed.

Lemma absorptivity_bounds a d :
  0 <= a -> 0 <= d ->
  0 <= 1.0 - exp (-2.0 * a * d) < 1.
Proof.
  intros Ha Hd. rewrite lit_1, lit_minus_2.
  pose proof (exp_pos (-2 * a * d)).
  assert (Hprod : 0 <= a * d) by (apply Rmult_le_pos; assumption).
  assert (exp (-2 * a * d) <= 1).
  { replace (-2 * a * d) with (- (2 * (a * d))) by ring.
    apply exp_neg_le_1. lra. }
  lra.
Qed.

(** X6.  For a non-negative thickness the absorptivity
    [1 - exp(-2 alpha d)] has one entry per absorbance entry; an entry is
    a fraction in the closed interval from zero to one where the absorbance
    is non-negative, exactly zero where the absorbance is zero, and, in
    exact arithmetic, negative where the absorbance is negative over a
    positive thickness.  In [slme] with the cut-off switched on it is
    therefore exactly zero at every solar wavelength that is not shorter
    than the wavelength of a non-zero direct gap. *)
Theorem absorptivity_is_a_fraction (interpolated : array) (d : R) :
  0 <= d ->
  length (absorbed_by_wavelength interpolated d) = length interpolated /\
  (forall i a,
     nth_error interpolated i = Some a ->
     exists A,
       nth_error (absorbed_by_wavelength interpolated d) i = Some A /\
       (0 <= a -> 0 <= A <= 1) /\
       (a = 0 -> A = 0) /\
       (a < 0 -> 0 < d -> A < 0)) /\
  (forall data spline q i w,
     material_direct_allowed_gap q <> 0 ->
     cut_off_absorbance_below_direct_allowed_gap q = true ->
     nth_error (solar_spectra_wavelength data) i = Some w ->
     ~ w < 1e9 * ((c * h_e) / material_direct_allowed_gap q) ->
     nth_error (absorbed_by_wavelength (slme_absorbance data spline q)
                                       (thickness q)) i = Some 0).
Proof.
  intros Hd. split; [apply length_map|]. split.
  - intros i a Hi. exists (1.0 - exp (-2.0 * a * d)).
    unfold absorbed_by_wavelength. rewrite nth_error_map, Hi. simpl.
    split; [reflexivity|]. split; [|split].
    + intros Ha. destruct (absorptivity_bounds a d Ha Hd) as [H0 H1]. lra.
    + intros ->. rewrite lit_1, lit_minus_2.
      replace (-2 * 0 * d) with 0 by ring. rewrite exp_0. ring.
    + intros Ha Hpos. rewrite lit_1, lit_minus_2.
      assert (exp 0 < exp (-2 * a * d)) by (apply exp_increasing; nra).
      rewrite exp_0 in *. lra.
  - intros data spline q i w _ Hcut Hw Hge.
    unfold absorbed_by_wavelength, slme_absorbance,
      material_interpolated_absorbance.
    rewrite !nth_error_map, Hw, Hcut. simpl.
    destruct (Rlt_dec w _) as [Hlt|_]; [contradiction|]. simpl.
    f_equal. rewrite lit_1, lit_minus_2.
    replace (-2 * 0 * thickness q) with 0 by ring. rewrite exp_0. ring.
Qed.

(** X6 on two absorbance entries and the default thickness of 50 um. *)
Lemma absorptivity_is_a_fraction_witness :
  0 <= 50e-6 /\
  exists A, nth_error (absorbed_by_wavelength [40; 0] 50e-6) 0 = Some A /\
            0 <= A <= 1.
Proof.
  assert (Hd : 0 <= 50e-6) by lra. split; [exact Hd|].
  destruct (absorptivity_is_a_fraction [40; 0] 50e-6 Hd) as (_ & Hentry & _).
  destruct (Hentry 0%nat 40 eq_refl) as (A & HA & Hbound & _).
  exists A. split; [exact HA | apply Hbound; lra].
Defined.

(** X7.  At a positive temperature and wavelength the blackbody photon flux
    of [slme] and [calculate_SQ] is [2 c / lambda^4 / (exp(h c / (lambda k
    T)) - 1)], which is positive, and it is the energy form used by
    [EfficiencyCalculator.slme], taken at the photon energy [h_e c /
    lambda], times the Jacobian [h_e c / lambda^2] of the change of
    variable. *)
Theorem blackbody_forms_agree (T lam : R) :
  0 < lam -> 0 < T ->
  blackbody_photon_flux_at T lam
  = 2 * c / lam ^ 4 / (exp (h * c / (lam * k * T)) - 1) /\
  0 < blackbody_photon_flux_at T lam /\
  EfficiencyCalculator.blackbody_photon_flux_at T (h_e * c / lam)
  * (h_e * c / lam ^ 2)
  = blackbody_photon_flux_at T lam.
Proof.
  intros Hlam HT. destruct (planck_flux T lam Hlam HT) as (Hform & HE).
  split; [exact Hform|]. split; [apply blackbody_photon_flux_pos; assumption|].
  rewrite Hform. unfold EfficiencyCalculator.blackbody_photon_flux_at.
  pose proof h_pos. pose proof c_pos. pose proof k_pos. pose proof e_pos.
  replace (h_e * c / lam / k_e / T) with (h * c / (lam * k * T))
    by (unfold h_e, k_e; field; repeat split; lra).
  unfold h_e. field. repeat split; lra.
Qed.

(** X7 at 1000 nm and 300 K. *)
Lemma blackbody_forms_agree_witness :
  0 < 1000 * 1e-9 /\ 0 < 300 /\
  0 < blackbody_photon_flux_at 300 (1000 * 1e-9) /\
  EfficiencyCalculator.blackbody_photon_flux_at 300 (h_e * c / (1000 * 1e-9))
  * (h_e * c / (1000 * 1e-9) ^ 2)
  = blackbody_photon_flux_at 300 (1000 * 1e-9).
Proof.
  assert (Hlam : 0 < 1000 * 1e-9) by lra. assert (HT : 0 < 300) by lra.
  destruct (blackbody_forms_agree 300 (1000 * 1e-9) Hlam HT) as (_ & Hpos & Heq).
  split; [exact Hlam|]. split; [exact HT|]. split; [exact Hpos | exact Heq].
Defined.

(** ** [calculate_SQ] at the edges of the wavelength grid *)

Lemma searchsorted_le_length a v : (searchsorted a v <= length a)%nat.
Proof.
  induction a as [|x a IH]; simpl; [lia|].
  destruct (Rlt_dec x v); lia.
Qed.

Lemma searchsorted_all_below a v :
  (forall x, In x a -> x < v) -> searchsorted a v = length a.
Proof.
  induction a as [|x a IH]; simpl; intros Hall; [reflexivity|].
  destruct (Rlt_dec x v) as [_|Hn].
  - f_equal. apply IH. intros y Hy. apply Hall. right. exact Hy.
  - exfalso. apply Hn, Hall. left. reflexivity.
Qed.

Lemma ascending_le_last x l y : ascending (x :: l) -> In y (x :: l) -> y <= last l x.
Proof.
  revert x y. induction l as [|z l IH]; intros x y Hasc Hin.
  - destruct Hin as [->|[]]. simpl. lra.
  - destruct Hasc as [Hxz Hasc].
    assert (Hlast : last (z :: l) x = last l z).
    { destruct l as [|r l]; [reflexivity|].
      change (last (r :: l) x = last (r :: l) z). apply last_default. discriminate. }
    rewrite Hlast. destruct Hin as [<-|Hin].
    + pose proof (IH z z Hasc (or_introl eq_refl)). lra.
    + apply IH; assumption.
Qed.

Lemma interp_from_right x x0 f0 rest :
  (forall p, In p rest -> fst p <= x) ->
  interp_from x x0 f0 rest = last (map snd rest) f0.
Proof.
  revert x0 f0. induction rest as [|[x1 f1] rest IH]; intros x0 f0 Hall;
    [reflexivity|].
  simpl interp_from. destruct (Rlt_dec x x1) as [Hlt|_].
  - specialize (Hall (x1, f1) (or_introl eq_refl)). simpl in Hall. lra.
  - rewrite IH by (intros p Hp; apply Hall; right; exact Hp).
    destruct rest as [|p rest]; [reflexivity|].
    change (last (map snd (p :: rest)) f1 = last (map snd (p :: rest)) f0).
    apply last_default. discriminate.
Qed.

Lemma combine_fst_In {A B : Type} (xs : list A) (ys : list B) p :
  In p (combine xs ys) -> In (fst p) xs.
Proof. destruct p as [a b]. apply in_combine_l. Qed.

Lemma map_snd_combine {A B : Type} (xs : list A) (ys : list B) :
  length xs = length ys -> map snd (combine xs ys) = ys.
Proof.
  revert ys. induction xs as [|x xs IH]; intros [|y ys] Hlen;
    try discriminate; [reflexivity|].
  simpl. f_equal. apply IH. simpl in Hlen. lia.
Qed.

(** X8.  The three integration arrays of [calculate_SQ] always have the
    same length, one more than [bandgap_index].  For a gap wavelength
    at or below the first grid wavelength the arrays hold the boundary
    sample alone, and the solar one is the first grid flux, not an
    extrapolation; for a gap wavelength beyond the last point of an
    ascending grid they hold the whole grid followed by the boundary
    sample, the solar one repeating the last grid flux. *)
Theorem truncation_at_the_grid_edges (data : list (R * R)) (bandgap_ev T : R) :
  bandgap_ev <> 0 ->
  (length (integration_wavelength data bandgap_ev)
   = S (bandgap_index data bandgap_ev) /\
   length (integration_blackbody data bandgap_ev T)
   = S (bandgap_index data bandgap_ev) /\
   forall flux, integration_solar_flux data bandgap_ev = inr flux ->
                length flux = S (bandgap_index data bandgap_ev)) /\
  (forall first rest,
     solar_spectra_wavelength_meters data = first :: rest ->
     ascending (solar_spectra_wavelength_meters data) ->
     bandgap_wavelength bandgap_ev <= first ->
     integration_wavelength data bandgap_ev = [bandgap_wavelength bandgap_ev] /\
     integration_solar_flux data bandgap_ev
     = inr [hd 0 (solar_spectra_photon_flux data)] /\
     integration_blackbody data bandgap_ev T
     = [bandgap_blackbody bandgap_ev T]) /\
  (forall first rest,
     solar_spectra_wavelength_meters data = first :: rest ->
     ascending (solar_spectra_wavelength_meters data) ->
     last rest first < bandgap_wavelength bandgap_ev ->
     integration_wavelength data bandgap_ev
     = solar_spectra_wavelength_meters data ++ [bandgap_wavelength bandgap_ev] /\
     integration_solar_flux data bandgap_ev
     = inr (solar_spectra_photon_flux data
            ++ [last (solar_spectra_photon_flux data) 0]) /\
     integration_blackbody data bandgap_ev T
     = blackbody_photon_flux data T ++ [bandgap_blackbody bandgap_ev T]).
Proof.
  intros _. pose proof (solar_flux_length data) as Hlen.
  pose proof (searchsorted_le_length (solar_spectra_wavelength_meters data)
                (bandgap_wavelength bandgap_ev)) as Hidx.
  fold (bandgap_index data bandgap_ev) in Hidx.
  split; [|split].
  - split; [|split].
    + unfold integration_wavelength. rewrite length_app, length_firstn. simpl. lia.
    + unfold integration_blackbody, blackbody_photon_flux.
      rewrite length_app, length_firstn, length_map. simpl. lia.
    + intros flux H. unfold integration_solar_flux, bandgap_irradiance, interp in H.
      simpl in H.
      destruct (interp1 _ _ _) as [x|v]; simpl in H; [discriminate|].
      injection H as <-. rewrite length_app, length_firstn. simpl. lia.
  - intros first rest Hwl Hasc Hle.
    assert (Hzero : bandgap_index data bandgap_ev = O).
    { unfold bandgap_index. rewrite Hwl. simpl.
      destruct (Rlt_dec first _) as [H|_]; [lra | reflexivity]. }
    split; [|split].
    + unfold integration_wavelength. rewrite Hzero. reflexivity.
    + unfold integration_solar_flux, bandgap_irradiance, interp. simpl.
      rewrite Hzero. unfold interp1. rewrite Hlen, Nat.eqb_refl. simpl negb.
      rewrite Hwl in *.
      destruct (solar_spectra_photon_flux data) as [|f0 fp]; [discriminate|].
      simpl combine. cbv iota beta. simpl hd.
      destruct (Rlt_dec _ first) as [_|Hge]; [reflexivity|].
      assert (Heq : bandgap_wavelength bandgap_ev = first) by lra.
      destruct (combine rest fp) as [|[x1 f1] tl] eqn:Hc; [reflexivity|].
      simpl. destruct (Rlt_dec _ x1) as [_|Hn].
      * rewrite Heq. simpl. unfold Rminus at 3. rewrite Rplus_opp_r, Rmult_0_r, Rplus_0_l.
        reflexivity.
      * exfalso. destruct rest as [|r rest]; [discriminate|].
        destruct fp as [|f fp]; [discriminate|].
        injection Hc as -> _ _. destruct Hasc as [Hasc _]. lra.
    + unfold integration_blackbody. rewrite Hzero. reflexivity.
  - intros first rest Hwl Hasc Hlast.
    assert (Hall : forall x, In x (solar_spectra_wavelength_meters data) ->
                             x < bandgap_wavelength bandgap_ev).
    { intros x Hx. rewrite Hwl in Hx, Hasc.
      pose proof (ascending_le_last first rest x Hasc Hx). lra. }
    assert (Hfull : bandgap_index data bandgap_ev
                    = length (solar_spectra_wavelength_meters data))
      by (apply searchsorted_all_below, Hall).
    split; [|split].
    + unfold integration_wavelength. rewrite Hfull, firstn_all. reflexivity.
    + unfold integration_solar_flux, bandgap_irradiance, interp. simpl.
      rewrite Hfull, Hlen, firstn_all. unfold interp1.
      rewrite Hlen, Nat.eqb_refl. simpl negb.
      destruct (solar_spectra_wavelength_meters data) as [|x0 xs] eqn:Hx;
        [discriminate|].
      destruct (solar_spectra_photon_flux data) as [|f0 fp] eqn:Hf;
        [discriminate|].
      simpl combine. cbv iota beta.
      destruct (Rlt_dec _ x0) as [Hlt|_].
      * specialize (Hall x0 (or_introl eq_refl)). lra.
      * rewrite interp_from_right.
        -- rewrite map_snd_combine by (simpl in Hlen; lia).
           assert (Hl : last fp f0 = last (f0 :: fp) 0).
           { destruct fp as [|f1 fp]; [reflexivity|].
             change (last (f1 :: fp) f0 = last (f1 :: fp) 0).
             apply last_default. discriminate. }
           rewrite Hl. reflexivity.
        -- intros p Hp. apply combine_fst_In in Hp.
           specialize (Hall (fst p) (or_intror Hp)). lra.
    + unfold integration_blackbody, blackbody_photon_flux.
      rewrite Hfull, <- (length_map (blackbody_photon_flux_at T)), firstn_all.
      reflexivity.
Qed.

(** X8 on the two sample rows with the gap wavelength at 2000 nm. *)
Lemma truncation_at_the_grid_edges_witness :
  h_e * c / 2e-6 <> 0 /\
  length (integration_wavelength two_rows (h_e * c / 2e-6))
  = S (bandgap_index two_rows (h_e * c / 2e-6)) /\
  length (integration_blackbody two_rows (h_e * c / 2e-6) 300)
  = S (bandgap_index two_rows (h_e * c / 2e-6)).
Proof.
  assert (HE : h_e * c / 2e-6 <> 0).
  { pose proof h_e_c_pos. apply Rgt_not_eq. apply Rdiv_lt_0_compat; lra. }
  destruct (truncation_at_the_grid_edges two_rows (h_e * c / 2e-6) 300 HE)
    as ((Hw & Hb & _) & _).
  split; [exact HE|]. split; [exact Hw | exact Hb].
Defined.

(** ** [EMRadSpectrum.from_data] on a wavelength grid *)

Lemma map2_app {A B C : Type} (f : A -> B -> C) xs xs' ys ys' :
  length xs = length ys ->
  map2 f (xs ++ xs') (ys ++ ys') = map2 f xs ys ++ map2 f xs' ys'.
Proof.
  revert ys. induction xs as [|x xs IH]; intros [|y ys] Hlen;
    try discriminate; [reflexivity|].
  simpl. f_equal. apply IH. simpl in Hlen. lia.
Qed.

Lemma rev_map2 {A B C : Type} (f : A -> B -> C) xs ys :
  length xs = length ys -> rev (map2 f xs ys) = map2 f (rev xs) (rev ys).
Proof.
  revert ys. induction xs as [|x xs IH]; intros [|y ys] Hlen;
    try discriminate; [reflexivity|].
  simpl. rewrite map2_app by (rewrite !length_rev; simpl in Hlen; lia).
  rewrite IH by (simpl in Hlen; lia). reflexivity.
Qed.

Lemma map2_ext_In {A B C : Type} (f g : A -> B -> C) xs ys :
  (forall x y, In x xs -> In y ys -> f x y = g x y) ->
  map2 f xs ys = map2 g xs ys.
Proof.
  revert ys. induction xs as [|x xs IH]; intros [|y ys] H; try reflexivity.
  simpl. f_equal.
  - apply H; left; reflexivity.
  - apply IH. intros a b Ha Hb. apply H; right; assumption.
Qed.

Lemma map2_map2_l {A B C D : Type} (f : C -> B -> D) (g : A -> B -> C) xs ys :
  map2 f (map2 g xs ys) ys = map2 (fun x y => f (g x y) y) xs ys.
Proof.
  revert ys. induction xs as [|x xs IH]; intros [|y ys]; simpl;
    try reflexivity.
  f_equal. apply IH.
Qed.

Lemma map2_map_r_same {A B C : Type} (f : A -> B -> C) (g : A -> B) xs :
  map2 f xs (map g xs) = map (fun x => f x (g x)) xs.
Proof. induction xs as [|x xs IH]; simpl; [reflexivity | f_equal; exact IH]. Qed.

Lemma map2_map_l {A A' B C : Type} (f : A -> B -> C) (g : A' -> A) xs ys :
  map2 f (map g xs) ys = map2 (fun x y => f (g x) y) xs ys.
Proof.
  revert ys. induction xs as [|x xs IH]; intros [|y ys]; simpl;
    try reflexivity.
  f_equal. apply IH.
Qed.

Lemma from_data_wavelength_flux xs ys :
  length xs = length ys ->
  from_data (xs, ys) "wavelength" "flux"
  = inr (mkSpectrum (flip (map (fun x => h_e * c / x) xs))
                    (map2 (fun s E => s * h_e * c / E ^ 2) (flip ys)
                          (flip (map (fun x => h_e * c / x) xs)))).
Proof.
  intros Hlen. unfold from_data. simpl.
  rewrite broadcast_same_length by (rewrite !flip_length, length_map; auto).
  reflexivity.
Qed.

Lemma from_data_wavelength_power xs ys :
  length xs = length ys ->
  from_data (xs, ys) "wavelength" "power"
  = inr (mkSpectrum (flip (map (fun x => h_e * c / x) xs))
                    (map2 (fun s E => s / (e * E))
                          (map2 (fun s E => s * h_e * c / E ^ 2) (flip ys)
                                (flip (map (fun x => h_e * c / x) xs)))
                          (flip (map (fun x => h_e * c / x) xs)))).
Proof.
  intros Hlen. unfold from_data. simpl.
  rewrite broadcast_same_length by (rewrite !flip_length, length_map; auto).
  simpl.
  rewrite broadcast_same_length
    by (rewrite map2_length; rewrite !flip_length, ?length_map; auto).
  reflexivity.
Qed.

Lemma round_trip_pointwise xs ys :
  length xs = length ys -> (forall x, In x xs -> x <> 0) ->
  map2 (fun s E => s * h_e * c / E ^ 2)
       (map2 (fun s E => s * h_e * c / E ^ 2) ys (map (fun x => h_e * c / x) xs))
       xs
  = ys.
Proof.
  pose proof h_e_pos as Hh. pose proof c_pos as Hc.
  revert ys. induction xs as [|x xs IH]; intros [|y ys] Hlen Hnz;
    try discriminate; [reflexivity|].
  simpl. f_equal.
  - assert (Hx : x <> 0) by (apply Hnz; left; reflexivity).
    field. repeat split; first [exact Hx | lra].
  - apply IH; [simpl in Hlen; lia|]. intros a Ha. apply Hnz. right. exact Ha.
Qed.

Lemma energy_of_energy xs :
  (forall x, In x xs -> x <> 0) ->
  map (fun x => h_e * c / x) (map (fun x => h_e * c / x) xs) = xs.
Proof.
  pose proof h_e_pos as Hh. pose proof c_pos as Hc. intros Hnz.
  rewrite map_map. rewrite <- (map_id xs) at 2. apply map_ext_in.
  intros x Hx. specialize (Hnz x Hx). field. repeat split; first [exact Hnz | lra].
Qed.

(** X9.  Converting a spectrum given on a wavelength grid is its own
    inverse: for co-indexed data on non-zero wavelengths [from_data] with
    [variable="wavelength"] and [spectrum_units="flux"] returns a spectrum
    of the same length, and applying it again to the returned energies and
    flux gives the original grid and the original spectrum back. *)
Theorem wavelength_conversion_round_trip (xs ys : array) :
  length xs = length ys -> (forall x, In x xs -> x <> 0) ->
  exists S,
    from_data (xs, ys) "wavelength" "flux" = inr S /\
    length (_energy S) = length xs /\
    length (_photon_flux S) = length xs /\
    from_data (_energy S, _photon_flux S) "wavelength" "flux"
    = inr (mkSpectrum xs ys).
Proof.
  intros Hlen Hnz. eexists. split; [apply from_data_wavelength_flux, Hlen|].
  cbn [_energy _photon_flux].
  assert (HlenE : length (flip (map (fun x => h_e * c / x) xs)) = length xs)
    by (rewrite flip_length, length_map; reflexivity).
  assert (HlenF : length (map2 (fun s E => s * h_e * c / E ^ 2) (flip ys)
                               (flip (map (fun x => h_e * c / x) xs)))
                  = length xs).
  { rewrite map2_length; rewrite !flip_length, ?length_map; auto. }
  split; [exact HlenE|]. split; [exact HlenF|].
  rewrite from_data_wavelength_flux
    by (transitivity (length xs); [exact HlenE | symmetry; exact HlenF]).
  assert (HE : flip (map (fun x => h_e * c / x)
                         (flip (map (fun x => h_e * c / x) xs))) = xs).
  { unfold flip. rewrite map_rev, rev_involutive. apply energy_of_energy, Hnz. }
  rewrite HE. f_equal. f_equal.
  unfold flip. rewrite rev_map2 by (rewrite !length_rev, length_map; auto).
  rewrite !rev_involutive. apply round_trip_pointwise; assumption.
Qed.

(** X9 on two wavelengths. *)
Lemma wavelength_conversion_round_trip_witness :
  exists S,
    from_data ([1; 2], [3; 4]) "wavelength" "flux" = inr S /\
    from_data (_energy S, _photon_flux S) "wavelength" "flux"
    = inr (mkSpectrum [1; 2] [3; 4]).
Proof.
  destruct (wavelength_conversion_round_trip [1; 2] [3; 4] eq_refl) as (S & H1 & _ & _ & H2).
  - intros x [<-|[<-|[]]]; lra.
  - exists S. split; assumption.
Defined.

Lemma ascending_snoc l x :
  ascending l -> (forall y, In y l -> y < x) -> ascending (l ++ [x]).
Proof.
  induction l as [|a l IH]; intros Hasc Hall; [exact I|].
  destruct l as [|b l].
  - simpl. split; [apply Hall; left; reflexivity | exact I].
  - destruct Hasc as [Hab Hasc]. split; [exact Hab|].
    apply IH; [exact Hasc|]. intros y Hy. apply Hall. right. exact Hy.
Qed.

Lemma descending_head_gt x l y : descending (x :: l) -> In y l -> y < x.
Proof.
  revert x. induction l as [|z l IH]; intros x Hdesc Hin; [contradiction|].
  destruct Hdesc as [Hzx Hdesc]. destruct Hin as [->|Hin]; [exact Hzx|].
  apply Rlt_trans with z; [apply IH; assumption | exact Hzx].
Qed.

Lemma descending_tail x l : descending (x :: l) -> descending l.
Proof. destruct l as [|y l]; simpl; [trivial | intros [_ H]; exact H]. Qed.

Lemma descending_rev l : descending l -> ascending (rev l).
Proof.
  induction l as [|x l IH]; intros Hdesc; [exact I|].
  simpl. apply ascending_snoc.
  - apply IH. apply descending_tail with x. exact Hdesc.
  - intros y Hy. apply in_rev in Hy. apply descending_head_gt with l; assumption.
Qed.

Lemma photon_energy_decreasing a b : 0 < a -> a < b -> h_e * c / b < h_e * c / a.
Proof.
  intros Ha Hab. pose proof h_e_c_pos as HK. unfold Rdiv.
  apply Rmult_lt_compat_l; [exact HK|].
  apply Rinv_lt_contravar; [apply Rmult_lt_0_compat; lra | exact Hab].
Qed.

Lemma photon_energies_descending xs :
  (forall x, In x xs -> 0 < x) -> ascending xs ->
  descending (map (fun x => h_e * c / x) xs).
Proof.
  induction xs as [|a xs IH]; intros Hpos Hasc; [exact I|].
  destruct xs as [|b xs]; [exact I|].
  destruct Hasc as [Hab Hasc]. split.
  - apply photon_energy_decreasing; [apply Hpos; left; reflexivity | exact Hab].
  - apply IH; [|exact Hasc]. intros y Hy. apply Hpos. right. exact Hy.
Qed.

(** X10.  On an ascending grid of positive wavelengths, [from_data] with
    [variable="wavelength"] returns, for either unit, an energy grid that is
    ascending again, positive, and as long as the data: the flip undoes the
    reversal of order caused by [h_e * c / wavelength].  With
    [variable="energy"] the grid is passed on untouched, sorted or not. *)
Theorem energy_grid_ascending (xs ys : array) (spectrum_units : string) :
  length xs = length ys -> (forall x, In x xs -> 0 < x) -> ascending xs ->
  spectrum_units = "flux"%string \/ spectrum_units = "power"%string ->
  (exists S,
     from_data (xs, ys) "wavelength" spectrum_units = inr S /\
     ascending (_energy S) /\
     (forall E, In E (_energy S) -> 0 < E) /\
     length (_energy S) = length xs /\
     length (_photon_flux S) = length xs) /\
  (exists S,
     from_data (xs, ys) "energy" spectrum_units = inr S /\ _energy S = xs).
Proof.
  intros Hlen Hpos Hasc Hunits.
  assert (HascE : ascending (flip (map (fun x => h_e * c / x) xs))).
  { apply descending_rev, photon_energies_descending; assumption. }
  assert (HposE : forall E, In E (flip (map (fun x => h_e * c / x) xs)) -> 0 < E).
  { intros E HE. unfold flip in HE. apply in_rev in HE.
    apply in_map_iff in HE. destruct HE as (x & <- & Hx).
    pose proof h_e_c_pos. apply Rdiv_lt_0_compat; [lra | apply Hpos, Hx]. }
  assert (HlenE : length (flip (map (fun x => h_e * c / x) xs)) = length xs)
    by (rewrite flip_length, length_map; reflexivity).
  assert (HlenF : length (map2 (fun s E => s * h_e * c / E ^ 2) (flip ys)
                               (flip (map (fun x => h_e * c / x) xs)))
                  = length xs).
  { rewrite map2_length; rewrite !flip_length, ?length_map; auto. }
  destruct Hunits as [-> | ->]; split.
  - eexists. split; [apply from_data_wavelength_flux, Hlen|].
    cbn [_energy _photon_flux]. repeat split; assumption.
  - eexists. split; [reflexivity | reflexivity].
  - eexists. split; [apply from_data_wavelength_power, Hlen|].
    cbn [_energy _photon_flux]. repeat split; try assumption.
    rewrite map2_length; [exact HlenF|].
    transitivity (length xs); [exact HlenF | symmetry; exact HlenE].
  - unfold from_data. simpl.
    rewrite broadcast_same_length by (symmetry; exact Hlen).
    eexists. split; reflexivity.
Qed.

(** X10 on two wavelengths given in power units. *)
Lemma energy_grid_ascending_witness :
  exists S,
    from_data ([1; 2], [3; 4]) "wavelength" "power" = inr S /\
    ascending (_energy S) /\ length (_energy S) = 2%nat.
Proof.
  destruct (energy_grid_ascending [1; 2] [3; 4] "power" eq_refl)
    as ((S & H1 & H2 & _ & H3 & _) & _).
  - intros x [<-|[<-|[]]]; lra.
  - simpl. split; [lra | exact I].
  - right. reflexivity.
  - exists S. repeat split; assumption.
Defined.

(** X11.  In exact arithmetic [get_solar_spectrum] and the spectrum that
    [EfficiencyCalculator.slme] computes inline from the same rows are the
    same: for rows with non-zero wavelengths the method returns the
    energies [solar_spectrum_energy] and a photon flux equal, as real
    numbers, to [solar_spectrum_photon_flux] of the calculator, and both
    are as long as the data.  The two flux expressions divide in a
    different order, [s * h_e * c / E^2 / (e * E)] against
    [s * h_e * c / E^3 / e], so that their binary64 values may differ in
    the last bit; the energies are computed by the same expression. *)
Theorem solar_spectrum_paths_agree (rows : list (R * R)) :
  (forall r, In r rows -> fst r <> 0) ->
  get_solar_spectrum rows
  = inr (mkSpectrum (EfficiencyCalculator.solar_spectrum_energy rows)
                    (EfficiencyCalculator.solar_spectrum_photon_flux rows)) /\
  length (EfficiencyCalculator.solar_spectrum_energy rows) = length rows /\
  length (EfficiencyCalculator.solar_spectrum_photon_flux rows) = length rows.
Proof.
  intros Hnz. pose proof h_e_pos as Hh. pose proof c_pos as Hc. pose proof e_pos as He.
  unfold get_solar_spectrum,
    EfficiencyCalculator.solar_spectrum_photon_flux,
    EfficiencyCalculator.solar_spectrum_energy,
    EfficiencyCalculator.solar_spectrum_irradiance,
    EfficiencyCalculator.solar_spectrum_wavelength.
  split; [|split].
  - rewrite from_data_wavelength_power by (rewrite !length_map; reflexivity).
    f_equal. f_equal. rewrite map2_map2_l. apply map2_ext_In.
    intros s E _ HE. unfold flip in HE. apply in_rev in HE.
    apply in_map_iff in HE. destruct HE as (w & <- & Hw).
    apply in_map_iff in Hw. destruct Hw as (r & <- & Hr).
    specialize (Hnz r Hr). field. repeat split; first [exact Hnz | lra].
  - rewrite flip_length, !length_map. reflexivity.
  - rewrite map2_length; rewrite !flip_length, !length_map; reflexivity.
Qed.

(** X11 on the two sample rows. *)
Lemma solar_spectrum_paths_agree_witness :
  get_solar_spectrum two_rows
  = inr (mkSpectrum (EfficiencyCalculator.solar_spectrum_energy two_rows)
                    (EfficiencyCalculator.solar_spectrum_photon_flux two_rows)).
Proof.
  apply (solar_spectrum_paths_agree two_rows).
  intros r [<-|[<-|[]]]; simpl; lra.
Defined.

(** ** The fill values of [EfficiencyCalculator.slme] *)

Lemma ascending_min x l : ascending (x :: l) -> fold_left Rmin l x = x.
Proof.
  revert x. induction l as [|y l IH]; intros x Hasc; [reflexivity|].
  simpl. destruct Hasc as [Hxy Hasc].
  rewrite Rmin_left by lra.
  assert (Hx : ascending (x :: l)).
  { destruct l as [|z l]; [exact I|]. destruct Hasc as [Hyz Hasc].
    split; [lra | exact Hasc]. }
  apply IH, Hx.
Qed.

Lemma ascending_max x l : ascending (x :: l) -> fold_left Rmax l x = last l x.
Proof.
  revert x. induction l as [|y l IH]; intros x Hasc; [reflexivity|].
  destruct Hasc as [Hxy Hasc]. simpl fold_left.
  rewrite Rmax_right by lra. rewrite IH by exact Hasc.
  destruct l as [|z l]; [reflexivity|].
  change (last (z :: l) y = last (z :: l) x). apply last_default. discriminate.
Qed.

(** X12.  The calculator's method interpolates over the energies
    themselves, so on an ascending energy grid its fill values sit at the
    nearest ends: a photon energy below the first tabulated energy gets the
    first absorption coefficient and one above the last tabulated energy
    gets the last, whatever the spline.  On the same data the function
    [slme], which interpolates over wavelengths, answers a wavelength beyond
    the longest tabulated one (a photon energy below the first tabulated
    energy) with the last coefficient. *)
Theorem calculator_fill_values_at_nearest_ends
        (spline : array -> array -> R -> R) (first : R) (rest absorption : array) :
  ascending (first :: rest) -> 0 < first ->
  (forall E, E < first ->
     EfficiencyCalculator.abs_coeff_function spline (first :: rest) absorption E
     = hd 0 absorption) /\
  (forall E, last rest first < E ->
     EfficiencyCalculator.abs_coeff_function spline (first :: rest) absorption E
     = last absorption 0) /\
  (forall E, 0 < E -> E < first ->
     material_absorbance_data_function spline (first :: rest) absorption
       (1e9 * c * h_e / E)
     = last absorption 0).
Proof.
  intros Hasc Hpos. split; [|split].
  - intros E HE. unfold EfficiencyCalculator.abs_coeff_function, interp1d.
    unfold list_min. rewrite ascending_min by exact Hasc.
    destruct (Rlt_dec E first) as [_|Hn]; [reflexivity | contradiction].
  - intros E HE. unfold EfficiencyCalculator.abs_coeff_function, interp1d.
    unfold list_min, list_max.
    rewrite ascending_min, ascending_max by exact Hasc.
    assert (Hfl : first <= last rest first).
    { apply ascending_le_last; [exact Hasc | left; reflexivity]. }
    destruct (Rlt_dec E first) as [Hlt|_]; [lra|].
    destruct (Rgt_dec E (last rest first)) as [_|Hn]; [reflexivity|].
    exfalso. apply Hn. exact HE.
  - intros E HE HEf. pose proof h_e_c_pos as HK.
    assert (Hx : 0 < 1e9 * c * h_e / E).
    { apply Rdiv_lt_0_compat; [|exact HE].
      replace (1e9 * c * h_e) with (1e9 * (h_e * c)) by ring.
      apply Rmult_lt_0_compat; lra. }
    assert (Hback : (c * h_e) * 10 ^ 9 / (1e9 * c * h_e / E) = E).
    { pose proof h_e_pos as Hh. pose proof c_pos as Hc.
      replace (1e9) with (10 ^ 9) by lra. field. repeat split; lra. }
    apply fill_value_below_energy_range; [discriminate | exact Hx |].
    intros x Hin. rewrite Hback.
    assert (Hfx : first <= x).
    { destruct Hin as [<-|Hin]; [lra|].
      left. apply ascending_head_lt with rest; assumption. }
    split; lra.
Qed.

(** X12 on four tabulated energies. *)
Lemma calculator_fill_values_at_nearest_ends_witness :
  EfficiencyCalculator.abs_coeff_function no_spline [1; 2; 3; 4] [10; 20; 30; 40] 0.5
  = 10 /\
  EfficiencyCalculator.abs_coeff_function no_spline [1; 2; 3; 4] [10; 20; 30; 40] 5
  = 40 /\
  material_absorbance_data_function no_spline [1; 2; 3; 4] [10; 20; 30; 40]
    (1e9 * c * h_e / 0.5)
  = 40.
Proof.
  assert (Hasc : ascending [1; 2; 3; 4]) by (simpl; repeat split; lra).
  assert (Hpos : 0 < 1) by lra.
  destruct (calculator_fill_values_at_nearest_ends no_spline 1 [2; 3; 4]
              [10; 20; 30; 40] Hasc Hpos) as (H1 & H2 & H3).
  split; [|split].
  - apply H1. lra.
  - apply H2. simpl. lra.
  - apply H3; lra.
Defined.

(** ** The dielectric tensor and the two absorption coefficients *)

Lemma map2_length_min {A B C : Type} (f : A -> B -> C) xs ys :
  length (map2 f xs ys) = Nat.min (length xs) (length ys).
Proof.
  revert ys. induction xs as [|x xs IH]; intros [|y ys]; simpl;
    try reflexivity.
  f_equal. apply IH.
Qed.

Lemma parse_rows (re im : list six) :
  traverse (fun '(real_data, imag_data) =>
              re <- to_matrix_star real_data ;;
              im <- to_matrix_star imag_data ;;
              ret (Matrix (complex_matrix re im)))
           (combine (map row_of re) (map row_of im))
  = inr (map Matrix (map2 tensor_of re im)).
Proof.
  revert im. induction re as [|r re IH]; intros [|i im]; try reflexivity.
  simpl. rewrite IH. reflexivity.
Qed.

(** X13.  The three-tuple branch of [DielTensor.parse_dielectric_data]
    pairs the real and the imaginary component lists with [zip]: it builds
    one tensor per pair, as many as the shorter list has, without comparing
    the two lengths with each other or with the number of energies, which
    are handed on as they are.  Every tensor built is symmetric. *)
Theorem parse_pairs_up_to_shorter_list (energies : list entry) (re im : list six) :
  parse_dielectric_data (PyTuple [energies; map row_of re; map row_of im])
  = inr (energies, map Matrix (map2 tensor_of re im)) /\
  DielTensor_init (PyTuple [energies; map row_of re; map row_of im])
  = inr (mkRaw energies (map Matrix (map2 tensor_of re im))) /\
  length (map2 tensor_of re im) = Nat.min (length re) (length im) /\
  (forall T, In T (map2 tensor_of re im) -> transpose3 T = T).
Proof.
  assert (H : parse_dielectric_data (PyTuple [energies; map row_of re; map row_of im])
              = inr (energies, map Matrix (map2 tensor_of re im))).
  { unfold parse_dielectric_data. rewrite parse_rows. reflexivity. }
  split; [exact H|]. split; [|split].
  - unfold DielTensor_init. rewrite H. reflexivity.
  - apply map2_length_min.
  - intros T HT. apply map2_In in HT. destruct HT as (r & i & _ & _ & ->).
    reflexivity.
Qed.

Lemma broadcast_mismatch f xs ys :
  length xs <> length ys -> length xs <> 1%nat -> length ys <> 1%nat ->
  broadcast f xs ys = inl ValueError.
Proof.
  intros Hne Hx Hy. unfold broadcast.
  destruct (Nat.eqb_spec (length xs) (length ys)) as [Heq|_]; [contradiction|].
  destruct xs as [|x [|x' xs]]; destruct ys as [|y [|y' ys]];
    simpl in *; try reflexivity; exfalso; auto.
Qed.

Lemma broadcast_single_l f x ys :
  broadcast f [x] ys = inr (map (f x) ys).
Proof.
  unfold broadcast. destruct (Nat.eqb_spec (length [x]) (length ys)) as [Heq|_];
    [|reflexivity].
  destruct ys as [|y [|y' ys]]; try discriminate Heq. reflexivity.
Qed.

Lemma broadcast_single_r f xs y :
  length xs <> 1%nat -> broadcast f xs [y] = inr (map (fun x => f x y) xs).
Proof.
  intros Hx. unfold broadcast.
  destruct (Nat.eqb_spec (length xs) (length [y])) as [Heq|_];
    [contradiction|].
  destruct xs as [|x [|x' xs]]; reflexivity.
Qed.

(** X14.  [DielTensor.absorption_coefficient] multiplies the energies with
    one value per tensor under numpy's broadcasting rules and checks
    nothing itself: when the number of energies differs from the number of
    tensors and neither is one, the product raises a [ValueError]; a single
    energy is spread over all tensors and a single tensor over all
    energies, so the result then has the length of the longer operand. *)
Theorem absorption_coefficient_shape
        (eigvals : matrix complex -> list complex) (D : DielTensor) :
  (length (energies D) <> length (dielectric_tensor D) ->
   length (energies D) <> 1%nat -> length (dielectric_tensor D) <> 1%nat ->
   absorption_coefficient eigvals D = inl ValueError) /\
  (length (energies D) = 1%nat ->
   exists l, absorption_coefficient eigvals D = inr l /\
             length l = length (dielectric_tensor D)) /\
  (length (dielectric_tensor D) = 1%nat ->
   exists l, absorption_coefficient eigvals D = inr l /\
             length l = length (energies D)).
Proof.
  destruct D as [E T]. simpl energies. simpl dielectric_tensor.
  split; [|split].
  - intros Hne HE HT. unfold absorption_coefficient. simpl energies.
    rewrite broadcast_mismatch; [reflexivity | | exact HE |];
      unfold dielectric_function; simpl dielectric_tensor;
      rewrite !length_map; assumption.
  - intros HE. destruct E as [|E0 [|E1 E]]; try discriminate HE.
    unfold absorption_coefficient. simpl energies.
    rewrite broadcast_single_l. eexists. split; [reflexivity|].
    unfold dielectric_function. simpl dielectric_tensor.
    rewrite !length_map. reflexivity.
  - intros HT. destruct T as [|T0 [|T1 T]]; try discriminate HT.
    unfold absorption_coefficient, dielectric_function.
    simpl energies. simpl dielectric_tensor. simpl map.
    destruct (Nat.eq_dec (length E) 1) as [H1|H1].
    + rewrite broadcast_same_length by exact H1.
      eexists. split; [reflexivity|].
      rewrite length_map, map2_length by exact H1. reflexivity.
    + rewrite broadcast_single_r by exact H1.
      eexists. split; [reflexivity|]. rewrite !length_map. reflexivity.
Qed.

Lemma Planck_constant_in_eV_s_pos : 0 < Planck_constant_in_eV_s.
Proof. unfold Planck_constant_in_eV_s. lra. Qed.

Lemma eV_to_recip_cm_pos : 0 < eV_to_recip_cm.
Proof.
  unfold eV_to_recip_cm. pose proof Planck_constant_in_eV_s_pos as Hp.
  pose proof c_pos as Hc. apply Rdiv_lt_0_compat; [lra|].
  apply Rmult_lt_0_compat; [apply Rmult_lt_0_compat; assumption | lra].
Qed.

Lemma eigenvalue_rows_returns matrix_eigvals (l : list six) :
  eigenvalue_rows matrix_eigvals (map row_of l)
  = inr (map (fun s => matrix_eigvals (real_matrix_of s)) l).
Proof.
  unfold eigenvalue_rows. induction l as [|s l IH]; [reflexivity|].
  simpl. simpl in IH. rewrite IH. reflexivity.
Qed.

Lemma eigenvalue_rows_error matrix_eigvals data x :
  eigenvalue_rows matrix_eigvals data = inl x -> x = TypeError.
Proof.
  unfold eigenvalue_rows. intros H.
  refine (traverse_error _ data x (fun y => y = TypeError) _ H).
  intros a y. destruct (to_matrix_star a) as [z|m] eqn:Ha; simpl.
  - intros Hy. injection Hy as <-. apply to_matrix_star_error with a. exact Ha.
  - discriminate.
Qed.

Lemma mean_axis_1_returns (rows : list array) :
  rows <> [] -> mean_axis_1 rows = inr (map mean_R rows).
Proof. destruct rows; [contradiction | reflexivity]. Qed.

(** The module-level function on well-formed, co-indexed data. *)
Lemma old_absorption_coefficient_returns matrix_eigvals Es (re im : list six) :
  re <> [] -> length re = length Es -> length im = length Es ->
  old_absorption_coefficient matrix_eigvals Es (map row_of re) (map row_of im)
  = inr (Es,
         map2 (fun E r => 2.0 * sqrt 2.0 * PI * eV_to_recip_cm * E * r) Es
              (map2 (fun e1 e2 => sqrt (- e1 + sqrt (e1 ^ 2 + e2 ^ 2)))
                    (map (fun s => mean_R (matrix_eigvals (real_matrix_of s))) re)
                    (map (fun s => mean_R (matrix_eigvals (real_matrix_of s))) im))).
Proof.
  intros Hne Hre Him. unfold old_absorption_coefficient.
  rewrite !eigenvalue_rows_returns. simpl.
  assert (Hne' : im <> []).
  { destruct im; [|discriminate]. destruct re; [contradiction|].
    simpl in *. congruence. }
  rewrite !mean_axis_1_returns by (destruct re, im; simpl; congruence).
  simpl. rewrite !map_map.
  rewrite broadcast_same_length by (rewrite !length_map; congruence).
  simpl.
  rewrite broadcast_same_length
    by (rewrite map2_length; rewrite !length_map; congruence).
  reflexivity.
Qed.

(** X15.  The module-level [absorption_coefficient] returns, for
    non-empty co-indexed data in the six-component format, the energies
    together with one coefficient per energy, and every coefficient is
    non-negative when the energies are, whatever eigenvalues the
    diagonalisation delivers and whatever the sign of the imaginary part:
    the outer square root is only ever taken of a non-negative number.
    Without any component list it raises a [ValueError], and an entry that
    is not a list of six components raises a [TypeError]. *)
Theorem old_absorption_coefficient_nonneg
        (matrix_eigvals : matrix R -> array) (Es : array) (re im : list six) :
  re <> [] -> length re = length Es -> length im = length Es ->
  (exists alpha,
     old_absorption_coefficient matrix_eigvals Es (map row_of re) (map row_of im)
     = inr (Es, alpha) /\
     length alpha = length Es /\
     ((forall E, In E Es -> 0 <= E) -> forall a, In a alpha -> 0 <= a)) /\
  (forall e1 e2, 0 <= - e1 + sqrt (e1 ^ 2 + e2 ^ 2)) /\
  old_absorption_coefficient matrix_eigvals Es [] [] = inl ValueError /\
  (forall real imag x,
     old_absorption_coefficient matrix_eigvals Es real imag = inl x ->
     x = TypeError \/ x = ValueError).
Proof.
  intros Hne Hre Him.
  assert (Harg : forall e1 e2, 0 <= - e1 + sqrt (e1 ^ 2 + e2 ^ 2)).
  { intros e1 e2.
    assert (H : e1 <= sqrt (e1 ^ 2 + e2 ^ 2)).
    { destruct (Rle_dec 0 e1) as [Hpos|Hneg].
      - rewrite <- (sqrt_pow2 e1) at 1 by exact Hpos.
        apply sqrt_le_1_alt. pose proof (pow2_ge_0 e2). lra.
      - pose proof (sqrt_pos (e1 ^ 2 + e2 ^ 2)). lra. }
    lra. }
  split; [|split; [exact Harg | split]].
  - eexists. split; [apply old_absorption_coefficient_returns; assumption|].
    split.
    + rewrite map2_length; [reflexivity|].
      rewrite map2_length; rewrite !length_map; congruence.
    + intros HE a Ha. apply map2_In in Ha.
      destruct Ha as (E & r & HinE & Hinr & ->).
      apply map2_In in Hinr. destruct Hinr as (e1 & e2 & _ & _ & ->).
      pose proof eV_to_recip_cm_pos as Hk. pose proof PI_RGT_0 as Hpi.
      pose proof (sqrt_pos 2.0) as H2. specialize (HE E HinE).
      apply Rmult_le_pos; [|apply sqrt_pos].
      apply Rmult_le_pos; [|exact HE].
      apply Rmult_le_pos; [|lra].
      apply Rmult_le_pos; [|lra].
      apply Rmult_le_pos; [rewrite lit_2; lra | exact H2].
  - reflexivity.
  - intros real imag x H. unfold old_absorption_coefficient in H.
    destruct (eigenvalue_rows matrix_eigvals real) as [y|rr] eqn:Hr; simpl in H.
    { injection H as <-. left. apply eigenvalue_rows_error in Hr. exact Hr. }
    destruct (eigenvalue_rows matrix_eigvals imag) as [y|ri] eqn:Hi; simpl in H.
    { injection H as <-. left. apply eigenvalue_rows_error in Hi. exact Hi. }
    right.
    destruct (mean_axis_1 rr) as [y|e1] eqn:H1; simpl in H.
    { injection H as <-. destruct rr; [injection H1 as <-; reflexivity | discriminate H1]. }
    destruct (mean_axis_1 ri) as [y|e2] eqn:H2; simpl in H.
    { injection H as <-. destruct ri; [injection H2 as <-; reflexivity | discriminate H2]. }
    destruct (broadcast _ e1 e2) as [y|root] eqn:Hb; simpl in H.
    { injection H as <-. unfold broadcast in Hb.
      destruct (Nat.eqb _ _); [discriminate Hb|].
      destruct e1 as [|? [|? ?]]; destruct e2 as [|? [|? ?]];
        try discriminate Hb; injection Hb as <-; reflexivity. }
    destruct (broadcast _ Es root) as [y|alpha] eqn:Ha; simpl in H.
    { injection H as <-. unfold broadcast in Ha.
      destruct (Nat.eqb _ _); [discriminate Ha|].
      destruct Es as [|? [|? ?]]; destruct root as [|? [|? ?]];
        try discriminate Ha; injection Ha as <-; reflexivity. }
    discriminate H.
Qed.

(** X15 on one energy with an isotropic tensor, the diagonal standing in
    for the eigenvalues. *)
Lemma old_absorption_coefficient_nonneg_witness :
  exists alpha,
    old_absorption_coefficient diagonal_R [1] [row_of (mkSix 1 1 1 0 0 0)]
                               [row_of (mkSix 1 1 1 0 0 0)]
    = inr ([1], alpha) /\ length alpha = 1%nat.
Proof.
  assert (Hne : [mkSix 1 1 1 0 0 0] <> []) by discriminate.
  destruct (old_absorption_coefficient_nonneg diagonal_R [1]
              [mkSix 1 1 1 0 0 0] [mkSix 1 1 1 0 0 0] Hne eq_refl eq_refl)
    as ((alpha & H1 & H2 & _) & _).
  exists alpha. split; [exact H1 | exact H2].
Defined.

(** ** The two absorption coefficients compared *)

Lemma mean_of_three zs re im :
  length zs = 3%nat -> fold_right Cadd (mkC 0 0) zs = mkC re im ->
  mean zs = mkC (re / 3) (im / 3).
Proof.
  intros Hlen Hsum. unfold mean, Cdiv_real. rewrite Hlen, Hsum. simpl Re. simpl Im.
  replace (INR 3) with 3 by (simpl; lra). reflexivity.
Qed.

Lemma mean_R_of_three row s :
  length row = 3%nat -> fold_right Rplus 0 row = s -> mean_R row = s / 3.
Proof.
  intros Hlen Hsum. unfold mean_R. rewrite Hlen, Hsum.
  replace (INR 3) with 3 by (simpl; lra). reflexivity.
Qed.

Lemma sqrt_half x : 0 <= x -> sqrt (x / 2) = sqrt x * sqrt 2 / 2.
Proof.
  intros Hx. rewrite sqrt_div_alt by lra.
  assert (H2 : sqrt 2 * sqrt 2 = 2) by (apply sqrt_sqrt; lra).
  assert (Hpos : 0 < sqrt 2) by (apply sqrt_lt_R0; lra).
  field_simplify_eq; [|lra]. rewrite <- H2 at 1. ring.
Qed.

Lemma modulus_minus_real_nonneg e1 e2 : 0 <= sqrt (e1 * e1 + e2 * e2) - e1.
Proof.
  destruct (Rle_dec 0 e1) as [Hpos|Hneg].
  - assert (H : sqrt (e1 * e1) <= sqrt (e1 * e1 + e2 * e2)).
    { apply sqrt_le_1_alt. pose proof (Rle_0_sqr e2) as H. unfold Rsqr in H. lra. }
    rewrite sqrt_square in H by exact Hpos. lra.
  - pose proof (sqrt_pos (e1 * e1 + e2 * e2)). lra.
Qed.

(** One energy sample: the old coefficient is the new one times the
    constant [h_e / (100 * Planck_constant_in_eV_s)]. *)
Lemma old_new_pointwise E e1 e2 :
  0 <= e2 ->
  2.0 * sqrt 2.0 * PI * eV_to_recip_cm * E * sqrt (- e1 + sqrt (e1 ^ 2 + e2 ^ 2))
  = 2.0 * E * Im (cmath_sqrt (mkC e1 e2)) / (hbar / e * c)
    * (h_e / (100 * Planck_constant_in_eV_s)).
Proof.
  intros He2. unfold cmath_sqrt. simpl Im at 1.
  destruct (Rle_dec 0 e2) as [_|Hn]; [|contradiction].
  simpl Im. unfold Cmod. simpl Re. simpl Im.
  replace (e1 ^ 2 + e2 ^ 2) with (e1 * e1 + e2 * e2) by ring.
  replace (- e1 + sqrt (e1 * e1 + e2 * e2))
    with (sqrt (e1 * e1 + e2 * e2) - e1) by ring.
  rewrite sqrt_half by apply modulus_minus_real_nonneg.
  set (s := sqrt (sqrt (e1 * e1 + e2 * e2) - e1)).
  rewrite !lit_2. set (r := sqrt 2).
  unfold eV_to_recip_cm, hbar, h_e. rewrite lit_1.
  replace 1e2 with 100 by lra.
  pose proof h_pos as Hh. pose proof e_pos as He. pose proof c_pos as Hc.
  pose proof Planck_constant_in_eV_s_pos as Hp. pose proof PI_RGT_0 as Hpi.
  field. repeat split; lra.
Qed.

Lemma old_new_lists (re : list six) (Es : array) (im : list six) :
  length re = length Es -> length im = length Es ->
  (forall i, In i im -> 0 <= trace_third i) ->
  map2 (fun E r => 2.0 * sqrt 2.0 * PI * eV_to_recip_cm * E * r) Es
       (map2 (fun e1 e2 => sqrt (- e1 + sqrt (e1 ^ 2 + e2 ^ 2)))
             (map trace_third re) (map trace_third im))
  = map (fun a => a * (h_e / (100 * Planck_constant_in_eV_s)))
        (map (fun x => x / (hbar / e * c))
             (map2 (fun E_i k_i => 2.0 * E_i * k_i) Es
                   (map (fun v => Im (cmath_sqrt v))
                        (map2 (fun r i => mkC (trace_third r) (trace_third i))
                              re im)))).
Proof.
  revert Es im. induction re as [|r re IH]; intros [|E Es] [|i im] Hre Him Hpos;
    try discriminate; [reflexivity|].
  cbn [map map2]. f_equal.
  - apply old_new_pointwise. apply Hpos. left. reflexivity.
  - apply IH; [simpl in Hre; lia | simpl in Him; lia |].
    intros j Hj. apply Hpos. right. exact Hj.
Qed.

(** X16.  The class method and the module-level function compute the same
    absorption coefficient in different units.  For co-indexed
    six-component data, eigenvalue routines whose three eigenvalues sum to
    the trace, and imaginary parts of non-negative trace, both return, and
    every value of the module-level function (per centimetre) is the value
    of the class method (per metre) times [h_e / (100 *
    Planck_constant_in_eV_s)], a constant that lies between 0.01000000008
    and 0.01000000009: the two differ by the unit and by the older value of
    the tabulated Planck constant only.  Both depend on the tensors through
    their traces alone.  Exact arithmetic. *)
Theorem absorption_coefficients_agree
        (eigvals : matrix complex -> list complex)
        (matrix_eigvals : matrix R -> array)
        (Es : array) (re im : list six) :
  (forall r i, length (eigvals (tensor_of r i)) = 3%nat /\
               fold_right Cadd (mkC 0 0) (eigvals (tensor_of r i))
               = mkC (xx r + yy r + zz r) (xx i + yy i + zz i)) ->
  (forall s, length (matrix_eigvals (real_matrix_of s)) = 3%nat /\
             fold_right Rplus 0 (matrix_eigvals (real_matrix_of s))
             = xx s + yy s + zz s) ->
  re <> [] -> length re = length Es -> length im = length Es ->
  (forall i, In i im -> 0 <= trace_third i) ->
  dielectric_function eigvals (mkDielTensor Es (map2 tensor_of re im))
  = map2 (fun r i => mkC (trace_third r) (trace_third i)) re im /\
  (exists new old,
     absorption_coefficient eigvals (mkDielTensor Es (map2 tensor_of re im))
     = inr new /\
     old_absorption_coefficient matrix_eigvals Es (map row_of re) (map row_of im)
     = inr (Es, old) /\
     old = map (fun a => a * (h_e / (100 * Planck_constant_in_eV_s))) new) /\
  0.01000000008 <= h_e / (100 * Planck_constant_in_eV_s) <= 0.01000000009.
Proof.
  intros Heig Hmat Hne Hre Him Hpos.
  assert (Hdf : dielectric_function eigvals (mkDielTensor Es (map2 tensor_of re im))
                = map2 (fun r i => mkC (trace_third r) (trace_third i)) re im).
  { unfold dielectric_function. simpl dielectric_tensor. rewrite map_map2.
    apply map2_ext_In. intros r i _ _. destruct (Heig r i) as (Hl & Hs).
    apply mean_of_three; assumption. }
  split; [exact Hdf|]. split.
  - exists (map (fun x => x / (hbar / e * c))
                (map2 (fun E_i k_i => 2.0 * E_i * k_i) Es
                      (map (fun v => Im (cmath_sqrt v))
                           (map2 (fun r i => mkC (trace_third r) (trace_third i))
                                 re im)))).
    exists (map2 (fun E r => 2.0 * sqrt 2.0 * PI * eV_to_recip_cm * E * r) Es
                 (map2 (fun e1 e2 => sqrt (- e1 + sqrt (e1 ^ 2 + e2 ^ 2)))
                       (map trace_third re) (map trace_third im))).
    assert (Hmean : forall l,
               map (fun s => mean_R (matrix_eigvals (real_matrix_of s))) l
               = map trace_third l).
    { intros l. apply map_ext. intros s. destruct (Hmat s) as (Hl & Hs).
      apply mean_R_of_three; assumption. }
    split; [|split].
    + unfold absorption_coefficient. rewrite Hdf. cbn [energies].
      rewrite broadcast_same_length
        by (rewrite length_map, map2_length; congruence).
      reflexivity.
    + rewrite old_absorption_coefficient_returns by assumption.
      rewrite !Hmean. reflexivity.
    + apply old_new_lists; assumption.
  - unfold h_e, h, e, Planck_constant_in_eV_s. lra.
Qed.

(** X16 on one energy with the isotropic tensor [(1 + i) I], the diagonals
    standing in for the eigenvalues. *)
Lemma absorption_coefficients_agree_witness :
  exists new old,
    absorption_coefficient diagonal
      (mkDielTensor [1] (map2 tensor_of [mkSix 1 1 1 0 0 0] [mkSix 1 1 1 0 0 0]))
    = inr new /\
    old_absorption_coefficient diagonal_R [1] (map row_of [mkSix 1 1 1 0 0 0])
                               (map row_of [mkSix 1 1 1 0 0 0])
    = inr ([1], old) /\
    old = map (fun a => a * (h_e / (100 * Planck_constant_in_eV_s))) new.
Proof.
  refine (proj1 (proj2 (absorption_coefficients_agree diagonal diagonal_R [1]
            [mkSix 1 1 1 0 0 0] [mkSix 1 1 1 0 0 0] _ _ _ eq_refl eq_refl _))).
  - intros r i. split; [reflexivity|]. simpl. unfold Cadd. simpl. f_equal; ring.
  - intros s. split; [reflexivity|]. simpl. ring.
  - discriminate.
  - intros i [<-|[]]. unfold trace_third. simpl. lra.
Defined.

(** ** What the sweep returns, compared over the grid and between diodes *)

Lemma grid_le m n : (m <= n)%nat -> grid m <= grid n.
Proof.
  intros H. unfold grid. pose proof voltage_step_pos as Hs.
  apply Rmult_le_compat_r; [lra | apply le_INR, H].
Qed.

Lemma grid_lt_lt m n : (m < n)%nat -> grid m < grid n.
Proof.
  intros H. unfold grid. pose proof voltage_step_pos as Hs.
  apply Rmult_lt_compat_r; [lra | apply lt_INR, H].
Qed.

Lemma unimodal_stop_dominates_grid P Vm n :
  unimodal P Vm -> first_stop P n -> forall m, P (grid m) <= P (grid n).
Proof.
  intros (H0 & Hup & Hdown) Hstop m.
  destruct (Nat.le_gt_cases m n) as [Hle|Hgt].
  - apply first_stop_dominates; assumption.
  - destruct Hstop as (Hacc & Hstop).
    assert (HVm : Vm < grid (S n)).
    { destruct (Rlt_dec Vm (grid (S n))) as [H|H]; [exact H|]. exfalso.
      assert (P (grid n) < P (grid (S n)))
        by (apply Hup; [apply grid_nonneg | apply grid_lt | lra]).
      lra. }
    destruct (Nat.eq_dec m (S n)) as [->|Hne]; [exact Hstop|].
    assert (P (grid m) < P (grid (S n)))
      by (apply Hdown; [lra | apply grid_lt_lt; lia]).
    lra.
Qed.

(** X17.  For positive [J_sc], [J_0] and temperature the loop finds the
    best voltage of its grid: it returns, the returned power is the same for
    every budget of iterations that suffices, and no grid voltage [n *
    0.001], before or after the stop, has a larger power. *)
Theorem sweep_returns_the_grid_maximum (J_sc J_0 T : R) :
  0 < J_sc -> 0 < J_0 -> 0 < T ->
  exists fuel p,
    max_power fuel J_sc J_0 T = Some p /\
    (forall fuel' p', max_power fuel' J_sc J_0 T = Some p' -> p' = p) /\
    (forall m, power J_sc J_0 T (grid m) <= p).
Proof.
  intros Hsc H0 HT.
  destruct (max_power_returns J_sc J_0 T Hsc H0 HT) as (fuel & p & Hp).
  destruct (diode_unimodal J_sc J_0 T Hsc H0 HT) as (Vm & _ & _ & Huni).
  exists fuel, p. split; [exact Hp|].
  apply max_power_Some in Hp. destruct Hp as (n & _ & -> & Hstop).
  split.
  - intros fuel' p' Hp'. apply max_power_Some in Hp'.
    destruct Hp' as (n' & _ & -> & Hstop').
    rewrite (first_stop_unique _ n n' Hstop Hstop'). reflexivity.
  - intros m. apply unimodal_stop_dominates_grid with Vm; assumption.
Qed.

(** X17 for the diode with [J_sc = 400], [J_0 = 1] at 300 K. *)
Lemma sweep_returns_the_grid_maximum_witness :
  exists fuel p,
    max_power fuel 400 1 300 = Some p /\
    (forall m, power 400 1 300 (grid m) <= p).
Proof.
  destruct (sweep_returns_the_grid_maximum 400 1 300) as (fuel & p & H1 & _ & H2);
    [lra | lra | lra |].
  exists fuel, p. split; assumption.
Defined.

Lemma power_monotone J_sc J_sc' J_0 J_0' T V :
  J_sc <= J_sc' -> J_0' <= J_0 -> 0 < T -> 0 <= V ->
  power J_sc J_0 T V <= power J_sc' J_0' T V.
Proof.
  intros Hsc H0 HT HV. unfold power, J.
  apply Rmult_le_compat_r; [exact HV|].
  assert (Hexp : 0 <= exp (e * V / (k * T)) - 1.0).
  { rewrite lit_1.
    assert (Harg : 0 <= e * V / (k * T)).
    { pose proof e_pos. pose proof k_pos.
      apply Rmult_le_pos; [apply Rmult_le_pos; lra|].
      left. apply Rinv_0_lt_compat. apply Rmult_lt_0_compat; lra. }
    pose proof (exp_ineq1_le (e * V / (k * T))). lra. }
  assert (J_0' * (exp (e * V / (k * T)) - 1.0)
          <= J_0 * (exp (e * V / (k * T)) - 1.0))
    by (apply Rmult_le_compat_r; assumption).
  lra.
Qed.

Lemma max_power_monotone J_sc J_sc' J_0 J_0' T fuel fuel' p p' :
  0 < J_sc -> J_sc <= J_sc' -> 0 < J_0' -> J_0' <= J_0 -> 0 < T ->
  max_power fuel J_sc J_0 T = Some p ->
  max_power fuel' J_sc' J_0' T = Some p' ->
  p <= p'.
Proof.
  intros Hsc Hsc' H0' H0 HT Hp Hp'.
  apply max_power_Some in Hp. destruct Hp as (n & _ & -> & _).
  apply max_power_Some in Hp'. destruct Hp' as (n' & _ & -> & Hstop').
  destruct (diode_unimodal J_sc' J_0' T) as (Vm & _ & _ & Huni); try lra.
  apply Rle_trans with (power J_sc' J_0' T (grid n)).
  - apply power_monotone; try assumption. apply grid_nonneg.
  - apply unimodal_stop_dominates_grid with Vm; assumption.
Qed.

(** X18.  The returned maximum power grows with the short-circuit current
    and falls with the saturation current: for positive currents and
    temperature, a diode with at least the [J_sc] and at most the [J_0] of
    another returns at least its maximum power.  Hence, with [J_0 = J_0_r /
    fr] as [slme] forms it, a larger fraction of radiative recombination
    never lowers the efficiency. *)
Theorem efficiency_grows_with_radiative_fraction (J_sc J_0_r T power_in : R) :
  0 < J_sc -> 0 < J_0_r -> 0 < T -> 0 < power_in ->
  (forall J_sc' J_0 J_0' fuel fuel' p p',
     J_sc <= J_sc' -> 0 < J_0' -> J_0' <= J_0 ->
     max_power fuel J_sc J_0 T = Some p ->
     max_power fuel' J_sc' J_0' T = Some p' ->
     p <= p') /\
  (forall fr fr',
     0 < fr -> fr <= fr' ->
     (exists fuel eff, efficiency fuel J_sc (J_0_r / fr) T power_in = Some eff) /\
     (exists fuel eff, efficiency fuel J_sc (J_0_r / fr') T power_in = Some eff) /\
     forall fuel fuel' eff eff',
       efficiency fuel J_sc (J_0_r / fr) T power_in = Some eff ->
       efficiency fuel' J_sc (J_0_r / fr') T power_in = Some eff' ->
       eff <= eff').
Proof.
  intros Hsc H0r HT Hpin. split.
  - intros J_sc' J_0 J_0' fuel fuel' p p' Hsc' H0' H0 Hp Hp'.
    apply (max_power_monotone J_sc J_sc' J_0 J_0' T fuel fuel'); assumption.
  - intros fr fr' Hfr Hfr'.
    assert (HJ : 0 < J_0_r / fr) by (apply Rdiv_lt_0_compat; lra).
    assert (HJ' : 0 < J_0_r / fr') by (apply Rdiv_lt_0_compat; lra).
    assert (Hle : J_0_r / fr' <= J_0_r / fr).
    { unfold Rdiv. apply Rmult_le_compat_l; [lra|].
      apply Rinv_le_contravar; assumption. }
    split; [|split].
    + destruct (max_power_returns J_sc (J_0_r / fr) T Hsc HJ HT) as (fuel & p & Hp).
      exists fuel, (p / power_in). apply efficiency_Some. exists p. split; auto.
    + destruct (max_power_returns J_sc (J_0_r / fr') T Hsc HJ' HT) as (fuel & p & Hp).
      exists fuel, (p / power_in). apply efficiency_Some. exists p. split; auto.
    + intros fuel fuel' eff eff' He He'.
      apply efficiency_Some in He. destruct He as (p & Hp & ->).
      apply efficiency_Some in He'. destruct He' as (p' & Hp' & ->).
      unfold Rdiv. apply Rmult_le_compat_r.
      * left. apply Rinv_0_lt_compat. exact Hpin.
      * apply (max_power_monotone J_sc J_sc (J_0_r / fr) (J_0_r / fr') T fuel fuel');
          try assumption. lra.
Qed.

(** X18 for [J_sc = 400], [J_0_r = 1] at 300 K, with the fractions 1/2
    and 1. *)
Lemma efficiency_grows_with_radiative_fraction_witness :
  (exists fuel eff, efficiency fuel 400 (1 / (1 / 2)) 300 1000 = Some eff) /\
  (forall fuel fuel' eff eff',
     efficiency fuel 400 (1 / (1 / 2)) 300 1000 = Some eff ->
     efficiency fuel' 400 (1 / 1) 300 1000 = Some eff' ->
     eff <= eff').
Proof.
  destruct (efficiency_grows_with_radiative_fraction 400 1 300 1000) as (_ & H);
    [lra | lra | lra | lra |].
  destruct (H (1 / 2) 1) as (H1 & _ & H3); [lra | lra |].
  split; [exact H1 | exact H3].
Defined.

(** ** Where [exp] leaves the range of a double

    [1 + y <= exp y] at [y = x / 2^32] and thirty-two squarings, each
    rounded down to forty digits, bound [exp x] from below; the same at
    [- x] bounds it from above. *)

Lemma exp_double_lower c c' x : 0 <= c -> c <= exp x -> c' <= c * c -> forall y, y = x + x -> c' <= exp y.
Proof.
  intros Hc Hx Hsq y ->. rewrite exp_plus.
  apply Rle_trans with (c * c); [exact Hsq|].
  apply Rmult_le_compat; assumption.
Qed.

Lemma exp_709_8_lower : 1828932943733900993479615480668339506671e269 <= exp 709.8.
Proof.
  assert (H0 : 1000000165263190865516662597656250000000e-39 <= exp (709.8 / 4294967296)).
  { eapply Rle_trans; [|apply exp_ineq1_le]. lra. }
  assert (H1 : 1000000330526409042955580247502567203810e-39 <= exp (709.8 / 2147483648)).
  { apply (exp_double_lower 1000000165263190865516662597656250000000e-39 _ (709.8 / 4294967296)); [lra | exact H0 | lra | lra]. }
  clear H0.
  assert (H2 : 1000000661052927333618235326193507689511e-39 <= exp (709.8 / 1073741824)).
  { apply (exp_double_lower 1000000330526409042955580247502567203810e-39 _ (709.8 / 2147483648)); [lra | exact H1 | lra | lra]. }
  clear H1.
  assert (H3 : 1000001322106291658209206998338052590184e-39 <= exp (709.8 / 536870912)).
  { apply (exp_double_lower 1000000661052927333618235326193507689511e-39 _ (709.8 / 1073741824)); [lra | exact H2 | lra | lra]. }
  clear H2.
  assert (H4 : 1000002644214331281464856218424271667659e-39 <= exp (709.8 / 268435456)).
  { apply (exp_double_lower 1000001322106291658209206998338052590184e-39 _ (709.8 / 536870912)); [lra | exact H3 | lra | lra]. }
  clear H3.
  assert (H5 : 1000005288435654432359466721222593781634e-39 <= exp (709.8 / 134217728)).
  { apply (exp_double_lower 1000002644214331281464856218424271667659e-39 _ (709.8 / 268435456)); [lra | exact H4 | lra | lra]. }
  clear H4.
  assert (H6 : 1000010576899276416390004860599680378063e-39 <= exp (709.8 / 67108864)).
  { apply (exp_double_lower 1000005288435654432359466721222593781634e-39 _ (709.8 / 134217728)); [lra | exact H5 | lra | lra]. }
  clear H5.
  assert (H7 : 1000021153910423631083467275657421563242e-39 <= exp (709.8 / 33554432)).
  { apply (exp_double_lower 1000010576899276416390004860599680378063e-39 _ (709.8 / 67108864)); [lra | exact H6 | lra | lra]. }
  clear H6.
  assert (H8 : 1000042308268335188377942356516612410715e-39 <= exp (709.8 / 16777216)).
  { apply (exp_double_lower 1000021153910423631083467275657421563242e-39 _ (709.8 / 33554432)); [lra | exact H7 | lra | lra]. }
  clear H7.
  assert (H9 : 1000084618326659946278188274325489641826e-39 <= exp (709.8 / 8388608)).
  { apply (exp_double_lower 1000042308268335188377942356516612410715e-39 _ (709.8 / 16777216)); [lra | exact H8 | lra | lra]. }
  clear H8.
  assert (H10 : 1000169243813581099285751604624241881632e-39 <= exp (709.8 / 4194304)).
  { apply (exp_double_lower 1000084618326659946278188274325489641826e-39 _ (709.8 / 8388608)); [lra | exact H9 | lra | lra]. }
  clear H9.
  assert (H11 : 1000338516270630634045390251281138614545e-39 <= exp (709.8 / 2097152)).
  { apply (exp_double_lower 1000169243813581099285751604624241881632e-39 _ (709.8 / 4194304)); [lra | exact H10 | lra | lra]. }
  clear H10.
  assert (H12 : 1000677147134526749763450461298692541893e-39 <= exp (709.8 / 1048576)).
  { apply (exp_double_lower 1000338516270630634045390251281138614545e-39 _ (709.8 / 2097152)); [lra | exact H11 | lra | lra]. }
  clear H11.
  assert (H13 : 1001354752797295297315042511378337154048e-39 <= exp (709.8 / 524288)).
  { apply (exp_double_lower 1000677147134526749763450461298692541893e-39 _ (709.8 / 1048576)); [lra | exact H12 | lra | lra]. }
  clear H12.
  assert (H14 : 1002711340949732374063021110822105992581e-39 <= exp (709.8 / 262144)).
  { apply (exp_double_lower 1001354752797295297315042511378337154048e-39 _ (709.8 / 524288)); [lra | exact H13 | lra | lra]. }
  clear H13.
  assert (H15 : 1005430033269210443778217867304827057276e-39 <= exp (709.8 / 131072)).
  { apply (exp_double_lower 1002711340949732374063021110822105992581e-39 _ (709.8 / 262144)); [lra | exact H14 | lra | lra]. }
  clear H14.
  assert (H16 : 1010889551799725619816230733050228781733e-39 <= exp (709.8 / 65536)).
  { apply (exp_double_lower 1005430033269210443778217867304827057276e-39 _ (709.8 / 131072)); [lra | exact H15 | lra | lra]. }
  clear H15.
  assert (H17 : 1021897685937850147118013443481547685363e-39 <= exp (709.8 / 32768)).
  { apply (exp_double_lower 1010889551799725619816230733050228781733e-39 _ (709.8 / 65536)); [lra | exact H16 | lra | lra]. }
  clear H16.
  assert (H18 : 1044274880525133014313177617834623299427e-39 <= exp (709.8 / 16384)).
  { apply (exp_double_lower 1021897685937850147118013443481547685363e-39 _ (709.8 / 32768)); [lra | exact H17 | lra | lra]. }
  clear H17.
  assert (H19 : 1090510026095780831287628361287518220548e-39 <= exp (709.8 / 8192)).
  { apply (exp_double_lower 1044274880525133014313177617834623299427e-39 _ (709.8 / 16384)); [lra | exact H18 | lra | lra]. }
  clear H18.
  assert (H20 : 1189212117015420589644720403134126904339e-39 <= exp (709.8 / 4096)).
  { apply (exp_double_lower 1090510026095780831287628361287518220548e-39 _ (709.8 / 8192)); [lra | exact H19 | lra | lra]. }
  clear H19.
  assert (H21 : 1414225459256298393113810251553447839840e-39 <= exp (709.8 / 2048)).
  { apply (exp_double_lower 1189212117015420589644720403134126904339e-39 _ (709.8 / 4096)); [lra | exact H20 | lra | lra]. }
  clear H20.
  assert (H22 : 2000033649608688106350370350796881686833e-39 <= exp (709.8 / 1024)).
  { apply (exp_double_lower 1414225459256298393113810251553447839840e-39 _ (709.8 / 2048)); [lra | exact H21 | lra | lra]. }
  clear H21.
  assert (H23 : 4000134599567048590264163781223794442448e-39 <= exp (709.8 / 512)).
  { apply (exp_double_lower 2000033649608688106350370350796881686833e-39 _ (709.8 / 1024)); [lra | exact H22 | lra | lra]. }
  clear H22.
  assert (H24 : 1600107681465343217178125628587250892201e-38 <= exp (709.8 / 256)).
  { apply (exp_double_lower 4000134599567048590264163781223794442448e-39 _ (709.8 / 512)); [lra | exact H23 | lra | lra]. }
  clear H23.
  assert (H25 : 2560344592284396273432484236744514857675e-37 <= exp (709.8 / 128)).
  { apply (exp_double_lower 1600107681465343217178125628587250892201e-38 _ (709.8 / 256)); [lra | exact H24 | lra | lra]. }
  clear H24.
  assert (H26 : 6555364431239951385416509825690416942333e-35 <= exp (709.8 / 64)).
  { apply (exp_double_lower 2560344592284396273432484236744514857675e-37 _ (709.8 / 128)); [lra | exact H25 | lra | lra]. }
  clear H25.
  assert (H27 : 4297280282636589131531469793034924092691e-30 <= exp (709.8 / 32)).
  { apply (exp_double_lower 6555364431239951385416509825690416942333e-35 _ (709.8 / 64)); [lra | exact H26 | lra | lra]. }
  clear H26.
  assert (H28 : 1846661782753720336973662493055919143045e-20 <= exp (709.8 / 16)).
  { apply (exp_double_lower 4297280282636589131531469793034924092691e-30 _ (709.8 / 32)); [lra | exact H27 | lra | lra]. }
  clear H27.
  assert (H29 : 3410159739883148605778942479354103880468e-1 <= exp (709.8 / 8)).
  { apply (exp_double_lower 1846661782753720336973662493055919143045e-20 _ (709.8 / 16)); [lra | exact H28 | lra | lra]. }
  clear H28.
  assert (H30 : 1162918945151990375974261621406969750883e38 <= exp (709.8 / 4)).
  { apply (exp_double_lower 3410159739883148605778942479354103880468e-1 _ (709.8 / 8)); [lra | exact H29 | lra | lra]. }
  clear H29.
  assert (H31 : 1352380472993418000379384418229962761008e115 <= exp (709.8 / 2)).
  { apply (exp_double_lower 1162918945151990375974261621406969750883e38 _ (709.8 / 4)); [lra | exact H30 | lra | lra]. }
  clear H30.
  assert (H32 : 1828932943733900993479615480668339506671e269 <= exp (709.8)).
  { apply (exp_double_lower 1352380472993418000379384418229962761008e115 _ (709.8 / 2)); [lra | exact H31 | lra | lra]. }
  clear H31.
  exact H32.
Qed.

Lemma exp_minus_709_78_lower : 5577468984879754082880943172042127055324e-348 <= exp (- 709.78).
Proof.
  assert (H0 : 9999998347414657473564147949218750000000e-40 <= exp (- 709.78 / 4294967296)).
  { eapply Rle_trans; [|apply exp_ineq1_le]. lra. }
  assert (H1 : 9999996694829588050959729220168448193817e-40 <= exp (- 709.78 / 2147483648)).
  { apply (exp_double_lower 9999998347414657473564147949218750000000e-40 _ (- 709.78 / 4294967296)); [lra | exact H0 | lra | lra]. }
  clear H0.
  assert (H2 : 9999993389660268517064660779193452240805e-40 <= exp (- 709.78 / 1073741824)).
  { apply (exp_double_lower 9999996694829588050959729220168448193817e-40 _ (- 709.78 / 2147483648)); [lra | exact H1 | lra | lra]. }
  clear H1.
  assert (H3 : 9999986779324906693265883746955098856285e-40 <= exp (- 709.78 / 536870912)).
  { apply (exp_double_lower 9999993389660268517064660779193452240805e-40 _ (- 709.78 / 1073741824)); [lra | exact H2 | lra | lra]. }
  clear H2.
  assert (H4 : 9999973558667292011524045596193291120593e-40 <= exp (- 709.78 / 268435456)).
  { apply (exp_double_lower 9999986779324906693265883746955098856285e-40 _ (- 709.78 / 536870912)); [lra | exact H3 | lra | lra]. }
  clear H3.
  assert (H5 : 9999947117404498430585545311488232032660e-40 <= exp (- 709.78 / 134217728)).
  { apply (exp_double_lower 9999973558667292011524045596193291120593e-40 _ (- 709.78 / 268435456)); [lra | exact H4 | lra | lra]. }
  clear H4.
  assert (H6 : 9999894235088653751869351589932539500757e-40 <= exp (- 709.78 / 67108864)).
  { apply (exp_double_lower 9999947117404498430585545311488232032660e-40 _ (- 709.78 / 134217728)); [lra | exact H5 | lra | lra]. }
  clear H5.
  assert (H7 : 9999788471295929150946675836242948414558e-40 <= exp (- 709.78 / 33554432)).
  { apply (exp_double_lower 9999894235088653751869351589932539500757e-40 _ (- 709.78 / 67108864)); [lra | exact H6 | lra | lra]. }
  clear H6.
  assert (H8 : 9999576947066297566482634958845305947387e-40 <= exp (- 709.78 / 16777216)).
  { apply (exp_double_lower 9999788471295929150946675836242948414558e-40 _ (- 709.78 / 33554432)); [lra | exact H7 | lra | lra]. }
  clear H7.
  assert (H9 : 9999153912029973604388830818789314958361e-40 <= exp (- 709.78 / 8388608)).
  { apply (exp_double_lower 9999576947066297566482634958845305947387e-40 _ (- 709.78 / 16777216)); [lra | exact H8 | lra | lra]. }
  clear H8.
  assert (H10 : 9998307895646432511116353451856674167751e-40 <= exp (- 709.78 / 4194304)).
  { apply (exp_double_lower 9999153912029973604388830818789314958361e-40 _ (- 709.78 / 8388608)); [lra | exact H9 | lra | lra]. }
  clear H9.
  assert (H11 : 9996616077614579358437649895404636990884e-40 <= exp (- 709.78 / 2097152)).
  { apply (exp_double_lower 9998307895646432511116353451856674167751e-40 _ (- 709.78 / 4194304)); [lra | exact H10 | lra | lra]. }
  clear H10.
  assert (H12 : 9993233300322229771967802088081635847452e-40 <= exp (- 709.78 / 1048576)).
  { apply (exp_double_lower 9996616077614579358437649895404636990884e-40 _ (- 709.78 / 2097152)); [lra | exact H11 | lra | lra]. }
  clear H11.
  assert (H13 : 9986471179466912457506392473479629467083e-40 <= exp (- 709.78 / 524288)).
  { apply (exp_double_lower 9993233300322229771967802088081635847452e-40 _ (- 709.78 / 1048576)); [lra | exact H12 | lra | lra]. }
  clear H12.
  assert (H14 : 9972960661832326564122530853230834179050e-40 <= exp (- 709.78 / 262144)).
  { apply (exp_double_lower 9986471179466912457506392473479629467083e-40 _ (- 709.78 / 524288)); [lra | exact H13 | lra | lra]. }
  clear H13.
  assert (H15 : 9945994436245507708389135587540376550388e-40 <= exp (- 709.78 / 131072)).
  { apply (exp_double_lower 9972960661832326564122530853230834179050e-40 _ (- 709.78 / 262144)); [lra | exact H14 | lra | lra]. }
  clear H14.
  assert (H16 : 9892280532582659469932718018793083702755e-40 <= exp (- 709.78 / 65536)).
  { apply (exp_double_lower 9945994436245507708389135587540376550388e-40 _ (- 709.78 / 131072)); [lra | exact H15 | lra | lra]. }
  clear H15.
  assert (H17 : 9785721413531386488674122367220714003100e-40 <= exp (- 709.78 / 32768)).
  { apply (exp_double_lower 9892280532582659469932718018793083702755e-40 _ (- 709.78 / 65536)); [lra | exact H16 | lra | lra]. }
  clear H16.
  assert (H18 : 9576034358324671685087685405613339381342e-40 <= exp (- 709.78 / 16384)).
  { apply (exp_double_lower 9785721413531386488674122367220714003100e-40 _ (- 709.78 / 32768)); [lra | exact H17 | lra | lra]. }
  clear H17.
  assert (H19 : 9170043403181460658704427507679468511947e-40 <= exp (- 709.78 / 8192)).
  { apply (exp_double_lower 9576034358324671685087685405613339381342e-40 _ (- 709.78 / 16384)); [lra | exact H18 | lra | lra]. }
  clear H18.
  assert (H20 : 8408969601623182464154606795803312885566e-40 <= exp (- 709.78 / 4096)).
  { apply (exp_double_lower 9170043403181460658704427507679468511947e-40 _ (- 709.78 / 8192)); [lra | exact H19 | lra | lra]. }
  clear H19.
  assert (H21 : 7071076976102274399529307780366595264357e-40 <= exp (- 709.78 / 2048)).
  { apply (exp_double_lower 8408969601623182464154606795803312885566e-40 _ (- 709.78 / 4096)); [lra | exact H20 | lra | lra]. }
  clear H20.
  assert (H22 : 5000012960196368487950228701873487369813e-40 <= exp (- 709.78 / 1024)).
  { apply (exp_double_lower 7071076976102274399529307780366595264357e-40 _ (- 709.78 / 2048)); [lra | exact H21 | lra | lra]. }
  clear H21.
  assert (H23 : 2500012960213165156941205527172268537380e-40 <= exp (- 709.78 / 512)).
  { apply (exp_double_lower 5000012960196368487950228701873487369813e-40 _ (- 709.78 / 1024)); [lra | exact H22 | lra | lra]. }
  clear H22.
  assert (H24 : 6250064801233792909992334936042375775041e-41 <= exp (- 709.78 / 256)).
  { apply (exp_double_lower 2500012960213165156941205527172268537380e-40 _ (- 709.78 / 512)); [lra | exact H23 | lra | lra]. }
  clear H23.
  assert (H25 : 3906331001962161127598756665188476217678e-42 <= exp (- 709.78 / 128)).
  { apply (exp_double_lower 6250064801233792909992334936042375775041e-41 _ (- 709.78 / 256)); [lra | exact H24 | lra | lra]. }
  clear H24.
  assert (H26 : 1525942189689070168331803373602435521904e-44 <= exp (- 709.78 / 64)).
  { apply (exp_double_lower 3906331001962161127598756665188476217678e-42 _ (- 709.78 / 128)); [lra | exact H25 | lra | lra]. }
  clear H25.
  assert (H27 : 2328499566273074203552478733349790388943e-49 <= exp (- 709.78 / 32)).
  { apply (exp_double_lower 1525942189689070168331803373602435521904e-44 _ (- 709.78 / 64)); [lra | exact H26 | lra | lra]. }
  clear H26.
  assert (H28 : 5421910230133894684990054298304253882562e-59 <= exp (- 709.78 / 16)).
  { apply (exp_double_lower 2328499566273074203552478733349790388943e-49 _ (- 709.78 / 32)); [lra | exact H27 | lra | lra]. }
  clear H27.
  assert (H29 : 2939711054363058282459833348313119742856e-78 <= exp (- 709.78 / 8)).
  { apply (exp_double_lower 5421910230133894684990054298304253882562e-59 _ (- 709.78 / 16)); [lra | exact H28 | lra | lra]. }
  clear H28.
  assert (H30 : 8641901083144363808518664126530504857700e-117 <= exp (- 709.78 / 4)).
  { apply (exp_double_lower 2939711054363058282459833348313119742856e-78 _ (- 709.78 / 8)); [lra | exact H29 | lra | lra]. }
  clear H29.
  assert (H31 : 7468245433085172839538773719076445144561e-194 <= exp (- 709.78 / 2)).
  { apply (exp_double_lower 8641901083144363808518664126530504857700e-117 _ (- 709.78 / 4)); [lra | exact H30 | lra | lra]. }
  clear H30.
  assert (H32 : 5577468984879754082880943172042127055324e-348 <= exp (- 709.78)).
  { apply (exp_double_lower 7468245433085172839538773719076445144561e-194 _ (- 709.78 / 2)); [lra | exact H31 | lra | lra]. }
  clear H31.
  exact H32.
Qed.

Lemma MAX_lt_exp_709_8 : Binary64.MAX < exp 709.8.
Proof.
  eapply Rlt_le_trans; [|apply exp_709_8_lower]. unfold Binary64.MAX. lra.
Qed.

Lemma exp_709_78_le_MAX : exp 709.78 <= Binary64.MAX.
Proof.
  pose proof exp_minus_709_78_lower as H. pose proof (exp_pos 709.78) as Hp.
  assert (Hinv : exp 709.78 * exp (- 709.78) = 1).
  { rewrite <- exp_plus. replace (709.78 + - 709.78) with 0 by lra. apply exp_0. }
  assert (Hm : 1 <= 5577468984879754082880943172042127055324e-348 * Binary64.MAX)
    by (unfold Binary64.MAX; lra).
  assert (Hb : exp 709.78 * 5577468984879754082880943172042127055324e-348 <= 1).
  { rewrite <- Hinv. apply Rmult_le_compat_l; lra. }
  set (b := 5577468984879754082880943172042127055324e-348) in *.
  assert (Hbpos : 0 < b) by (unfold b; lra).
  apply Rmult_le_reg_r with b; [exact Hbpos|].
  replace (Binary64.MAX * b) with (b * Binary64.MAX) by ring. lra.
Qed.

(** ** The sweep in binary64 *)


Lemma MAX_big : 1000 < Binary64.MAX.
Proof. unfold Binary64.MAX. lra. Qed.

Lemma overflow_in_range x : - Binary64.MAX <= x <= Binary64.MAX -> Binary64.overflow x = Binary64.Fin x.
Proof.
  intros [Hlo Hhi]. unfold Binary64.overflow.
  destruct (Rlt_dec Binary64.MAX x) as [H|_]; [lra|].
  destruct (Rlt_dec x (- Binary64.MAX)) as [H|_]; [lra | reflexivity].
Qed.

Lemma overflow_above x : Binary64.MAX < x -> Binary64.overflow x = Binary64.PInf.
Proof.
  intros H. unfold Binary64.overflow.
  destruct (Rlt_dec Binary64.MAX x) as [_|Hn]; [reflexivity | contradiction].
Qed.

Lemma lt_exp x : x < exp x.
Proof. pose proof (exp_ineq1_le x). lra. Qed.

(** [exp] of a non-negative argument, the argument itself being the
    result of an operation. *)
Lemma fexp_overflow x :
  0 <= x ->
  (Binary64.MAX < exp x -> Binary64.fexp (Binary64.overflow x) = Binary64.PInf) /\
  (exp x <= Binary64.MAX -> Binary64.fexp (Binary64.overflow x) = Binary64.Fin (exp x)).
Proof.
  intros Hx. pose proof MAX_big as HM. pose proof (lt_exp x) as Hlt.
  pose proof (exp_pos x) as Hpos.
  destruct (Rlt_dec Binary64.MAX x) as [Hbig|Hsmall].
  - rewrite overflow_above by exact Hbig. split; [reflexivity | lra].
  - rewrite overflow_in_range by lra. simpl. split; intros H.
    + apply overflow_above, H.
    + apply overflow_in_range. lra.
Qed.

(** The argument [e * V / (k * temperature)] of the exponential. *)
Lemma exponent_value v T :
  0 <= v <= Binary64.MAX -> 0 < T <= Binary64.MAX ->
  Binary64.fdiv (Binary64.fmul (Binary64.Fin e) (Binary64.Fin v)) (Binary64.fmul (Binary64.Fin k) (Binary64.Fin T)) = Binary64.overflow (e * v / (k * T)).
Proof.
  intros [Hv0 Hv1] [HT0 HT1]. pose proof MAX_big as HM.
  assert (He : 0 < e <= 1) by (unfold e; lra).
  assert (Hk : 0 < k <= 1) by (unfold k; lra).
  assert (Hev : 0 <= e * v <= v).
  { split; [apply Rmult_le_pos; lra|].
    rewrite <- (Rmult_1_l v) at 2. apply Rmult_le_compat_r; lra. }
  assert (HkT : 0 < k * T <= T).
  { split; [apply Rmult_lt_0_compat; lra|].
    rewrite <- (Rmult_1_l T) at 2. apply Rmult_le_compat_r; lra. }
  simpl. rewrite !overflow_in_range by lra. simpl.
  destruct (Req_dec_T (k * T) 0) as [H0|_]; [lra | reflexivity].
Qed.

Lemma fmul_PInf_not_finite a : Binary64.is_finite (Binary64.fmul a Binary64.PInf) = false.
Proof.
  destruct a as [x| | |]; simpl; try reflexivity.
  unfold Binary64.signed_inf.
  destruct (Rlt_dec 0 x); [reflexivity|]. destruct (Rlt_dec x 0); reflexivity.
Qed.

Lemma fsub_not_finite a b : Binary64.is_finite b = false -> Binary64.is_finite (Binary64.fsub a b) = false.
Proof. destruct a, b; simpl; intros H; try discriminate H; reflexivity. Qed.

Lemma fmul_not_finite_pos a v : Binary64.is_finite a = false -> 0 < v -> Binary64.fmul a (Binary64.Fin v) = a.
Proof.
  intros Ha Hv. destruct a as [x| | |]; simpl; try discriminate Ha;
    try reflexivity; unfold Binary64.signed_inf;
    (destruct (Rlt_dec 0 v) as [_|Hn]; [reflexivity | contradiction]).
Qed.

Lemma fgt_not_finite a : Binary64.is_finite a = false -> Binary64.fgt a a = false.
Proof. destruct a; simpl; intros H; try discriminate H; reflexivity. Qed.

(** Past the overflow of the exponential the computed power no longer
    depends on the voltage, and it is an infinity or [nan]. *)
Lemma power_past_overflow J_sc J_0 T v :
  0 < v <= Binary64.MAX -> 0 < T <= Binary64.MAX -> Binary64.exp_overflows T v ->
  Binary64.power J_sc J_0 (Binary64.Fin T) (Binary64.Fin v) = Binary64.fsub J_sc (Binary64.fmul J_0 Binary64.PInf).
Proof.
  intros Hv HT Hov. unfold Binary64.power, Binary64.J.
  rewrite exponent_value by lra.
  assert (Harg : 0 <= e * v / (k * T)).
  { pose proof e_pos. pose proof k_pos.
    apply Rmult_le_pos; [apply Rmult_le_pos; lra|].
    left. apply Rinv_0_lt_compat, Rmult_lt_0_compat; lra. }
  rewrite (proj1 (fexp_overflow _ Harg) Hov).
  change (Binary64.fsub Binary64.PInf (Binary64.Fin 1.0)) with Binary64.PInf.
  apply fmul_not_finite_pos; [|lra].
  apply fsub_not_finite, fmul_PInf_not_finite.
Qed.

(** While every intermediate value stays in range the computed power is
    the exact one. *)
Lemma power_in_range J_sc J_0 T v :
  0 < T <= Binary64.MAX -> Binary64.in_range J_sc J_0 T v ->
  Binary64.power (Binary64.Fin J_sc) (Binary64.Fin J_0) (Binary64.Fin T) (Binary64.Fin v) = Binary64.Fin (power J_sc J_0 T v).
Proof.
  intros HT (Hv & Hexp & HJ0 & HJ & HP). pose proof MAX_big as HM.
  apply Rabs_bound in HJ0. apply Rabs_bound in HJ. apply Rabs_bound in HP.
  unfold Binary64.power, Binary64.J.
  rewrite exponent_value by lra.
  assert (Harg : 0 <= e * v / (k * T)).
  { pose proof e_pos. pose proof k_pos.
    apply Rmult_le_pos; [apply Rmult_le_pos; lra|].
    left. apply Rinv_0_lt_compat, Rmult_lt_0_compat; lra. }
  rewrite (proj2 (fexp_overflow _ Harg) Hexp).
  pose proof (exp_pos (e * v / (k * T))) as Hpos.
  set (E := exp (e * v / (k * T))) in *.
  unfold Binary64.fsub at 2. simpl Binary64.fopp. simpl Binary64.fadd.
  rewrite (overflow_in_range (E + - (1.0))) by (rewrite lit_1; lra).
  simpl Binary64.fmul at 2.
  replace (E + - (1.0)) with (E - 1.0) by ring.
  rewrite (overflow_in_range (J_0 * (E - 1.0))) by lra.
  unfold Binary64.fsub. simpl Binary64.fopp. simpl Binary64.fadd.
  replace (J_sc + - (J_0 * (E - 1.0))) with (J J_sc J_0 T v)
    by (unfold J; fold E; ring).
  rewrite (overflow_in_range (J J_sc J_0 T v)) by lra.
  simpl Binary64.fmul. apply overflow_in_range. exact HP.
Qed.

(** The voltage after [n] accepted steps. *)
Lemma nth_voltage_float n v :
  0 <= v -> v + INR n * voltage_step <= Binary64.MAX ->
  nth_voltage Binary64.fadd (Binary64.Fin voltage_step) n (Binary64.Fin v) = Binary64.Fin (v + INR n * voltage_step).
Proof.
  pose proof voltage_step_pos as Hs. pose proof MAX_big as HM.
  revert v. induction n as [|n IH]; intros v Hv Hle.
  - simpl. f_equal. lra.
  - rewrite S_INR in Hle.
    assert (Hn : 0 <= INR n * voltage_step)
      by (apply Rmult_le_pos; [apply pos_INR | lra]).
    change (nth_voltage Binary64.fadd (Binary64.Fin voltage_step) (S n) (Binary64.Fin v))
      with (nth_voltage Binary64.fadd (Binary64.Fin voltage_step) n (Binary64.fadd (Binary64.Fin v) (Binary64.Fin voltage_step))).
    simpl Binary64.fadd. rewrite overflow_in_range by lra.
    rewrite IH by lra. f_equal. rewrite S_INR. ring.
Qed.

Lemma voltage_on_grid n :
  grid n <= Binary64.MAX -> nth_voltage Binary64.fadd (Binary64.Fin voltage_step) n (Binary64.Fin 0) = Binary64.Fin (grid n).
Proof.
  intros H. rewrite nth_voltage_float; [f_equal; unfold grid; ring | lra |].
  unfold grid in H. lra.
Qed.

(** The [m]-th test compares the powers at two neighbouring grid
    voltages. *)
Lemma test_on_grid J_sc J_0 T m :
  grid (S m) <= Binary64.MAX ->
  Binary64.test J_sc J_0 T m
  = Binary64.fgt (Binary64.power J_sc J_0 T (Binary64.Fin (grid (S m))))
        (Binary64.power J_sc J_0 T (Binary64.Fin (grid m))).
Proof.
  intros H. pose proof (grid_lt m) as Hlt. pose proof (grid_nonneg m) as H0.
  pose proof MAX_big as HM.
  unfold Binary64.test, accepts. rewrite voltage_on_grid by lra.
  simpl Binary64.fadd. rewrite overflow_in_range by (rewrite <- grid_succ; lra).
  rewrite <- grid_succ. reflexivity.
Qed.

Lemma exp_overflows_mono T v v' :
  0 < T -> v <= v' -> Binary64.exp_overflows T v -> Binary64.exp_overflows T v'.
Proof.
  intros HT Hle H. unfold Binary64.exp_overflows in *.
  eapply Rlt_le_trans; [exact H|].
  assert (Hu : 0 < e / (k * T)) by (apply rate_pos, HT).
  assert (Harg : e * v / (k * T) <= e * v' / (k * T)).
  { replace (e * v / (k * T)) with (e / (k * T) * v) by (unfold Rdiv; ring).
    replace (e * v' / (k * T)) with (e / (k * T) * v') by (unfold Rdiv; ring).
    apply Rmult_le_compat_l; lra. }
  destruct Harg as [Hlt|Heq]; [left; apply exp_increasing, Hlt | rewrite Heq; lra].
Qed.

(** Once the exponential overflows at a positive grid voltage, the test at
    that voltage fails. *)
Lemma test_fails_past_overflow J_sc J_0 T N :
  0 < T <= Binary64.MAX -> 0 < grid N -> grid (S N) <= Binary64.MAX ->
  Binary64.exp_overflows T (grid N) ->
  Binary64.test J_sc J_0 (Binary64.Fin T) N = false.
Proof.
  intros HT HN Hmax Hov. pose proof (grid_lt N) as Hlt.
  rewrite test_on_grid by exact Hmax.
  rewrite !power_past_overflow; try lra; try exact Hov.
  - apply fgt_not_finite, fsub_not_finite, fmul_PInf_not_finite.
  - apply exp_overflows_mono with (grid N); [lra | lra | exact Hov].
Qed.

Lemma first_refusal (acc : nat -> bool) N :
  acc N = false ->
  exists n, (n <= N)%nat /\ acc n = false /\ forall m, (m < n)%nat -> acc m = true.
Proof.
  intros HN.
  assert (H : forall M, (forall m, (m < M)%nat -> acc m = true) \/
                        (exists n, (n < M)%nat /\ acc n = false /\
                                   forall m, (m < n)%nat -> acc m = true)).
  { induction M as [|M [IH|(n & Hn & Hf)]].
    - left. intros m Hm. lia.
    - destruct (acc M) eqn:HM.
      + left. intros m Hm. destruct (Nat.eq_dec m M) as [->|Hne];
          [exact HM | apply IH; lia].
      + right. exists M. split; [lia|]. split; [exact HM | exact IH].
    - right. exists n. split; [lia | exact Hf]. }
  destruct (H N) as [Hall|(n & Hn & Hf)].
  - exists N. split; [lia|]. split; [exact HN | exact Hall].
  - exists n. split; [lia | exact Hf].
Qed.

(** A grid voltage just past [709.8 k T / e], where the exponential has
    left the range of a double. *)
Lemma overflow_index T :
  0 < T <= Binary64.MAX ->
  exists N, 0 < grid N /\ grid N <= 709.8 * (k * T / e) + voltage_step /\
            grid (S N) <= Binary64.MAX /\ Binary64.exp_overflows T (grid N).
Proof.
  intros [HT0 HT1]. pose proof MAX_big as HM. pose proof voltage_step_pos as Hs.
  pose proof e_pos as He. pose proof k_pos as Hk.
  set (x := 709.8 * (k * T / e)).
  assert (Hx : 0 < x).
  { unfold x. apply Rmult_lt_0_compat; [lra|].
    apply Rdiv_lt_0_compat; [apply Rmult_lt_0_compat|]; lra. }
  assert (HxT : x <= 0.07 * T).
  { unfold x. replace (709.8 * (k * T / e)) with (709.8 * k / e * T) by (field; lra).
    apply Rmult_le_compat_r; [lra|]. unfold k, e. lra. }
  destruct (archimed (x / voltage_step)) as [Hup1 Hup2].
  set (z := up (x / voltage_step)) in *.
  assert (Hq : 0 < x / voltage_step) by (apply Rdiv_lt_0_compat; lra).
  assert (Hz : (0 < z)%Z) by (apply lt_IZR; lra).
  exists (Z.to_nat z).
  assert (HN : INR (Z.to_nat z) = IZR z).
  { rewrite INR_IZR_INZ. f_equal. lia. }
  assert (Hg1 : x < grid (Z.to_nat z)).
  { unfold grid. rewrite HN.
    apply Rmult_lt_reg_r with (/ voltage_step); [apply Rinv_0_lt_compat, Hs|].
    rewrite Rmult_assoc, Rinv_r, Rmult_1_r by lra. exact Hup1. }
  assert (Hg2 : grid (Z.to_nat z) <= x + voltage_step).
  { unfold grid. rewrite HN.
    replace (x + voltage_step) with ((x / voltage_step + 1) * voltage_step)
      by (field; lra).
    apply Rmult_le_compat_r; lra. }
  split; [lra|]. split; [exact Hg2|]. split.
  - rewrite grid_succ. unfold voltage_step in *. lra.
  - unfold Binary64.exp_overflows.
    eapply Rlt_trans; [apply MAX_lt_exp_709_8|]. apply exp_increasing.
    apply Rle_lt_trans with (e * x / (k * T)).
    + unfold x. right. field. split; lra.
    + unfold Rdiv. apply Rmult_lt_compat_r.
      * apply Rinv_0_lt_compat, Rmult_lt_0_compat; lra.
      * apply Rmult_lt_compat_l; lra.
Qed.

(** The loop stops at the latest where the exponential overflows. *)
Lemma sweep_stops_by_overflow (J_sc J_0 : Binary64.float) (T : R) :
  0 < T <= Binary64.MAX ->
  exists n,
    grid n <= 709.8 * (k * T / e) + voltage_step /\
    (forall m, (m < n)%nat -> Binary64.test J_sc J_0 (Binary64.Fin T) m = true) /\
    Binary64.test J_sc J_0 (Binary64.Fin T) n = false /\
    (forall fuel, (n < fuel)%nat ->
       Binary64.max_power fuel J_sc J_0 (Binary64.Fin T)
       = Some (Binary64.power J_sc J_0 (Binary64.Fin T) (Binary64.Fin (grid n)))) /\
    (forall fuel, (fuel <= n)%nat ->
       Binary64.max_power fuel J_sc J_0 (Binary64.Fin T) = None).
Proof.
  intros HT. pose proof MAX_big as HM.
  destruct (overflow_index T HT) as (N & HN0 & HNle & HNmax & HNov).
  destruct (first_refusal (Binary64.test J_sc J_0 (Binary64.Fin T)) N)
    as (n & Hn & Hstop & Hacc).
  { apply test_fails_past_overflow; assumption. }
  assert (Hgn : grid n <= grid N).
  { unfold grid. apply Rmult_le_compat_r;
      [generalize voltage_step_pos; lra | apply le_INR, Hn]. }
  assert (Hgmax : grid n <= Binary64.MAX).
  { pose proof (grid_lt N). lra. }
  exists n. split; [lra|]. split; [exact Hacc|]. split; [exact Hstop|]. split.
  - intros fuel Hfuel. unfold Binary64.max_power, Binary64.test_voltage_after.
    assert (Hrun : sweep Binary64.fadd Binary64.fgt (Binary64.power J_sc J_0 (Binary64.Fin T))
                         (Binary64.Fin voltage_step) fuel (Binary64.Fin 0)
                   = Some (Binary64.Fin (grid n))).
    { apply sweep_Some. exists n. split; [exact Hfuel|].
      split; [symmetry; apply voltage_on_grid, Hgmax|].
      split; [exact Hacc | exact Hstop]. }
    rewrite Hrun. reflexivity.
  - intros fuel Hfuel. unfold Binary64.max_power, Binary64.test_voltage_after.
    assert (Hrun : sweep Binary64.fadd Binary64.fgt (Binary64.power J_sc J_0 (Binary64.Fin T))
                         (Binary64.Fin voltage_step) fuel (Binary64.Fin 0) = None).
    { apply sweep_None. intros m Hm. apply Hacc. lia. }
    rewrite Hrun. reflexivity.
Qed.

(** While nothing overflows, the tests are those of the exact curve. *)
Lemma test_in_range j_sc j_0 T m :
  0 < T <= Binary64.MAX ->
  Binary64.in_range j_sc j_0 T (grid m) ->
  Binary64.in_range j_sc j_0 T (grid (S m)) ->
  Binary64.test (Binary64.Fin j_sc) (Binary64.Fin j_0) (Binary64.Fin T) m
  = Rgtb (power j_sc j_0 T (grid (S m))) (power j_sc j_0 T (grid m)).
Proof.
  intros HT Hm HSm.
  assert (Hmax : grid (S m) <= Binary64.MAX) by (destruct HSm as ((_ & H) & _); exact H).
  rewrite test_on_grid by exact Hmax.
  rewrite !power_in_range by assumption. reflexivity.
Qed.

Lemma sweep_in_range j_sc j_0 T n :
  0 < T <= Binary64.MAX ->
  first_stop (power j_sc j_0 T) n ->
  (forall m, (m <= S n)%nat -> Binary64.in_range j_sc j_0 T (grid m)) ->
  forall fuel, (n < fuel)%nat ->
    Binary64.max_power fuel (Binary64.Fin j_sc) (Binary64.Fin j_0) (Binary64.Fin T)
    = Some (Binary64.Fin (power j_sc j_0 T (grid n))).
Proof.
  intros HT (Hclimb & Hstop) Hrange fuel Hfuel.
  assert (Hgrid : grid n <= Binary64.MAX).
  { destruct (Hrange n ltac:(lia)) as ((_ & H) & _). exact H. }
  unfold Binary64.max_power, Binary64.test_voltage_after.
  assert (Hrun : sweep Binary64.fadd Binary64.fgt (Binary64.power (Binary64.Fin j_sc) (Binary64.Fin j_0) (Binary64.Fin T))
                       (Binary64.Fin voltage_step) fuel (Binary64.Fin 0)
                 = Some (Binary64.Fin (grid n))).
  { apply sweep_Some. exists n. split; [exact Hfuel|].
    split; [symmetry; apply voltage_on_grid, Hgrid|].
    split.
    - intros m Hm. fold (Binary64.test (Binary64.Fin j_sc) (Binary64.Fin j_0) (Binary64.Fin T) m).
      rewrite test_in_range by (try exact HT; apply Hrange; lia).
      apply Rgtb_true, Hclimb, Hm.
    - fold (Binary64.test (Binary64.Fin j_sc) (Binary64.Fin j_0) (Binary64.Fin T) n).
      rewrite test_in_range by (try exact HT; apply Hrange; lia).
      apply Rgtb_false, Hstop. }
  rewrite Hrun. simpl. f_equal. apply power_in_range; [exact HT|].
  apply Hrange. lia.
Qed.

(** C3.  At every positive temperature and for all currents, finite or
    not, the loop of [slme] and [calculate_SQ] terminates without an error:
    it stops at the first test whose comparison is not true, and this
    happens at a grid voltage of at most [709.8 k T / e + 0.001] volts,
    because from there on [exp(e V / (k T))] overflows and the computed
    power is an infinity or [nan].  The loop then returns the power at the
    voltage it stopped at, whatever the number of tests allowed beyond
    that one.  While no intermediate value overflows the tests are those of
    the exact curve, so that the loop stops at the first step that does not
    increase the power. *)
Theorem sweep_terminates (J_sc J_0 : Binary64.float) (T : R) :
  0 < T <= Binary64.MAX ->
  (exists n,
     grid n <= 709.8 * (k * T / e) + voltage_step /\
     (forall m, (m < n)%nat -> Binary64.test J_sc J_0 (Binary64.Fin T) m = true) /\
     Binary64.test J_sc J_0 (Binary64.Fin T) n = false /\
     (forall fuel, (n < fuel)%nat ->
        Binary64.max_power fuel J_sc J_0 (Binary64.Fin T)
        = Some (Binary64.power J_sc J_0 (Binary64.Fin T) (Binary64.Fin (grid n)))) /\
     (forall fuel, (fuel <= n)%nat ->
        Binary64.max_power fuel J_sc J_0 (Binary64.Fin T) = None)) /\
  (forall j_sc j_0 n,
     first_stop (power j_sc j_0 T) n ->
     (forall m, (m <= S n)%nat -> Binary64.in_range j_sc j_0 T (grid m)) ->
     forall fuel, (n < fuel)%nat ->
       Binary64.max_power fuel (Binary64.Fin j_sc) (Binary64.Fin j_0) (Binary64.Fin T)
       = Some (Binary64.Fin (power j_sc j_0 T (grid n)))).
Proof.
  intros HT. split.
  - apply sweep_stops_by_overflow, HT.
  - intros j_sc j_0 n Hstop Hrange fuel Hfuel.
    apply sweep_in_range; assumption.
Qed.

(** C3 at 300 K with [J_sc = 1] and [J_0 = 0]. *)
Lemma sweep_terminates_witness :
  0 < 300 <= Binary64.MAX /\
  exists n,
    grid n <= 709.8 * (k * 300 / e) + voltage_step /\
    Binary64.test (Binary64.Fin 1) (Binary64.Fin 0) (Binary64.Fin 300) n = false /\
    Binary64.max_power (S n) (Binary64.Fin 1) (Binary64.Fin 0) (Binary64.Fin 300)
    = Some (Binary64.power (Binary64.Fin 1) (Binary64.Fin 0) (Binary64.Fin 300) (Binary64.Fin (grid n))).
Proof.
  assert (HT : 0 < 300 <= Binary64.MAX) by (generalize MAX_big; lra).
  split; [exact HT|].
  destruct (sweep_terminates (Binary64.Fin 1) (Binary64.Fin 0) 300 HT)
    as ((n & Hn & _ & Hstop & Hret & _) & _).
  exists n. split; [exact Hn|]. split; [exact Hstop|]. apply Hret. lia.
Defined.

Lemma grid_18349 : grid (Z.to_nat 18349) = 18.349.
Proof.
  unfold grid, voltage_step. rewrite INR_IZR_INZ.
  replace (Z.of_nat (Z.to_nat 18349)) with 18349%Z by lia. lra.
Qed.

Lemma grid_18350 : grid (S (Z.to_nat 18349)) = 18.350.
Proof. rewrite grid_succ, grid_18349. unfold voltage_step. lra. Qed.

Lemma in_range_without_saturation m :
  (m <= Z.to_nat 18349)%nat -> Binary64.in_range 1 0 300 (grid m).
Proof.
  intros Hm. pose proof MAX_big as HM. pose proof (grid_nonneg m) as H0.
  assert (Hle : grid m <= 18.349).
  { rewrite <- grid_18349. unfold grid. apply Rmult_le_compat_r;
      [generalize voltage_step_pos; lra | apply le_INR, Hm]. }
  unfold Binary64.in_range. split; [lra|]. split; [|split; [|split]].
  - eapply Rle_trans; [|apply exp_709_78_le_MAX].
    assert (Harg : e * grid m / (k * 300) <= 709.78) by (unfold e, k; lra).
    destruct Harg as [Hlt|Heq]; [left; apply exp_increasing, Hlt | rewrite Heq; lra].
  - rewrite Rmult_0_l, Rabs_R0. lra.
  - unfold J. rewrite Rmult_0_l, Rminus_0_r, Rabs_R1. lra.
  - rewrite power_without_saturation, Rmult_1_l, Rabs_pos_eq; lra.
Qed.

(** With [J_sc = 1] and no saturation current the exact power is the
    voltage itself and has no maximum.  The loop ends all the same: at 300 K
    the exponential overflows at 18.350 V, the product [0 * inf] is [nan],
    and the test at 18.349 V fails.  The loop returns the power 18.349
    after 18350 tests, without any error. *)
Example sweep_ends_where_exp_overflows :
  Binary64.max_power (Z.to_nat 18350) (Binary64.Fin 1) (Binary64.Fin 0) (Binary64.Fin 300) = Some (Binary64.Fin 18.349) /\
  Binary64.max_power (Z.to_nat 18349) (Binary64.Fin 1) (Binary64.Fin 0) (Binary64.Fin 300) = None /\
  (forall n, power 1 0 300 (grid (S n)) > power 1 0 300 (grid n)).
Proof.
  pose proof MAX_big as HM.
  assert (HT : 0 < 300 <= Binary64.MAX) by lra.
  assert (Hacc : forall m, (m < Z.to_nat 18349)%nat ->
             Binary64.test (Binary64.Fin 1) (Binary64.Fin 0) (Binary64.Fin 300) m = true).
  { intros m Hm.
    rewrite test_in_range
      by (try exact HT; apply in_range_without_saturation; lia).
    apply Rgtb_true. rewrite !power_without_saturation.
    pose proof (grid_lt m). lra. }
  assert (Hstop : Binary64.test (Binary64.Fin 1) (Binary64.Fin 0) (Binary64.Fin 300) (Z.to_nat 18349) = false).
  { rewrite test_on_grid by (rewrite grid_18350; lra).
    rewrite (power_past_overflow (Binary64.Fin 1) (Binary64.Fin 0) 300 (grid (S (Z.to_nat 18349)))).
    - simpl. unfold Binary64.signed_inf.
      destruct (Rlt_dec 0 0) as [H|_]; [lra|]. reflexivity.
    - rewrite grid_18350. lra.
    - exact HT.
    - unfold Binary64.exp_overflows. rewrite grid_18350.
      eapply Rlt_le_trans; [apply MAX_lt_exp_709_8|].
      assert (Harg : 709.8 <= e * 18.350 / (k * 300)) by (unfold e, k; lra).
      destruct Harg as [Hlt|Heq]; [left; apply exp_increasing, Hlt | rewrite Heq; lra]. }
  split; [|split].
  - unfold Binary64.max_power, Binary64.test_voltage_after.
    assert (Hrun : sweep Binary64.fadd Binary64.fgt (Binary64.power (Binary64.Fin 1) (Binary64.Fin 0) (Binary64.Fin 300))
                         (Binary64.Fin voltage_step) (Z.to_nat 18350) (Binary64.Fin 0)
                   = Some (Binary64.Fin (grid (Z.to_nat 18349)))).
    { apply sweep_Some. exists (Z.to_nat 18349). split; [lia|].
      split; [symmetry; apply voltage_on_grid; rewrite grid_18349; lra|].
      split; [exact Hacc | exact Hstop]. }
    rewrite Hrun. cbn [option_map].
    rewrite power_in_range by (try exact HT; apply in_range_without_saturation; lia).
    rewrite power_without_saturation, grid_18349. do 2 f_equal. lra.
  - unfold Binary64.max_power, Binary64.test_voltage_after.
    assert (Hrun : sweep Binary64.fadd Binary64.fgt (Binary64.power (Binary64.Fin 1) (Binary64.Fin 0) (Binary64.Fin 300))
                         (Binary64.Fin voltage_step) (Z.to_nat 18349) (Binary64.Fin 0) = None).
    { apply sweep_None. exact Hacc. }
    rewrite Hrun. reflexivity.
  - intros n. rewrite !power_without_saturation. pose proof (grid_lt n). lra.
Qed.


(** ** The efficiency stays below one *)
















Section UnitInterval.

Variable data : list (R * R).
Variable simps : array -> array -> R.
Variable spline : array -> array -> R -> R.







End UnitInterval.








